(** * mider-bot: the audio synthesis and rendering pipeline

    A shallow embedding of [src/audiosynth.ts] (the [AudioSynth] engine, its
    render cache and the four default sound profiles) and of the timeline
    assembler and WAV container helpers of [src/utils.ts]
    ([createWavHeader], [extractPCM], [generateSilence],
    [synthNotesToWavBuffer]), followed by the properties proved about them.

    Conventions of the embedding.
    - A JavaScript [number] is an IEEE-754 binary64 value, modelled by the
      kernel-independent [spec_float] of the standard library with
      precision 53 and maximal exponent 1024; [+ - * /] are the correctly
      rounded operations [SFadd], [SFsub], [SFmul], [SFdiv].
    - [Math.sin], [Math.pow], [Math.log] (implementation-approximated in
      ECMAScript) and [Math.random] belong to the host: they are the fields
      of the class [Host], and every definition and theorem is parametric
      in it.
    - A [Buffer] is the list of its bytes.  Exhaustion of physical memory is
      not modelled; the size checks that the runtime performs are.
    - A call that [throw]s returns [Throw e]; stateful code threads the
      state explicitly and returns [Return a s] or [Raise e s]. *)

From Stdlib Require Import ZArith QArith Qround Lia List Bool Sorted.
From Stdlib Require Import Floats.SpecFloat.
From stdpp Require Import base option list gmap strings.

Local Open Scope Z_scope.

(** ** JavaScript numbers *)

Module JS.

Definition number : Type := spec_float.

Definition prec : Z := 53.
Definition emax : Z := 1024.

Definition NaN : number := S754_nan.
Definition Infinity : number := S754_infinity false.

Definition add : number -> number -> number := SFadd prec emax.
Definition sub : number -> number -> number := SFsub prec emax.
Definition mul : number -> number -> number := SFmul prec emax.
Definition div : number -> number -> number := SFdiv prec emax.

(** The number nearest to the integer [z] (exact for |z| < 2^53). *)
Definition of_Z (z : Z) : number := binary_normalize prec emax z 0 false.

(** A decimal literal [m * 10^-k] of the source: the quotient of two exactly
    represented integers is correctly rounded, so it is the number the
    literal denotes ([dec 3 1] is [0.3], [dec 26163 2] is [261.63]). *)
Definition dec (m : Z) (k : Z) : number := div (of_Z m) (of_Z (10 ^ k)).

(** [Math.PI], the binary64 number nearest to pi: 0x1.921fb54442d18p+1. *)
Definition Math_PI : number := S754_finite false 7074237752028440 (-51).

(** [a < b], [a <= b], [a > b], [a >= b]: false as soon as one side is NaN. *)
Definition lt (a b : number) : bool := SFltb a b.
Definition le (a b : number) : bool := SFleb a b.
Definition gt (a b : number) : bool := SFltb b a.
Definition ge (a b : number) : bool := SFleb b a.

Definition isNaN (x : number) : bool :=
  match x with S754_nan => true | _ => false end.

(** [!x] on a number: true for [+0], [-0] and [NaN]. *)
Definition falsy (x : number) : bool :=
  match x with S754_zero _ | S754_nan => true | _ => false end.

(** The integer part of the magnitude of a finite number [m * 2^e]. *)
Definition magnitude_floor (m : positive) (e : Z) : Z :=
  match e with
  | Zneg p => Z.shiftr (Zpos m) (Zpos p)
  | _ => Z.shiftl (Zpos m) e
  end.

(** Truncation toward zero, as an integer; 0 for NaN and the infinities
    (the first steps of ECMAScript's ToInt32). *)
Definition trunc (x : number) : Z :=
  match x with
  | S754_finite s m e => cond_Zopp s (magnitude_floor m e)
  | _ => 0
  end.

(** Reduction modulo 2^32 into the signed range [-2^31, 2^31). *)
Definition wrap32 (z : Z) : Z := (z + 2 ^ 31) mod 2 ^ 32 - 2 ^ 31.

(** [x | 0]: ECMAScript's ToInt32. *)
Definition ToInt32 (x : number) : Z := wrap32 (trunc x).

(** Storing into an [Int16Array] element: reduction modulo 2^16 into
    [-2^15, 2^15). *)
Definition ToInt16 (z : Z) : Z := (z + 2 ^ 15) mod 2 ^ 16 - 2 ^ 15.

(** The largest integer not above a finite number [(-1)^s * m * 2^e]. *)
Definition floorZ (s : bool) (m : positive) (e : Z) : Z :=
  match e with
  | Zneg p => Z.div (cond_Zopp s (Zpos m)) (2 ^ Zpos p)
  | _ => cond_Zopp s (Z.shiftl (Zpos m) e)
  end.

(** [Math.floor]. *)
Definition Math_floor (x : number) : number :=
  match x with
  | S754_finite s m e =>
      match e with
      | Zneg _ => of_Z (floorZ s m e)
      | _ => x
      end
  | _ => x
  end.

(** [Math.ceil]: [-floor(-x)], which also yields [-0] on (-1, 0). *)
Definition Math_ceil (x : number) : number := SFopp (Math_floor (SFopp x)).

(** [Math.round]: the nearest integer, ties toward +Infinity; a zero result
    keeps the sign of the argument. *)
Definition Math_round (x : number) : number :=
  match x with
  | S754_finite s m e =>
      match e with
      | Zneg p =>
          let r := Z.div (2 * cond_Zopp s (Zpos m) + 2 ^ Zpos p) (2 ^ (Zpos p + 1)) in
          if Z.eqb r 0 then S754_zero s else of_Z r
      | _ => x
      end
  | _ => x
  end.

(** [Math.min] and [Math.max] of two numbers (NaN is contagious; [-0] is
    below [+0]). *)
Definition Math_min (a b : number) : number :=
  match SFcompare a b with
  | None => NaN
  | Some Lt => a
  | Some Gt => b
  | Some Eq => match a with S754_zero true => a | _ => b end
  end.

Definition Math_max (a b : number) : number :=
  match SFcompare a b with
  | None => NaN
  | Some Lt => b
  | Some Gt => a
  | Some Eq => match a with S754_zero false => a | _ => b end
  end.

(** [parseFloat(String(x))] for a number [x]: [Number::toString] prints the
    shortest decimal that reads back as [x] (and "Infinity", "-Infinity",
    "NaN"), which [parseFloat] parses to [x] again; [-0] prints as "0". *)
Definition parseFloat_String (x : number) : number :=
  match x with
  | S754_zero _ => S754_zero false
  | _ => x
  end.

End JS.

Export JS.

Declare Scope js_scope.
Delimit Scope js_scope with js.
Infix "+" := JS.add : js_scope.
Infix "-" := JS.sub : js_scope.
Infix "*" := JS.mul : js_scope.
Infix "/" := JS.div : js_scope.

(** The functions of the host environment that ECMAScript does not pin down
    bit for bit, and its source of randomness: [Math_random n] is the value
    of the [n]-th call of [Math.random()] since the program started. *)
Class Host := {
  Math_sin : number -> number;
  Math_pow : number -> number -> number;
  Math_log : number -> number;
  Math_random : nat -> number
}.

(** ** Exceptions *)

Inductive Error :=
| InvalidSound      (* Error("Invalid sound or sound ID: ...") *)
| InvalidNote       (* Error("'...' is not a valid note.") *)
| RangeError
| TypeError.

Inductive result (A : Type) :=
| Ok (a : A)
| Throw (e : Error).
Arguments Ok {A} a.
Arguments Throw {A} e.

#[global] Instance result_bind : MBind result := fun A B k r =>
  match r with
  | Ok a => k a
  | Throw e => Throw e
  end.

(** ** Buffers *)

Definition Buffer : Type := list Z.

(** [buffer.constants.MAX_LENGTH]: the largest size any Node.js release
    accepts (2^53 - 1). *)
Definition kMaxLength : Z := 2 ^ 53 - 1.

(** [Buffer.alloc(size)]: zero-filled; a size that is NaN, negative or above
    [kMaxLength] is refused with a RangeError. *)
Definition Buffer_alloc (size : number) : result Buffer :=
  if JS.le (of_Z 0) size && JS.le size (of_Z kMaxLength)
  then Ok (replicate (Z.to_nat (trunc size)) 0)
  else Throw RangeError.

(** [Buffer.concat(list)]. *)
Definition Buffer_concat (bufs : list Buffer) : Buffer := concat bufs.

(** The bytes of an ASCII string literal. *)
Fixpoint string_bytes (s : string) : list Z :=
  match s with
  | EmptyString => []
  | String c s' => Z.of_N (Ascii.N_of_ascii c) :: string_bytes s'
  end.

(** Overwrite [buf] with [bs] from [offset] on, dropping what does not fit. *)
Definition write_at (offset : nat) (bs : list Z) (buf : Buffer) : Buffer :=
  take (length buf) (take offset buf ++ bs ++ drop (offset + length bs) buf).

(** [buf.write(string, offset)]. *)
Definition Buffer_write (s : string) (offset : nat) (buf : Buffer) : Buffer :=
  write_at offset (string_bytes s) buf.

(** The [n] low bytes of [v], least significant first. *)
Fixpoint le_bytes (n : nat) (v : Z) : list Z :=
  match n with
  | O => []
  | S n' => v mod 256 :: le_bytes n' (v / 256)
  end.

(** The integer a little-endian byte string denotes. *)
Fixpoint le_value (bs : list Z) : Z :=
  match bs with
  | [] => 0
  | b :: bs' => b + 256 * le_value bs'
  end.

(** [buf.writeUIntLE]-family: the value (a number, here an exact rational)
    must lie in [0, 2^(8n) - 1] and the [n] bytes must fit, else a
    RangeError is thrown; the bytes stored are those of the truncated
    value. *)
Definition writeUIntLE (n : nat) (value : Q) (offset : nat) (buf : Buffer)
  : result Buffer :=
  if Qle_bool 0 value && Qle_bool value (inject_Z (2 ^ (8 * Z.of_nat n) - 1))
     && (offset + n <=? length buf)%nat
  then Ok (write_at offset (le_bytes n (Qfloor value)) buf)
  else Throw RangeError.

Definition writeUInt32LE := writeUIntLE 4.
Definition writeUInt16LE := writeUIntLE 2.

(** [buf.readUInt32LE(offset)], used to state what a header holds. *)
Definition readUInt32LE (offset : nat) (buf : Buffer) : Z :=
  le_value (take 4 (drop offset buf)).

(** ** The WAV container ([utils.ts]) *)

(** [extractPCM]: [wav.slice(44)]. *)
Definition extractPCM (wav : Buffer) : Buffer := drop 44 wav.

(** [createWavHeader(dataLength, sampleRate, channels, bitsPerSample)]. *)
Definition createWavHeader (dataLength sampleRate channels bitsPerSample : Z)
  : result Buffer :=
  let byteRate := (inject_Z (sampleRate * channels * bitsPerSample) / 8)%Q in
  let blockAlign := (inject_Z (channels * bitsPerSample) / 8)%Q in
  let buffer := replicate 44 0 in
  let buffer := Buffer_write "RIFF" 0 buffer in
  buffer ← writeUInt32LE (inject_Z (36 + dataLength)) 4 buffer;
  let buffer := Buffer_write "WAVE" 8 buffer in
  let buffer := Buffer_write "fmt " 12 buffer in
  buffer ← writeUInt32LE 16 16 buffer;
  buffer ← writeUInt16LE 1 20 buffer;
  buffer ← writeUInt16LE (inject_Z channels) 22 buffer;
  buffer ← writeUInt32LE (inject_Z sampleRate) 24 buffer;
  buffer ← writeUInt32LE byteRate 28 buffer;
  buffer ← writeUInt16LE blockAlign 32 buffer;
  buffer ← writeUInt16LE (inject_Z bitsPerSample) 34 buffer;
  let buffer := Buffer_write "data" 36 buffer in
  buffer ← writeUInt32LE (inject_Z dataLength) 40 buffer;
  Ok buffer.

(** The call [createWavHeader(dataLength)] with the default parameters
    [sampleRate = 44100], [channels = 1], [bitsPerSample = 16]. *)
Definition createWavHeader_default (dataLength : Z) : result Buffer :=
  createWavHeader dataLength 44100 1 16.

(** [generateSilence(seconds)]: the sample rate is the constant 44100. *)
Definition generateSilence (seconds : number) : result Buffer :=
  let sampleRate := of_Z 44100 in
  let samples := Math_floor (seconds * sampleRate)%js in
  Buffer_alloc (samples * of_Z 2)%js.


(** ** Stateful computations

    [M S A] is a computation over a state [S] that returns an [A] or throws;
    the state at the moment of the [throw] is kept, since later calls see
    it.  [OutsideModel] marks the situations the embedding does not follow
    further (see [generate] and [Array_sort]). *)

Inductive outcome (S A : Type) :=
| Return (a : A) (s : S)
| Raise (e : Error) (s : S)
| OutsideModel.
Arguments Return {S A} a s.
Arguments Raise {S A} e s.
Arguments OutsideModel {S A}.

Definition M (S A : Type) : Type := S -> outcome S A.

#[global] Instance M_ret {S} : MRet (M S) := fun A a s => Return a s.

#[global] Instance M_bind {S} : MBind (M S) := fun A B k m s =>
  match m s with
  | Return a s' => k a s'
  | Raise e s' => Raise e s'
  | OutsideModel => OutsideModel
  end.

Definition throw {S A} (e : Error) : M S A := fun s => Raise e s.
Definition outside_model {S A} : M S A := fun _ => OutsideModel.
Definition get {S} : M S S := fun s => Return s s.
Definition modify {S} (f : S -> S) : M S unit := fun s => Return tt (f s).

Definition lift_result {S A} (r : result A) : M S A :=
  match r with
  | Ok a => mret a
  | Throw e => throw e
  end.

(** [for (; i < bound; i++) body], run from [i] for [n] iterations, threading
    the local [acc] through the body. *)
Fixpoint for_loop {S A} (n : nat) (i : Z) (body : Z -> A -> M S A) (acc : A)
  : M S A :=
  match n with
  | O => mret acc
  | S n' => acc' ← body i acc; for_loop n' (i + 1) body acc'
  end.

(** ** The synthesizer ([audiosynth.ts]) *)

#[global] Instance number_eq_dec : EqDecision number.
Proof. unfold number. solve_decision. Defined.

#[global] Instance number_countable : Countable number.
Proof.
  refine (inj_countable'
    (fun x : number => match x with
       | S754_zero s => inl (inl s)
       | S754_infinity s => inl (inr s)
       | S754_nan => inr (inl tt)
       | S754_finite s m e => inr (inr (s, m, e))
       end)
    (fun y : bool + bool + (unit + bool * positive * Z) => match y with
       | inl (inl s) => S754_zero s
       | inl (inr s) => S754_infinity s
       | inr (inl _) => S754_nan
       | inr (inr (s, m, e)) => S754_finite s m e
       end) _).
  intros []; reflexivity.
Defined.

(** [ModulationFunction]: [(i, sampleRate, frequency, x) => number]. *)
Definition ModulationFunction : Type :=
  number -> number -> number -> number -> number.

(** The scratch object [vars] of a wave function ([this._temp]): the three
    properties the acoustic profile keeps there, each absent until first
    assigned. *)
Record Vars := {
  valueTable : option (list number);
  playVal : option Z;
  periodCount : option Z
}.

Definition empty_vars : Vars :=
  {| valueTable := None; playVal := None; periodCount := None |}.

(** What a wave function can read and change: its scratch object and the
    number of [Math.random()] calls made so far. *)
Record WaveState := {
  vars : Vars;
  random_calls : nat
}.

(** [wave]: called with [this = { modulate, vars }] and
    [(i, sampleRate, frequency, volume)]. *)
Definition WaveFunction : Type :=
  list ModulationFunction -> number -> number -> number -> number ->
  M WaveState number.

Record SoundProfile := {
  name : string;
  attack : number -> number -> number -> number;
  dampen : number -> number -> number -> number;
  wave : WaveFunction
}.

(** [SoundID = number | string]; a numeric id is integer-valued (any other
    number names no element of [_sounds], like an integer out of range). *)
Inductive SoundID :=
| SoundIndex (n : Z)
| SoundName (s : string).

(** The render cache [_fileCache]: [[soundIndex][octave-1][note][duration]]. *)
Abbreviation Durations := (gmap number Buffer).
Abbreviation NoteList := (gmap string Durations).
Abbreviation FileCache := (list (list NoteList)).

Record AudioSynth := {
  _debug : bool;
  _sampleRate : Z;
  _volume : Z;
  _sounds : list SoundProfile;
  _mod : list ModulationFunction;
  _fileCache : FileCache;
  _temp : Vars
}.

(** The two private fields no method assigns. *)
Definition _bitsPerSample : Z := 16.
Definition _channels : Z := 1.

Definition set_sampleRate (v : Z) (a : AudioSynth) : AudioSynth :=
  {| _debug := _debug a; _sampleRate := v; _volume := _volume a;
     _sounds := _sounds a; _mod := _mod a; _fileCache := _fileCache a;
     _temp := _temp a |}.

Definition set_volume (v : Z) (a : AudioSynth) : AudioSynth :=
  {| _debug := _debug a; _sampleRate := _sampleRate a; _volume := v;
     _sounds := _sounds a; _mod := _mod a; _fileCache := _fileCache a;
     _temp := _temp a |}.

Definition set_sounds (v : list SoundProfile) (a : AudioSynth) : AudioSynth :=
  {| _debug := _debug a; _sampleRate := _sampleRate a; _volume := _volume a;
     _sounds := v; _mod := _mod a; _fileCache := _fileCache a;
     _temp := _temp a |}.

Definition set_mod (v : list ModulationFunction) (a : AudioSynth) : AudioSynth :=
  {| _debug := _debug a; _sampleRate := _sampleRate a; _volume := _volume a;
     _sounds := _sounds a; _mod := v; _fileCache := _fileCache a;
     _temp := _temp a |}.

Definition set_fileCache (v : FileCache) (a : AudioSynth) : AudioSynth :=
  {| _debug := _debug a; _sampleRate := _sampleRate a; _volume := _volume a;
     _sounds := _sounds a; _mod := _mod a; _fileCache := v;
     _temp := _temp a |}.

Definition set_temp (v : Vars) (a : AudioSynth) : AudioSynth :=
  {| _debug := _debug a; _sampleRate := _sampleRate a; _volume := _volume a;
     _sounds := _sounds a; _mod := _mod a; _fileCache := _fileCache a;
     _temp := v |}.

Definition set_debug (v : bool) (a : AudioSynth) : AudioSynth :=
  {| _debug := v; _sampleRate := _sampleRate a; _volume := _volume a;
     _sounds := _sounds a; _mod := _mod a; _fileCache := _fileCache a;
     _temp := _temp a |}.

(** *** The built-in objects that [generate] reaches

    [generate] indexes [_notes] and the note objects of the cache with its
    [note] argument.  For a member name of [Object.prototype] (the list
    [Object_prototype] below) these reads find the built-in member, and the statement that stores a rendered
    buffer then assigns to a property of that built-in: of the function
    ([Object] for ["constructor"], [Object.prototype.toString] for
    ["toString"], ...) or, for ["__proto__"], of [Object.prototype] itself.
    The keys of these properties are durations.  The built-ins outlive the
    cache; what is put on [Object.prototype] is inherited by every object
    that has no own property of that key, the function members
    included. *)

Record Builtins := {
  (* own properties added to [Object.prototype] *)
  proto_extra : Durations;
  (* own properties added to its function members, by member name *)
  member_extra : gmap string Durations
}.

(** The built-ins of a process in which nothing has been stored on them. *)
Definition pristine : Builtins := {| proto_extra := ∅; member_extra := ∅ |}.

(** [m[d]] for the member [m] that an object literal inherits under the name
    [note]. *)
Definition member_get (b : Builtins) (note : string) (d : number) : option Buffer :=
  if String.eqb note "__proto__" then proto_extra b !! d
  else match member_extra b !! note ≫= (fun ds : Durations => ds !! d) with
       | Some wav => Some wav
       | None => proto_extra b !! d
       end.

(** [m[d] = wavBuffer] for that member. *)
Definition member_set (note : string) (d : number) (wavBuffer : Buffer)
    (b : Builtins) : Builtins :=
  if String.eqb note "__proto__"
  then {| proto_extra := <[d := wavBuffer]> (proto_extra b);
          member_extra := member_extra b |}
  else {| proto_extra := proto_extra b;
          member_extra :=
            <[note := <[d := wavBuffer]> (default ∅ (member_extra b !! note))]>
              (member_extra b) |}.

(** Whether a string can be [String(d)] for a number [d], the form of the
    keys in [proto_extra]: such a string starts with a digit or a minus
    sign, or is ["Infinity"] or ["NaN"]. *)
Definition numeric_like (s : string) : bool :=
  match s with
  | String c _ =>
      let n := Ascii.nat_of_ascii c in
      ((48 <=? n)%nat && (n <=? 57)%nat) || (n =? 45)%nat
      || String.eqb s "Infinity" || String.eqb s "NaN"
  | EmptyString => false
  end.

(** Whether [Object.prototype] holds an element for the array index [i]:
    an array read at an index the array lacks finds it. *)
Definition inherited_index (b : Builtins) (i : Z) : bool :=
  bool_decide (is_Some (proto_extra b !! of_Z i)).

(** The state a method of the engine runs in: the engine object, the
    built-in objects of the process, the number of [Math.random()] calls made
    so far, and a ghost counter of the invocations of wave functions
    (instrumentation only: nothing reads it). *)
Record Runtime := {
  synth : AudioSynth;
  builtins : Builtins;
  random_draws : nat;
  wave_calls : nat
}.

Definition on_synth (f : AudioSynth -> AudioSynth) (rt : Runtime) : Runtime :=
  {| synth := f (synth rt); builtins := builtins rt;
     random_draws := random_draws rt; wave_calls := wave_calls rt |}.

Definition on_builtins (f : Builtins -> Builtins) (rt : Runtime) : Runtime :=
  {| synth := synth rt; builtins := f (builtins rt);
     random_draws := random_draws rt; wave_calls := wave_calls rt |}.

(** [_resizeCache]: one list of eight empty note objects per sound that has
    none yet. *)
Definition octaveList : list NoteList := replicate 8 ∅.

Definition _resizeCache (a : AudioSynth) : AudioSynth :=
  let f := _fileCache a in
  set_fileCache (f ++ replicate (length (_sounds a) - length f)%nat octaveList) a.

(** [_clearCache]. *)
Definition _clearCache (a : AudioSynth) : AudioSynth :=
  _resizeCache (set_fileCache [] a).

(** [setSampleRate(sampleRate)]: returns the rate it has set. *)
Definition setSampleRate (sampleRate : number) : M Runtime Z :=
  _ ← modify (on_synth (set_sampleRate
         (Z.max (Z.min (ToInt32 sampleRate) 44100) 4000)));
  _ ← modify (on_synth _clearCache);
  rt ← get;
  mret (_sampleRate (synth rt)).

(** [setVolume(volume)]: returns the internal volume it has set. *)
Definition setVolume (volume : number) : M Runtime Z :=
  let v := parseFloat_String volume in
  _ ← modify (on_synth (set_volume
         (trunc (Math_round
            (Math_max (of_Z 0) (Math_min (of_Z 1) (if isNaN v then of_Z 0 else v))
             * of_Z 32767)%js))));
  _ ← modify (on_synth _clearCache);
  rt ← get;
  mret (_volume (synth rt)).

(** [debug()]. *)
Definition debug : M Runtime unit := modify (on_synth (set_debug true)).

(** [loadSoundProfile(...profiles)]. *)
Definition loadSoundProfile (profiles : list SoundProfile) : M Runtime unit :=
  _ ← modify (on_synth (fun a => set_sounds (_sounds a ++ profiles) a));
  modify (on_synth _resizeCache).

(** [loadModulationFunction(...functions)]. *)
Definition loadModulationFunction (functions : list ModulationFunction)
  : M Runtime unit :=
  modify (on_synth (fun a => set_mod (_mod a ++ functions) a)).

(** [Array.prototype.findIndex]: the first index whose element satisfies
    [p], or -1. *)
Fixpoint findIndex {A} (p : A -> bool) (l : list A) (i : Z) : Z :=
  match l with
  | [] => -1
  | x :: l' => if p x then i else findIndex p l' (i + 1)
  end.

(** [this._sounds[i]] for an integer [i]. *)
Definition sound_at (a : AudioSynth) (i : Z) : option SoundProfile :=
  if Z.ltb i 0 then None else _sounds a !! Z.to_nat i.

(** [_findSound(sound)]. *)
Definition _findSound (a : AudioSynth) (sound : SoundID) : Z :=
  match sound with
  | SoundName s => findIndex (fun p => String.eqb (name p) s) (_sounds a) 0
  | SoundIndex n => match sound_at a n with Some _ => n | None => -1 end
  end.

(** *** Property reads on plain objects

    [obj[key]] on an object literal finds an own property or else a member
    of [Object.prototype]; every such member is a function or (for
    ["__proto__"]) [Object.prototype] itself, hence truthy. *)

Definition Object_prototype : list string :=
  [ "constructor"; "hasOwnProperty"; "isPrototypeOf"; "propertyIsEnumerable";
    "toLocaleString"; "toString"; "valueOf"; "__proto__";
    "__defineGetter__"; "__defineSetter__"; "__lookupGetter__";
    "__lookupSetter__" ].

Inductive Property (A : Type) :=
| Own (a : A)
| Inherited
| Undefined.
Arguments Own {A} a.
Arguments Inherited {A}.
Arguments Undefined {A}.

Definition js_get {A} (obj : gmap string A) (key : string) : Property A :=
  match obj !! key with
  | Some a => Own a
  | None => if bool_decide (key ∈ Object_prototype) then Inherited else Undefined
  end.

(** [_notes]: the frequencies of the twelve pitch classes in octave 4. *)
Definition _notes : gmap string number :=
  list_to_map
    [ ("C", dec 26163 2); ("C#", dec 27718 2); ("D", dec 29366 2);
      ("D#", dec 31113 2); ("E", dec 32963 2); ("F", dec 34923 2);
      ("F#", dec 36999 2); ("G", dec 39200 2); ("G#", dec 41530 2);
      ("A", dec 44000 2); ("A#", dec 46616 2); ("B", dec 49388 2) ].

(** *** The cache *)

(** [this._fileCache[soundID]?.[o - 1]?.[note]?.[d]].  [_resizeCache] keeps a
    row of eight note objects for every sound, so the first two reads find
    own elements (or nothing, in a state no method produces).  The note
    object has [note] as an own property, holding an object of durations
    that inherits from [Object.prototype], or it inherits [note] itself, or
    the read is [undefined] and the chain ends.  [generate] makes this read
    only for a key of [_notes] or a member name of [Object.prototype]; for
    any other name the last case holds as long as [Object.prototype] has no
    property of that name, that is, no buffer stored under it. *)
Definition cache_lookup (b : Builtins) (c : FileCache) (soundID o : Z)
    (note : string) (d : number) : option Buffer :=
  octaves ← c !! Z.to_nat soundID;
  noteList ← octaves !! Z.to_nat (o - 1);
  match noteList !! note with
  | Some durations =>
      match durations !! d with
      | Some wav => Some wav
      | None => proto_extra b !! d
      end
  | None =>
      if bool_decide (note ∈ Object_prototype) then member_get b note d else None
  end.

(** The three statements that store a rendered buffer, for a note object
    that is to hold it as an own property.  [_fileCache[soundID]] must
    exist (a TypeError otherwise); a missing [o - 1] entry would be created
    by the first [if], which the shape kept by [_resizeCache] never
    needs. *)
Definition cache_store (c : FileCache) (soundID o : Z) (note : string)
    (d : number) (wavBuffer : Buffer) : result FileCache :=
  match c !! Z.to_nat soundID with
  | None => Throw TypeError
  | Some octaves =>
      let noteList := default ∅ (octaves !! Z.to_nat (o - 1)) in
      let durations := default ∅ (noteList !! note) in
      let noteList := <[note := <[d := wavBuffer]> durations]> noteList in
      let octaves :=
        if decide (Z.to_nat (o - 1) < length octaves)%nat
        then <[Z.to_nat (o - 1) := noteList]> octaves
        else octaves ++ replicate (Z.to_nat (o - 1) - length octaves) ∅
                     ++ [noteList] in
      Ok (<[Z.to_nat soundID := octaves]> c)
  end.

(** The same statements for a note object that inherits [note]: the second
    [if] finds the built-in member and creates nothing, and the assignment
    (made by [member_set]) leaves the cache as it is, up to the [o - 1] entry
    of the first [if]. *)
Definition cache_pass (c : FileCache) (soundID o : Z) : result FileCache :=
  match c !! Z.to_nat soundID with
  | None => Throw TypeError
  | Some octaves =>
      let octaves :=
        if decide (Z.to_nat (o - 1) < length octaves)%nat then octaves
        else octaves ++ replicate (Z.to_nat (o - 1) - length octaves) ∅ ++ [∅] in
      Ok (<[Z.to_nat soundID := octaves]> c)
  end.

(** Whether the note object of a key inherits [note] rather than owning
    it. *)
Definition note_entry (c : FileCache) (soundID o : Z) (note : string)
  : option Durations :=
  octaves ← c !! Z.to_nat soundID;
  noteList ← octaves !! Z.to_nat (o - 1);
  noteList !! note.

Definition note_inherited (c : FileCache) (soundID o : Z) (note : string) : bool :=
  match note_entry c soundID o note with
  | Some _ => false
  | None => bool_decide (note ∈ Object_prototype)
  end.

(** *** WAV framing inside the engine *)

(** The bytes of an [Int16Array] as [Buffer.from(data.buffer)] exposes them
    (two's complement, least significant byte first). *)
Definition Int16Array_bytes (data : list Z) : Buffer :=
  concat (map (le_bytes 2) data).

(** [_createWav(data)]. *)
Definition _createWav (a : AudioSynth) (data : Buffer) : result Buffer :=
  let sampleRate := _sampleRate a in
  let channels := _channels in
  let bitsPerSample := _bitsPerSample in
  let dataLength := Z.of_nat (length data) in
  let buffer := replicate 44 0 in
  let buffer := Buffer_write "RIFF" 0 buffer in
  buffer ← writeUInt32LE (inject_Z (36 + dataLength)) 4 buffer;
  let buffer := Buffer_write "WAVE" 8 buffer in
  let buffer := Buffer_write "fmt " 12 buffer in
  buffer ← writeUInt32LE 16 16 buffer;
  buffer ← writeUInt16LE 1 20 buffer;
  buffer ← writeUInt16LE (inject_Z channels) 22 buffer;
  buffer ← writeUInt32LE (inject_Z sampleRate) 24 buffer;
  buffer ← writeUInt32LE
             (inject_Z (sampleRate * channels) * (inject_Z bitsPerSample / 8))%Q
             28 buffer;
  buffer ← writeUInt16LE (inject_Z channels * (inject_Z bitsPerSample / 8))%Q
             32 buffer;
  buffer ← writeUInt16LE (inject_Z bitsPerSample) 34 buffer;
  let buffer := Buffer_write "data" 36 buffer in
  buffer ← writeUInt32LE (inject_Z dataLength) 40 buffer;
  Ok (Buffer_concat [buffer; data]).

Section Engine.
Context `{Host}.

(** *** generate *)

(** [waveFunc.call(waveBind, i, sampleRate, frequency, volume)] where
    [waveBind = { modulate: this._mod, vars: this._temp }]: the wave function
    works on the engine's own scratch object. *)
Definition call_wave (waveFunc : WaveFunction) (i sampleRate frequency volume : number)
  : M Runtime number := fun rt =>
  let a := synth rt in
  let back (ws : WaveState) :=
    {| synth := set_temp (vars ws) a; builtins := builtins rt;
       random_draws := random_calls ws; wave_calls := S (wave_calls rt) |} in
  match waveFunc (_mod a) i sampleRate frequency volume
          {| vars := _temp a; random_calls := random_draws rt |} with
  | Return x ws => Return x (back ws)
  | Raise e ws => Raise e (back ws)
  | OutsideModel => OutsideModel
  end.

(** [new Int16Array(new ArrayBuffer(dataSize))] for an even [dataSize]: a
    negative length is a RangeError. *)
Definition new_Int16Array (dataSize : Z) : result (list Z) :=
  if Z.ltb dataSize 0 then Throw RangeError
  else Ok (replicate (Z.to_nat (dataSize / 2)) 0).

(** [data[i] = val | 0]: a store past the end of a typed array is ignored. *)
Definition store_sample (i : Z) (val : number) (data : list Z) : list Z :=
  <[Z.to_nat i := ToInt16 (ToInt32 val)]> data.

(** The local [o] of [generate]: [Math.min(8, Math.max(1, octave | 0))]. *)
Definition clamp_octave (octave : number) : Z :=
  Z.min 8 (Z.max 1 (ToInt32 octave)).

(** The local [d] of [generate]:
    [!duration ? 2 : parseFloat(String(duration))]. *)
Definition duration_key (duration : number) : number :=
  if falsy duration then of_Z 2 else parseFloat_String duration.

(** The value [val] of a sample in the attack loop, given the value [w] the
    wave function returned. *)
Definition attack_val (volume sampleRate attack : number) (i : Z) (w : number)
  : number :=
  (volume * (of_Z i / (sampleRate * attack)) * w)%js.

(** The value [val] of a sample in the decay loop. *)
Definition decay_val (volume sampleRate attack dampen d : number) (attackLen i : Z)
    (w : number) : number :=
  (volume
   * Math_pow (of_Z 1 - (of_Z i - of_Z attackLen) / (sampleRate * (d - attack)))
              dampen
   * w)%js.

(** One iteration of either loop: call the wave function, store the sample. *)
Definition sample_step (waveFunc : WaveFunction) (sampleRate frequency volume : number)
    (val : Z -> number -> number) (i : Z) (data : list Z) : M Runtime (list Z) :=
  w ← call_wave waveFunc (of_Z i) sampleRate frequency volume;
  mret (store_sample i (val i w) data).

(** The statements of [generate] that store [wavBuffer] under its key: in the
    cache, or on the built-in member that the note object inherits under
    the name [note]. *)
Definition store_buffer (soundID o : Z) (note : string) (d : number)
    (wavBuffer : Buffer) : M Runtime unit :=
  rt ← get;
  let c := _fileCache (synth rt) in
  if note_inherited c soundID o note then
    cache ← lift_result (cache_pass c soundID o);
    _ ← modify (on_synth (set_fileCache cache));
    modify (on_builtins (member_set note d wavBuffer))
  else
    cache ← lift_result (cache_store c soundID o note d wavBuffer);
    modify (on_synth (set_fileCache cache)).

(** [generate] from the cache miss on, once [frequency] is known: synthesis
    of the samples, WAV framing, and the store into the cache. *)
Definition render (this : AudioSynth) (thisSound : SoundProfile) (soundID o : Z)
    (note : string) (d frequency : number) : M Runtime Buffer :=
  let sampleRate := of_Z (_sampleRate this) in
  let volume := of_Z (_volume this) in
  let attack := attack thisSound sampleRate frequency volume in
  let dampen := dampen thisSound sampleRate frequency volume in
  let waveFunc := wave thisSound in
  let attackLen := ToInt32 (sampleRate * attack)%js in
  let decayLen := ToInt32 (sampleRate * d)%js in
  (* 16-bit, so 2 bytes per sample *)
  let dataSize := decayLen * _channels * (_bitsPerSample / 8) in
  data ← lift_result (new_Int16Array dataSize);
  (* Attack *)
  data ← for_loop (Z.to_nat attackLen) 0
           (sample_step waveFunc sampleRate frequency volume
              (attack_val volume sampleRate attack)) data;
  (* Decay *)
  let i := Z.max 0 attackLen in
  data ← for_loop (Z.to_nat (decayLen - i)) i
           (sample_step waveFunc sampleRate frequency volume
              (decay_val volume sampleRate attack dampen d attackLen)) data;
  wavBuffer ← lift_result (_createWav this (Int16Array_bytes data));
  (* Cache the result *)
  _ ← store_buffer soundID o note d wavBuffer;
  mret wavBuffer.

(** Whether [this._sounds[...]] finds an element on [Object.prototype] where
    the array has none, for the reads that [_findSound] and [generate] make
    for [sound] (at the index given, and at -1). *)
Definition sound_inherited (b : Builtins) (sound : SoundID) : bool :=
  match sound with
  | SoundIndex n => inherited_index b n || inherited_index b (-1)
  | SoundName _ => inherited_index b (-1)
  end.

(** [generate(sound, note, octave, duration)].  The debug timing log is the
    only thing left out.

    A note name that [_notes] merely inherits passes the guard
    [!this._notes[note]] although it is no note: its "base frequency" is a
    built-in function or object, which the multiplication turns into NaN.
    [generate] then reads the cache entry from that built-in, renders at the
    frequency NaN on a miss, and stores the buffer on the built-in.

    Two situations are not followed ([OutsideModel]); both need a buffer
    stored on [Object.prototype] by an earlier call with the note name
    ["__proto__"].  One is a [sound] that names no element of [_sounds] while
    [Object.prototype] holds a buffer under that index: [thisSound] is then
    this buffer.  The other is a note name that is neither a key of
    [_notes] nor a member name of [Object.prototype] but may be the key of
    such a buffer ([numeric_like]): [_notes[note]] is then this buffer, and
    the cache read indexes its bytes. *)
Definition generate (sound : SoundID) (note : string) (octave duration : number)
  : M Runtime Buffer :=
  rt ← get;
  let this := synth rt in
  let soundID := _findSound this sound in
  match sound_at this soundID with
  | None =>
      if sound_inherited (builtins rt) sound then outside_model
      else throw InvalidSound
  | Some thisSound =>
    _ ← modify (on_synth (set_temp empty_vars));
    let o := clamp_octave octave in
    let d := duration_key duration in
    match js_get _notes note with
    | Undefined =>
        if negb (bool_decide (proto_extra (builtins rt) = ∅)) && numeric_like note
        then outside_model
        else throw InvalidNote
    | Inherited =>
      match cache_lookup (builtins rt) (_fileCache this) soundID o note d with
      | Some cached => mret cached
      | None =>
          let frequency := (NaN * Math_pow (of_Z 2) (of_Z o - of_Z 4))%js in
          render this thisSound soundID o note d frequency
      end
    | Own base =>
      if falsy base then throw InvalidNote else
      match cache_lookup (builtins rt) (_fileCache this) soundID o note d with
      | Some cached => mret cached
      | None =>
          let frequency := (base * Math_pow (of_Z 2) (of_Z o - of_Z 4))%js in
          render this thisSound soundID o note d frequency
      end
    end
  end.

(** [createInstrument(sound)] and the handle it returns; the handle's
    [_parent] is the engine the call was made on. *)
Record AudioSynthInstrument := {
  instrument_name : string;
  _soundID : Z
}.

Definition createInstrument (sound : SoundID) : M Runtime AudioSynthInstrument :=
  rt ← get;
  let soundID := _findSound (synth rt) sound in
  if Z.eqb soundID (-1) then
    (* a numeric [sound] that names no element of [_sounds] is still found
       by [_findSound] when [Object.prototype] holds a buffer under it; the
       handle would then carry that buffer's [name] *)
    match sound with
    | SoundIndex n =>
        if inherited_index (builtins rt) n then outside_model
        else throw InvalidSound
    | SoundName _ => throw InvalidSound
    end
  else
  match sound_at (synth rt) soundID with
  | None => throw TypeError
  | Some profile => mret {| instrument_name := name profile; _soundID := soundID |}
  end.

(** [AudioSynthInstrument.generate(note, octave, duration)]. *)
Definition instrument_generate (instrument : AudioSynthInstrument)
    (note : string) (octave duration : number) : M Runtime Buffer :=
  generate (SoundIndex (_soundID instrument)) note octave duration.

(** *** The modulation functions *)

(** The function the constructor installs in slot 0:
    [Math.sin((2 * Math.PI) * (i / s) * f + x)]. *)
Definition fundamental : ModulationFunction := fun i s f x =>
  Math_sin (of_Z 2 * Math_PI * (i / s) * f + x)%js.

(** The shape of the loaded functions 1 to 5,
    [Math.sin(k * Math.PI * (i / s * f) + x)], and of 6 to 10,
    [0.5 * Math.sin(k * Math.PI * (i / s * f) + x)]. *)
Definition harmonic (k : number) : ModulationFunction := fun i s f x =>
  Math_sin (k * Math_PI * (i / s * f) + x)%js.

Definition half_harmonic (k : number) : ModulationFunction := fun i s f x =>
  (dec 5 1 * Math_sin (k * Math_PI * (i / s * f) + x))%js.

(** The argument of [Synth.loadModulationFunction(...)]. *)
Definition default_modulations : list ModulationFunction :=
  [ harmonic (of_Z 2);          (* 1 *)
    harmonic (of_Z 4);          (* 2 *)
    harmonic (of_Z 8);          (* 3 *)
    harmonic (dec 5 1);         (* 4 *)
    harmonic (dec 25 2);        (* 5 *)
    half_harmonic (of_Z 2);     (* 6 *)
    half_harmonic (of_Z 4);     (* 7 *)
    half_harmonic (of_Z 8);     (* 8 *)
    half_harmonic (dec 5 1);    (* 9 *)
    half_harmonic (dec 25 2) ]. (* 10 *)

(** [new AudioSynth()]. *)
Definition new_AudioSynth : AudioSynth :=
  _resizeCache
    {| _debug := false; _sampleRate := 44100; _volume := 32767;
       _sounds := []; _mod := [fundamental]; _fileCache := [];
       _temp := empty_vars |}.

(** *** The sound profiles *)

(** [this.modulate[k]] used as a function: calling [undefined] is a
    TypeError. *)
Definition modulate_at {S} (modulate : list ModulationFunction) (k : nat)
  : M S ModulationFunction :=
  match modulate !! k with
  | Some m => mret m
  | None => throw TypeError
  end.

Definition piano : SoundProfile := {|
  name := "piano";
  attack := fun _ _ _ => dec 2 3;
  dampen := fun sampleRate frequency volume =>
    Math_pow (dec 5 1 * Math_log (frequency * volume / sampleRate))%js (of_Z 2);
  wave := fun modulate i sampleRate frequency volume =>
    base ← modulate_at modulate 0;
    outer ← modulate_at modulate 1;
    mret (outer i sampleRate frequency
            (Math_pow (base i sampleRate frequency (of_Z 0)) (of_Z 2)
             + dec 75 2 * base i sampleRate frequency (dec 25 2)
             + dec 1 1 * base i sampleRate frequency (dec 5 1))%js)
|}.

Definition organ : SoundProfile := {|
  name := "organ";
  attack := fun _ _ _ => dec 3 1;
  dampen := fun sampleRate frequency volume =>
    (of_Z 1 + frequency * dec 1 2)%js;
  wave := fun modulate i sampleRate frequency volume =>
    base ← modulate_at modulate 0;
    outer ← modulate_at modulate 1;
    mret (outer i sampleRate frequency
            (base i sampleRate frequency (of_Z 0)
             + dec 5 1 * base i sampleRate frequency (dec 25 2)
             + dec 25 2 * base i sampleRate frequency (dec 5 1))%js)
|}.

(** Reading [array[k]] where the result feeds arithmetic: an absent element
    is [undefined], which every use below turns into NaN. *)
Definition array_get (l : list number) (k : Z) : number :=
  if Z.ltb k 0 then NaN else default NaN (l !! Z.to_nat k).

(** [array[k] = v]: an index past the end grows the array, leaving holes. *)
Definition array_set (k : Z) (v : number) (l : list number) : list number :=
  if decide (Z.to_nat k < length l)%nat then <[Z.to_nat k := v]> l
  else l ++ replicate (Z.to_nat k - length l) NaN ++ [v].

Definition put_vars {A} (table : list number) (pv pc : Z) (draws : nat) (x : A)
  : M WaveState A := fun _ =>
  Return x {| vars := {| valueTable := Some table; playVal := Some pv;
                         periodCount := Some pc |};
              random_calls := draws |}.

Definition acoustic : SoundProfile := {|
  name := "acoustic";
  attack := fun _ _ _ => dec 2 3;
  dampen := fun _ _ _ => of_Z 1;
  wave := fun modulate i sampleRate frequency volume =>
    ws ← get;
    let table := default [] (valueTable (vars ws)) in
    let pv := default 0 (playVal (vars ws)) in
    let pc := default 0 (periodCount (vars ws)) in
    let draws := random_calls ws in
    let period := (sampleRate / frequency)%js in
    let p_hundredth :=
      Math_floor ((period - Math_floor period) * of_Z 100)%js in
    let len := Z.of_nat (length table) in
    if JS.le (of_Z len) (Math_ceil period) then
      let table := table ++ [(Math_round (Math_random draws) * of_Z 2 - of_Z 1)%js] in
      put_vars table pv pc (S draws)
        (array_get table (Z.of_nat (length table) - 1))
    else
      let table :=
        array_set pv
          ((array_get table (if Z.geb pv (len - 1) then 0 else pv + 1)
            + array_get table pv) * dec 5 1)%js table in
      let '(resetPlay, table, pc) :=
        if JS.ge (of_Z pv) (Math_floor period) then
          if JS.lt (of_Z pv) (Math_ceil period) then
            if JS.ge (of_Z (Z.rem pc 100)) p_hundredth then
              (true,
               array_set (pv + 1)
                 ((array_get table 0 + array_get table (pv + 1)) * dec 5 1)%js
                 table,
               pc + 1)
            else (false, table, pc)
          else (true, table, pc)
        else (false, table, pc) in
      let _return := array_get table pv in
      put_vars table (if resetPlay then 0 else pv + 1) pc draws _return
|}.

Definition edm : SoundProfile := {|
  name := "edm";
  attack := fun _ _ _ => dec 2 3;
  dampen := fun _ _ _ => of_Z 1;
  wave := fun modulate i sampleRate frequency volume =>
    base ← modulate_at modulate 0;
    let mod_ := drop 1 modulate in        (* this.modulate.slice(1) *)
    mod0 ← modulate_at mod_ 0;
    mod9 ← modulate_at mod_ 9;
    mod2 ← modulate_at mod_ 2;
    mod8 ← modulate_at mod_ 8;
    mret (mod0 i sampleRate frequency
            (mod9 i sampleRate frequency
               (mod2 i sampleRate frequency
                  (Math_pow (base i sampleRate frequency (of_Z 0)) (of_Z 3)
                   + Math_pow (base i sampleRate frequency (dec 5 1)) (of_Z 5)
                   + Math_pow (base i sampleRate frequency (of_Z 1)) (of_Z 7)))
             + mod8 i sampleRate frequency
                 (base i sampleRate frequency (dec 175 2)))%js)
|}.

(** *** The singleton

    [const Synth = new AudioSynth()] followed by the two [load...] calls of
    the module body. *)
Definition fresh_runtime : Runtime :=
  {| synth := new_AudioSynth; builtins := pristine; random_draws := 0;
     wave_calls := 0 |}.

Definition module_init : M Runtime unit :=
  _ ← loadModulationFunction default_modulations;
  loadSoundProfile [piano; organ; acoustic; edm].

Definition Synth : Runtime :=
  match module_init fresh_runtime with
  | Return _ rt => rt
  | _ => fresh_runtime
  end.

End Engine.

(** ** The timeline assembler ([utils.ts]) *)

Record SynthNote := {
  note : string;
  octave : number;
  duration : number;
  time : option number     (* [None]: the property is absent *)
}.

(** The comparator [(a, b) => (a.time ?? 0) - (b.time ?? 0)]. *)
Definition by_time (a b : SynthNote) : number :=
  (default (of_Z 0) (time a) - default (of_Z 0) (time b))%js.

(** [Array.prototype.sort(comparefn)].  ECMAScript fixes the result only when
    [comparefn] is a consistent comparator for the elements: it never
    returns NaN, and with [a <CF b], [a =CF b], [a >CF b] standing for
    [comparefn(a, b)] being negative, zero, positive, [=CF] is reflexive,
    symmetric and transitive and [<CF] and [>CF] are transitive.  The result
    is then the stable sort: ascending, elements that compare equal keeping
    their order.  It is written here as an insertion sort from the right,
    which places [a] after [b] exactly when [comparefn(a, b) > 0].  For any
    other comparator the order is left to the implementation, and the
    embedding gives none. *)
Section Sort.
Context {A : Type} (comparefn : A -> A -> number).

Definition cf_lt (a b : A) : bool := JS.lt (comparefn a b) (of_Z 0).
Definition cf_eq (a b : A) : bool := SFeqb (comparefn a b) (of_Z 0).
Definition cf_gt (a b : A) : bool := JS.gt (comparefn a b) (of_Z 0).

Definition consistent (l : list A) : bool :=
  forallb (fun a =>
    cf_eq a a &&
    forallb (fun b =>
      negb (isNaN (comparefn a b)) &&
      implb (cf_eq a b) (cf_eq b a) &&
      forallb (fun c =>
        implb (cf_eq a b && cf_eq b c) (cf_eq a c) &&
        implb (cf_lt a b && cf_lt b c) (cf_lt a c) &&
        implb (cf_gt a b && cf_gt b c) (cf_gt a c)) l) l) l.

Fixpoint sort_insert (x : A) (l : list A) : list A :=
  match l with
  | [] => [x]
  | y :: l' =>
      if JS.gt (comparefn x y) (of_Z 0) then y :: sort_insert x l' else x :: l
  end.

Definition stable_sort (l : list A) : list A := foldr sort_insert [] l.

Definition Array_sort (l : list A) : option (list A) :=
  if consistent l then Some (stable_sort l) else None.

End Sort.

Section Timeline.
Context `{Host}.

(** The body of [for (const { note, octave, duration, time = currentTime } of
    sorted)], iterated over the rest of [sorted]; it returns the final
    [buffers]. *)
Fixpoint timeline (instrument : AudioSynthInstrument) (sorted : list SynthNote)
    (buffers : list Buffer) (currentTime : number) : M Runtime (list Buffer) :=
  match sorted with
  | [] => mret buffers
  | n :: rest =>
      let time := default currentTime (time n) in
      let gap := (time - currentTime)%js in
      buffers ←
        (if JS.gt gap (of_Z 0)
         then silence ← lift_result (generateSilence gap);
              mret (buffers ++ [silence])
         else mret buffers);
      wav ← instrument_generate instrument (note n) (octave n) (duration n);
      let buffers := buffers ++ [extractPCM wav] in
      timeline instrument rest buffers (time + duration n)%js
  end.

(** [synthNotesToWavBuffer(notes, instrumentName)], run on the singleton
    engine ([instrumentName] defaults to ['piano'] in the source). *)
Definition synthNotesToWavBuffer (notes : list SynthNote) (instrumentName : string)
  : M Runtime Buffer :=
  instrument ← createInstrument (SoundName instrumentName);
  match Array_sort by_time notes with
  | None => outside_model
  | Some sorted =>
      buffers ← timeline instrument sorted [] (of_Z 0);
      let allPCM := Buffer_concat buffers in
      header ← lift_result (createWavHeader_default (Z.of_nat (length allPCM)));
      mret (Buffer_concat [header; allPCM])
  end.

End Timeline.

(** ** A concrete host

    Used where a statement has to be evaluated on closed inputs.  It meets
    the results ECMAScript fixes exactly ([sin] of a zero is that zero, of
    NaN or an infinity is NaN; [pow(x, ±0)] is 1, [pow(x, 1)] is [x],
    [pow(x, NaN)] is NaN; [log(1)] is [+0], [log(NaN)] is NaN) and is crude
    elsewhere; [Math.random()] yields 0.75, 0.25, 0.25 in turn. *)
Definition demo_sin (x : number) : number :=
  match x with
  | S754_zero _ => x
  | _ => (x - x * x * x / of_Z 6)%js
  end.

Definition demo_pow (x y : number) : number :=
  match y with
  | S754_nan => NaN
  | S754_zero _ => of_Z 1
  | _ => x
  end.

Definition demo_log (x : number) : number := (x - of_Z 1)%js.

Definition demo_random (n : nat) : number :=
  if (n mod 3 =? 0)%nat then dec 75 2 else dec 25 2.

Definition demo_host : Host :=
  {| Math_sin := demo_sin; Math_pow := demo_pow; Math_log := demo_log;
     Math_random := demo_random |}.


Definition demo_Synth : Runtime := @Synth demo_host.

(** ** Vocabulary of the statements *)

(** Two runtime states that differ at most in the scratch object, the count
    of random draws and the ghost counter. *)
Definition same_engine (rt rt' : Runtime) : Prop :=
  set_temp empty_vars (synth rt') = set_temp empty_vars (synth rt) /\
  builtins rt' = builtins rt.

(** The state an outcome leaves behind. *)
Definition final_state {S A} (r : outcome S A) : option S :=
  match r with
  | Return _ s => Some s
  | Raise _ s => Some s
  | OutsideModel => None
  end.

(** A wave function that never throws on the given modulation registry. *)
Definition wave_total (p : SoundProfile) (mods : list ModulationFunction) : Prop :=
  forall i s f v ws, exists x ws', wave p mods i s f v ws = Return x ws'.

(** The value a wave function returns from the pristine scratch state. *)
Definition wave_value (p : SoundProfile) (mods : list ModulationFunction)
    (i s f v : number) : number :=
  match wave p mods i s f v {| vars := empty_vars; random_calls := 0 |} with
  | Return x _ => x
  | _ => NaN
  end.



Section Vocabulary.
Context `{Host}.


(** The calls a client of the loaded module makes on the engine. *)
Inductive Call :=
| CallGenerate (sound : SoundID) (note : string) (octave duration : number)
| CallSetSampleRate (sampleRate : number)
| CallSetVolume (volume : number)
| CallDebug.

(** The state after a call, whether it returned or threw. *)
Definition after (c : Call) (rt : Runtime) : option Runtime :=
  match c with
  | CallGenerate sound note octave duration =>
      final_state (generate sound note octave duration rt)
  | CallSetSampleRate r => final_state (setSampleRate r rt)
  | CallSetVolume v => final_state (setVolume v rt)
  | CallDebug => final_state (debug rt)
  end.

(** The states of the singleton engine that a program can be in: it starts
    from the loaded module (whatever use of [Math.random] came before), in a
    process that has stored nothing on the built-in objects, and makes
    calls.  A call of [generate] with a note name that [Object.prototype]
    lends is a step like any other; the calls that are not followed
    ([OutsideModel], see [generate]) are no steps. *)
Inductive reachable : Runtime -> Prop :=
| reachable_start (rt : Runtime) :
    synth rt = synth Synth -> builtins rt = pristine -> reachable rt
| reachable_step (rt rt' : Runtime) (c : Call) :
    reachable rt -> after c rt = Some rt' -> reachable rt'.

(** The buffer that the cache itself holds under a key, as an own property
    of its durations object. *)
Definition cache_own (c : FileCache) (soundID o : Z) (note : string)
    (d : number) : option Buffer :=
  octaves ← c !! Z.to_nat soundID;
  noteList ← octaves !! Z.to_nat (o - 1);
  durations ← noteList !! note;
  durations !! d.

(** What [this._notes[note]] contributes to the frequency: the base
    frequency of a note name, NaN for anything else that passes the guard. *)
Definition note_base (note : string) : number := default NaN (_notes !! note).

(** The note object [_fileCache[soundID][o - 1]]. *)
Definition note_object (c : FileCache) (soundID o : Z) : option NoteList :=
  octaves ← c !! Z.to_nat soundID;
  octaves !! Z.to_nat (o - 1).

(** Every row of the cache holds its eight note objects, as [_resizeCache]
    makes it. *)
Definition full_rows (c : FileCache) : Prop :=
  Forall (fun octaves : list NoteList => length octaves = 8%nat) c.

(** What the cache read of [generate] finds under a key in a state. *)
Definition cached (rt : Runtime) (soundID o : Z) (note : string) (d : number)
  : option Buffer :=
  cache_lookup (builtins rt) (_fileCache (synth rt)) soundID o note d.

(** No buffer has been stored on [Object.prototype] itself. *)
Definition unpolluted (rt : Runtime) : Prop := proto_extra (builtins rt) = ∅.

(** The state of the engine that the module leaves behind, as far as the
    calls of [Call] can tell. *)
Definition standard (rt : Runtime) : Prop :=
  _sounds (synth rt) = [piano; organ; acoustic; edm] /\
  _mod (synth rt) = fundamental :: default_modulations /\
  length (_fileCache (synth rt)) = 4%nat /\
  4000 <= _sampleRate (synth rt) <= 44100 /\
  full_rows (_fileCache (synth rt)).



End Vocabulary.

(** The number of wave-function calls of a render that completes. *)
Definition render_calls (this : AudioSynth) (thisSound : SoundProfile)
    (d frequency : number) : nat :=
  let sampleRate := of_Z (_sampleRate this) in
  let volume := of_Z (_volume this) in
  let attackLen := ToInt32 (sampleRate * attack thisSound sampleRate frequency volume)%js in
  let decayLen := ToInt32 (sampleRate * d)%js in
  (Z.to_nat attackLen + Z.to_nat (decayLen - Z.max 0 attackLen))%nat.

(** The attack lengths of the default profiles, checked for each sample rate
    the engine can have. *)
Definition attack_ok (c : number) (sampleRate : Z) : bool :=
  let t := trunc (of_Z sampleRate * c)%js in (0 <=? t) && (t <? 2147483648).

Fixpoint range_ok (c : number) (n : nat) (sampleRate : Z) : bool :=
  match n with
  | O => true
  | S n' => attack_ok c sampleRate && range_ok c n' (sampleRate + 1)
  end.



(** What a call for the note ["C"] returns after a call with the note name
    ["__proto__"] and the same duration and a call for ["C"] with another
    duration, and what it returns in the engine as loaded. *)
Definition proto_runs :=
  let gen := generate (H := demo_host) (SoundName "piano") in
  match gen "__proto__" (of_Z 4) (dec 1 3) demo_Synth with
  | Return b1 rt1 =>
      match gen "C" (of_Z 4) (dec 2 3) rt1 with
      | Return _ rt2 =>
          match gen "C" (of_Z 4) (dec 1 3) rt2 with
          | Return b2 rt3 =>
              match gen "C" (of_Z 4) (dec 1 3) demo_Synth with
              | Return b3 _ =>
                  Some (b1, b2, b3, (wave_calls rt2, wave_calls rt3))
              | _ => None
              end
          | _ => None
          end
      | _ => None
      end
  | _ => None
  end.

(** The values a JavaScript number takes: NaN, the infinities, the zeros and
    the finite numbers [m * 2^e] whose mantissa is canonical (53 bits, or
    fewer at the least exponent).  The arithmetic operations return such
    values; [spec_float] also has other triples [(s, m, e)]. *)
Definition binary64 (x : number) : Prop := valid_binary prec emax x = true.

(** The key [n.time ?? 0] that the comparator of the assembler sorts by. *)
Definition startTime (n : SynthNote) : number := default (of_Z 0) (time n).

(** [Number.isFinite]: the numbers other than NaN and the infinities. *)
Definition isFinite (x : number) : bool :=
  match x with S754_zero _ | S754_finite _ _ _ => true | _ => false end.

(** A note whose start time is a finite number. *)
Definition finite_time (n : SynthNote) : Prop :=
  binary64 (startTime n) /\ isFinite (startTime n) = true.

(** The place of a number other than NaN in the order [<]: the infinities
    and the signs first, then the exponent and the mantissa, both counted
    downwards for a negative number. *)
Definition order_key (x : number) : Z * Z * Z :=
  match x with
  | S754_infinity s => (if s then -2 else 2, 0, 0)
  | S754_finite s m e => if s then (-1, - e, Z.neg m) else (1, e, Z.pos m)
  | _ => (0, 0, 0)
  end.

Definition key_lt (j k : Z * Z * Z) : Prop :=
  j.1.1 < k.1.1 \/
  j.1.1 = k.1.1 /\ (j.1.2 < k.1.2 \/ j.1.2 = k.1.2 /\ j.2 < k.2).

(** A buffer of the size that a render at the sample rate of the engine
    gives a note of [d] seconds: the sample count [(sampleRate * d) | 0] is
    one that [generate] accepts, and the buffer has 44 bytes and two more
    for each sample. *)
Definition sized (a : AudioSynth) (d : number) (wav : Buffer) : Prop :=
  let samples := ToInt32 (of_Z (_sampleRate a) * d)%js in
  0 <= samples <= 2 ^ 31 - 19 /\ Z.of_nat (length wav) = 44 + 2 * samples.

(** Every buffer that the cache itself holds has the size of its key. *)
Definition cache_sized (rt : Runtime) : Prop :=
  forall soundID o note d b,
    cache_own (_fileCache (synth rt)) soundID o note d = Some b ->
    sized (synth rt) d b.

(** * Properties *)

(** ** The WAV header *)

Lemma Qle_bool_inject_Z (a b : Z) : Qle_bool (inject_Z a) (inject_Z b) = (a <=? b).
Proof. unfold Qle_bool, inject_Z; simpl. by rewrite !Z.mul_1_r. Qed.

Lemma le_value_le_bytes (n : nat) (v : Z) :
  le_value (le_bytes n v) = v mod 256 ^ Z.of_nat n.
Proof.
  revert v; induction n as [|n IH]; intros v.
  - simpl. by rewrite Z.mod_1_r.
  - cbn [le_bytes le_value]. rewrite IH.
    rewrite Nat2Z.inj_succ, Z.pow_succ_r by lia.
    rewrite Z.rem_mul_r by lia. lia.
Qed.

Lemma writeUIntLE_Z (n : nat) (v : Z) (offset : nat) (buf : Buffer) :
  0 <= v <= 2 ^ (8 * Z.of_nat n) - 1 -> (offset + n <= length buf)%nat ->
  writeUIntLE n (inject_Z v) offset buf = Ok (write_at offset (le_bytes n v) buf).
Proof.
  intros Hv Hoff. unfold writeUIntLE.
  change 0%Q with (inject_Z 0). rewrite !Qle_bool_inject_Z, Qfloor_Z.
  rewrite (proj2 (Z.leb_le _ _)) by lia.
  rewrite (proj2 (Z.leb_le _ _)) by lia.
  rewrite (proj2 (Nat.leb_le _ _)) by lia. reflexivity.
Qed.

Lemma writeUIntLE_Qeq (n : nat) (q q' : Q) (offset : nat) (buf : Buffer) :
  (q == q')%Q -> writeUIntLE n q offset buf = writeUIntLE n q' offset buf.
Proof.
  intros E. unfold writeUIntLE.
  assert (Qle_bool 0 q = Qle_bool 0 q') as -> by (by rewrite E).
  assert (Qle_bool q (inject_Z (2 ^ (8 * Z.of_nat n) - 1))
          = Qle_bool q' (inject_Z (2 ^ (8 * Z.of_nat n) - 1))) as -> by (by rewrite E).
  assert (Qfloor q = Qfloor q') as -> by (by rewrite E).
  reflexivity.
Qed.

Ltac run_write :=
  match goal with
  | |- (?m ≫= ?k) = _ =>
      let m' := eval vm_compute in m in
      change m with m'; cbn [mbind result_bind]
  end.

Ltac name_bytes v :=
  let b0 := fresh "b" in let b1 := fresh "b" in
  let b2 := fresh "b" in let b3 := fresh "b" in
  remember (v mod 256) as b0;
  remember (v / 256 mod 256) as b1;
  remember (v / 256 / 256 mod 256) as b2;
  remember (v / 256 / 256 / 256 mod 256) as b3.

Lemma createWavHeader_default_ok (L : Z) :
  0 <= L <= 2 ^ 32 - 37 ->
  createWavHeader_default L =
    Ok (string_bytes "RIFF" ++ le_bytes 4 (36 + L) ++ string_bytes "WAVEfmt "
        ++ [16; 0; 0; 0; 1; 0; 1; 0; 68; 172; 0; 0; 136; 88; 1; 0; 2; 0; 16; 0]
        ++ string_bytes "data" ++ le_bytes 4 L).
Proof.
  intros HL. unfold createWavHeader_default, createWavHeader.
  cbv zeta. unfold writeUInt32LE, writeUInt16LE.
  rewrite writeUIntLE_Z; [|cbn; lia|cbn; lia].
  cbn [mbind result_bind le_bytes]. name_bytes (36 + L).
  do 7 run_write.
  rewrite writeUIntLE_Z; [|cbn; lia|cbn; lia].
  cbn [mbind result_bind le_bytes]. reflexivity.
Qed.

Lemma _createWav_ok (a : AudioSynth) (data : Buffer) :
  0 <= _sampleRate a < 2 ^ 31 ->
  Z.of_nat (length data) <= 2 ^ 32 - 37 ->
  _createWav a data =
    Ok ((string_bytes "RIFF" ++ le_bytes 4 (36 + Z.of_nat (length data))
         ++ string_bytes "WAVEfmt " ++ [16; 0; 0; 0; 1; 0; 1; 0]
         ++ le_bytes 4 (_sampleRate a) ++ le_bytes 4 (2 * _sampleRate a)
         ++ [2; 0; 16; 0] ++ string_bytes "data"
         ++ le_bytes 4 (Z.of_nat (length data))) ++ data).
Proof.
  intros Hsr HL. unfold _createWav. cbv zeta.
  unfold writeUInt32LE, writeUInt16LE.
  pose proof (Nat2Z.is_nonneg (length data)) as HL0.
  generalize dependent (Z.of_nat (length data)); intros L HL HL0.
  generalize dependent (_sampleRate a); intros sr Hsr.
  rewrite writeUIntLE_Z; [|cbn; lia|cbn; lia].
  cbn [mbind result_bind le_bytes]. name_bytes (36 + L).
  do 3 run_write.
  rewrite writeUIntLE_Z; [|cbn; lia|cbn; lia].
  cbn [mbind result_bind le_bytes]. name_bytes sr.
  rewrite (writeUIntLE_Qeq _ _ (inject_Z (2 * sr))).
  2:{ unfold _channels, _bitsPerSample, Qeq, Qmult, Qdiv, Qinv, inject_Z; simpl. lia. }
  rewrite writeUIntLE_Z; [|cbn; lia|cbn; lia].
  cbn [mbind result_bind le_bytes]. name_bytes (2 * sr).
  do 2 run_write.
  rewrite writeUIntLE_Z; [|cbn; lia|cbn; lia].
  cbn [mbind result_bind le_bytes]. unfold Buffer_concat. cbn [concat].
  rewrite app_nil_r. reflexivity.
Qed.

Lemma writeUIntLE_cases (n : nat) (q : Q) (offset : nat) (buf : Buffer) :
  (exists buf', writeUIntLE n q offset buf = Ok buf' /\
                Qle_bool 0 q = true /\
                Qle_bool q (inject_Z (2 ^ (8 * Z.of_nat n) - 1)) = true) \/
  writeUIntLE n q offset buf = Throw RangeError.
Proof.
  unfold writeUIntLE.
  destruct (Qle_bool 0 q); [|right; reflexivity].
  destruct (Qle_bool q _); [|right; reflexivity].
  destruct (_ <=? _)%nat; [|right; reflexivity].
  left. eexists. auto.
Qed.

(** [_createWav] returns exactly when the sample rate and the data length
    fit their fields, and throws a RangeError otherwise. *)
Lemma _createWav_cases (a : AudioSynth) (data : Buffer) :
  (exists wav, _createWav a data = Ok wav /\
               0 <= _sampleRate a < 2 ^ 31 /\
               Z.of_nat (length data) <= 2 ^ 32 - 37) \/
  _createWav a data = Throw RangeError.
Proof.
  unfold _createWav. cbv zeta. unfold writeUInt32LE, writeUInt16LE.
  destruct (writeUIntLE_cases 4 (inject_Z (36 + Z.of_nat (length data))) 4
              (Buffer_write "RIFF" 0 (replicate 44 0)))
    as [(b1 & -> & _ & HL)| ->]; [cbn [mbind result_bind]|right; reflexivity].
  repeat match goal with
  | |- context [writeUIntLE ?n ?q ?o ?b ≫= _] =>
      lazymatch q with
      | inject_Z (_sampleRate a) => fail
      | _ => idtac
      end;
      destruct (writeUIntLE_cases n q o b) as [(? & -> & _ & _)| ->];
      [cbn [mbind result_bind]|right; reflexivity]
  end.
  match goal with
  | |- context [writeUIntLE 4 (inject_Z (_sampleRate a)) ?o ?b ≫= _] =>
      destruct (writeUIntLE_cases 4 (inject_Z (_sampleRate a)) o b)
        as [(? & -> & Hlo & _)| ->]; [cbn [mbind result_bind]|right; reflexivity]
  end.
  match goal with
  | |- context [writeUIntLE 4 ?q ?o ?b ≫= _] =>
      destruct (writeUIntLE_cases 4 q o b)
        as [(? & -> & _ & Hhi)| ->]; [cbn [mbind result_bind]|right; reflexivity]
  end.
  repeat match goal with
  | |- context [writeUIntLE ?n ?q ?o ?b ≫= _] =>
      destruct (writeUIntLE_cases n q o b) as [(? & -> & _ & _)| ->];
      [cbn [mbind result_bind]|right; reflexivity]
  end.
  left. eexists. split; [reflexivity|].
  change 0%Q with (inject_Z 0) in *.
  rewrite Qle_bool_inject_Z in HL, Hlo.
  apply Z.leb_le in HL, Hlo.
  apply Qle_bool_iff in Hhi.
  unfold Qle, Qmult, Qdiv, Qinv, inject_Z, _channels, _bitsPerSample in Hhi.
  cbn in Hhi.
  change (2 ^ (8 * Z.of_nat 4)) with (2 ^ 32) in *. lia.
Qed.

Lemma wrap32_id (z : Z) : - 2 ^ 31 <= z < 2 ^ 31 -> wrap32 z = z.
Proof. intros Hz. unfold wrap32. rewrite Z.mod_small; lia. Qed.

Lemma le_value_le_bytes_4 (v : Z) :
  0 <= v < 2 ^ 32 -> le_value (le_bytes 4 v) = v.
Proof. intros Hv. rewrite le_value_le_bytes. apply Z.mod_small. cbn. lia. Qed.

(** C2 (amended).  For every data length [L] with [0 <= L <= 2^32 - 37] and
    every PCM byte sequence [pcm] of length [L], the 44-byte header that
    [createWavHeader(L)] builds has its data-length field (bytes 40..43,
    little-endian) equal to [L] and its RIFF size field (bytes 4..7) equal to
    [36 + L], and [extractPCM(header ++ pcm)] is [pcm]; the same holds for the
    header that the engine's [_createWav(pcm)] puts in front of [pcm]. *)
Theorem wav_header_roundtrip (L : Z) (pcm : Buffer) :
  0 <= L <= 2 ^ 32 - 37 ->
  Z.of_nat (length pcm) = L ->
  (exists header,
      createWavHeader_default L = Ok header /\
      length header = 44%nat /\
      readUInt32LE 40 header = L /\
      readUInt32LE 4 header = 36 + L /\
      extractPCM (Buffer_concat [header; pcm]) = pcm) /\
  (forall a : AudioSynth, 0 <= _sampleRate a < 2 ^ 31 ->
    exists header,
      _createWav a pcm = Ok (Buffer_concat [header; pcm]) /\
      length header = 44%nat /\
      readUInt32LE 40 header = L /\
      readUInt32LE 4 header = 36 + L /\
      extractPCM (Buffer_concat [header; pcm]) = pcm).
Proof.
  intros HL Hlen. split.
  - eexists. split; [apply createWavHeader_default_ok; exact HL|].
    split; [reflexivity|]. split; [|split].
    + unfold readUInt32LE.
      match goal with |- le_value ?t = _ => change t with (le_bytes 4 L) end.
      apply le_value_le_bytes_4; lia.
    + unfold readUInt32LE.
      match goal with |- le_value ?t = _ => change t with (le_bytes 4 (36 + L)) end.
      apply le_value_le_bytes_4; lia.
    + unfold extractPCM, Buffer_concat. cbn [concat]. rewrite app_nil_r.
      apply (drop_app_length' _ _ 44). reflexivity.
  - intros a Ha. eexists. split.
    + rewrite _createWav_ok by (rewrite ?Hlen; lia).
      unfold Buffer_concat. cbn [concat]. rewrite app_nil_r. reflexivity.
    + rewrite Hlen. split; [reflexivity|]. split; [|split].
      * unfold readUInt32LE.
        match goal with |- le_value ?t = _ => change t with (le_bytes 4 L) end.
        apply le_value_le_bytes_4; lia.
      * unfold readUInt32LE.
        match goal with |- le_value ?t = _ => change t with (le_bytes 4 (36 + L)) end.
        apply le_value_le_bytes_4; lia.
      * unfold extractPCM, Buffer_concat. cbn [concat]. rewrite app_nil_r.
        apply (drop_app_length' _ _ 44). reflexivity.
Qed.

(** The theorem at [L = 4], [pcm = [1; 2; 3; 4]]. *)
Lemma wav_header_roundtrip_witness :
  exists header,
    createWavHeader_default 4 = Ok header /\
    readUInt32LE 40 header = 4 /\ readUInt32LE 4 header = 40 /\
    extractPCM (Buffer_concat [header; [1; 2; 3; 4]]) = [1; 2; 3; 4].
Proof.
  destruct (wav_header_roundtrip 4 [1; 2; 3; 4]) as [(h & H1 & _ & H3 & H4 & H5) _];
    [lia | reflexivity |].
  exists h. auto.
Defined.

(** C2 as stated fails from [L = 2^32 - 36] on: [36 + L] no longer fits the
    32-bit RIFF size field, and [writeUInt32LE] throws instead of building a
    header. *)
Lemma wav_header_overflow :
  0 <= 2 ^ 32 - 36 /\ createWavHeader_default (2 ^ 32 - 36) = Throw RangeError.
Proof. split; [lia | vm_compute; reflexivity]. Qed.


(** ** Integer coercion: sample rate and octave *)

Lemma setSampleRate_spec (r : number) (rt : Runtime) :
  let v := Z.max (Z.min (ToInt32 r) 44100) 4000 in
  setSampleRate r rt =
    Return v (on_synth _clearCache (on_synth (set_sampleRate v) rt)).
Proof. reflexivity. Qed.

(** C10 (amended).  For every number [r] whose truncation lies in the signed
    32-bit range, [setSampleRate(r)] sets the engine sample rate to
    [min(max(truncate(r), 4000), 44100)] (NaN and the infinities truncating
    to 0) and returns the value it has set. *)
Theorem setSampleRate_clamps (r : number) (rt : Runtime) :
  - 2 ^ 31 <= trunc r < 2 ^ 31 ->
  exists v rt',
    setSampleRate r rt = Return v rt' /\
    _sampleRate (synth rt') = v /\
    v = Z.min (Z.max (trunc r) 4000) 44100 /\
    4000 <= v <= 44100.
Proof.
  intros Hr. eexists _, _. split; [apply setSampleRate_spec|].
  split; [reflexivity|]. unfold ToInt32. rewrite wrap32_id by exact Hr. lia.
Qed.

(** The theorem at [r = 22050.5]. *)
Lemma setSampleRate_clamps_witness :
  exists v rt',
    setSampleRate (dec 220505 1) (@Synth demo_host) = Return v rt' /\
    _sampleRate (synth rt') = v /\
    v = Z.min (Z.max 22050 4000) 44100 /\
    4000 <= v <= 44100.
Proof.
  apply (setSampleRate_clamps (dec 220505 1) (@Synth demo_host)).
  split; [apply Z.leb_le | apply Z.ltb_lt]; vm_compute; reflexivity.
Defined.

(** C10 as stated fails at [r = 2^32 + 5000]: [r | 0] is 5000, so the rate
    becomes 5000 and not 44100. *)
Lemma setSampleRate_wraps :
  exists rt',
    setSampleRate (of_Z (2 ^ 32 + 5000)) (@Synth demo_host) = Return 5000 rt' /\
    _sampleRate (synth rt') = 5000 /\
    trunc (of_Z (2 ^ 32 + 5000)) = 2 ^ 32 + 5000 /\
    Z.min (Z.max (2 ^ 32 + 5000) 4000) 44100 = 44100.
Proof.
  eexists. split; [apply setSampleRate_spec|]. split; [reflexivity|].
  split; vm_compute; reflexivity.
Qed.

Lemma clamp_octave_range (octave : number) : 1 <= clamp_octave octave <= 8.
Proof. unfold clamp_octave. lia. Qed.

Lemma clamp_octave_idem (octave : number) :
  clamp_octave (of_Z (clamp_octave octave)) = clamp_octave octave.
Proof.
  pose proof (clamp_octave_range octave) as Hc.
  assert (Hcases : clamp_octave octave = 1 \/ clamp_octave octave = 2 \/
                   clamp_octave octave = 3 \/ clamp_octave octave = 4 \/
                   clamp_octave octave = 5 \/ clamp_octave octave = 6 \/
                   clamp_octave octave = 7 \/ clamp_octave octave = 8) by lia.
  destruct Hcases as [-> | [-> | [-> | [-> | [-> | [-> | [-> | ->]]]]]]];
    vm_compute; reflexivity.
Qed.


(** ** Unfolding [generate] *)

Lemma _notes_elem (note : string) (base : number) :
  _notes !! note = Some base ->
  (note, base) ∈
    [ ("C", dec 26163 2); ("C#", dec 27718 2); ("D", dec 29366 2);
      ("D#", dec 31113 2); ("E", dec 32963 2); ("F", dec 34923 2);
      ("F#", dec 36999 2); ("G", dec 39200 2); ("G#", dec 41530 2);
      ("A", dec 44000 2); ("A#", dec 46616 2); ("B", dec 49388 2) ].
Proof. intros Hn. apply elem_of_list_to_map_2 in Hn. exact Hn. Qed.

Lemma _notes_truthy (note : string) (base : number) :
  _notes !! note = Some base -> falsy base = false.
Proof.
  intros Hn. apply _notes_elem in Hn. revert Hn.
  change (falsy base = false) with ((fun x : string * number => falsy x.2 = false) (note, base)).
  generalize (note, base). apply Forall_forall.
  repeat (apply Forall_cons_2; [vm_compute; reflexivity|]). apply Forall_nil_2.
Qed.

Lemma _notes_not_inherited (note : string) :
  note ∈ Object_prototype -> _notes !! note = None.
Proof.
  intros Hn. unfold Object_prototype in Hn.
  repeat (apply elem_of_cons in Hn as [-> | Hn]; [vm_compute; reflexivity|]).
  inversion Hn.
Qed.

Section Unfold.
Context `{Host}.

Lemma generate_unfold (sound : SoundID) (note : string) (octave duration : number)
    (rt : Runtime) :
  generate sound note octave duration rt =
  let this := synth rt in
  let soundID := _findSound this sound in
  match sound_at this soundID with
  | None =>
      if sound_inherited (builtins rt) sound then OutsideModel
      else Raise InvalidSound rt
  | Some thisSound =>
      let rt1 := on_synth (set_temp empty_vars) rt in
      match js_get _notes note with
      | Undefined =>
          if negb (bool_decide (proto_extra (builtins rt) = ∅)) && numeric_like note
          then OutsideModel
          else Raise InvalidNote rt1
      | _ =>
          match cache_lookup (builtins rt) (_fileCache this) soundID
                  (clamp_octave octave) note (duration_key duration) with
          | Some cached => Return cached rt1
          | None =>
              render this thisSound soundID (clamp_octave octave) note
                (duration_key duration)
                (note_base note
                 * Math_pow (of_Z 2) (of_Z (clamp_octave octave) - of_Z 4))%js
                rt1
          end
      end
  end.
Proof.
  unfold generate, mbind, M_bind, get, modify. cbn beta iota zeta.
  destruct (sound_at _ _) as [thisSound|];
    [|destruct (sound_inherited _ _); reflexivity].
  unfold js_get, note_base. destruct (_notes !! note) as [base|] eqn:Hn.
  - rewrite (_notes_truthy _ _ Hn).
    destruct (cache_lookup _ _ _ _ _ _); reflexivity.
  - destruct (bool_decide (note ∈ Object_prototype)).
    + destruct (cache_lookup _ _ _ _ _ _); reflexivity.
    + destruct (negb _ && _); reflexivity.
Qed.

End Unfold.

Section Octave.
Context `{Host}.

Lemma generate_octave (sound : SoundID) (note : string) (octave duration : number)
    (rt : Runtime) :
  generate sound note octave duration rt
  = generate sound note (of_Z (clamp_octave octave)) duration rt.
Proof. unfold generate. rewrite clamp_octave_idem. reflexivity. Qed.

(** C8 (amended).  For every octave argument whose truncation lies in the
    signed 32-bit range (every integer of that range in particular),
    [generate] uses [o = min(8, max(1, octave))] in place of the octave and
    never fails on account of it: the call behaves exactly as the call with
    octave [o]; on a cache miss the samples are rendered at the frequency
    [_notes[note] * Math.pow(2, o - 4)]; octave 0 renders as octave 1 and
    octave 12 as octave 8. *)
Theorem generate_clamps_octave (sound : SoundID) (note : string)
    (octave duration : number) (rt : Runtime) :
  - 2 ^ 31 <= trunc octave < 2 ^ 31 ->
  let o := Z.min 8 (Z.max 1 (trunc octave)) in
  clamp_octave octave = o /\
  generate sound note octave duration rt = generate sound note (of_Z o) duration rt /\
  (forall (thisSound : SoundProfile) (base : number),
     sound_at (synth rt) (_findSound (synth rt) sound) = Some thisSound ->
     _notes !! note = Some base ->
     cache_lookup (builtins rt) (_fileCache (synth rt))
       (_findSound (synth rt) sound) o note (duration_key duration) = None ->
     generate sound note octave duration rt
     = render (synth rt) thisSound (_findSound (synth rt) sound) o note
         (duration_key duration)
         (base * Math_pow (of_Z 2) (of_Z o - of_Z 4))%js
         (on_synth (set_temp empty_vars) rt)) /\
  generate sound note (of_Z 0) duration rt = generate sound note (of_Z 1) duration rt /\
  generate sound note (of_Z 12) duration rt = generate sound note (of_Z 8) duration rt.
Proof.
  intros Hoct o.
  assert (Ho : clamp_octave octave = o).
  { unfold clamp_octave, ToInt32. rewrite wrap32_id by exact Hoct. reflexivity. }
  split; [exact Ho|]. split; [rewrite <- Ho; apply generate_octave|].
  split; [|split].
  - intros thisSound base Hs Hn Hc. rewrite generate_unfold. cbv zeta.
    rewrite Hs. unfold js_get, note_base. rewrite Hn, Ho, Hc. reflexivity.
  - rewrite (generate_octave _ _ (of_Z 0)). reflexivity.
  - rewrite (generate_octave _ _ (of_Z 12)). reflexivity.
Qed.

End Octave.

(** The theorem at octave 12, on the piano. *)
Lemma generate_clamps_octave_witness :
  clamp_octave (of_Z 12) = 8 /\
  generate (H := demo_host) (SoundName "piano") "C" (of_Z 12) (of_Z 1) (@Synth demo_host)
  = generate (H := demo_host) (SoundName "piano") "C" (of_Z 8) (of_Z 1) (@Synth demo_host).
Proof.
  pose proof (generate_clamps_octave (H := demo_host) (SoundName "piano") "C"
                (of_Z 12) (of_Z 1) (@Synth demo_host)) as T.
  destruct T as (T1 & T2 & _).
  - split; [apply Z.leb_le | apply Z.ltb_lt]; vm_compute; reflexivity.
  - split; [exact T1 | exact T2].
Defined.

(** C8 as stated fails at the integer octave [2^32 + 5]: [octave | 0] is 5,
    so the note is rendered in octave 5 and not in octave 8. *)
Lemma octave_wraps :
  trunc (of_Z (2 ^ 32 + 5)) = 2 ^ 32 + 5 /\
  Z.min 8 (Z.max 1 (2 ^ 32 + 5)) = 8 /\
  clamp_octave (of_Z (2 ^ 32 + 5)) = 5 /\
  generate (H := demo_host) (SoundName "piano") "C" (of_Z (2 ^ 32 + 5)) (of_Z 1) (@Synth demo_host)
  = generate (H := demo_host) (SoundName "piano") "C" (of_Z 5) (of_Z 1) (@Synth demo_host).
Proof.
  split; [vm_compute; reflexivity|]. split; [reflexivity|].
  split; [vm_compute; reflexivity|]. apply generate_octave.
Qed.

(** ** The render cache as a data structure *)

Lemma cache_own_clear (a : AudioSynth) (soundID o : Z) (note : string) (d : number) :
  cache_own (_fileCache (_clearCache a)) soundID o note d = None.
Proof.
  unfold cache_own, _clearCache, _resizeCache.
  cbn [_fileCache set_fileCache _sounds app].
  destruct (replicate _ octaveList !! Z.to_nat soundID) as [octaves|] eqn:E1;
    [|reflexivity].
  apply lookup_replicate in E1 as [-> _]. cbn [mbind option_bind].
  destruct (octaveList !! Z.to_nat (o - 1)) as [noteList|] eqn:E2; [|reflexivity].
  apply lookup_replicate in E2 as [-> _]. cbn [mbind option_bind].
  rewrite lookup_empty. reflexivity.
Qed.

(** What a lookup finds after a store. *)
Lemma cache_own_store (c c' : FileCache) (soundID o : Z) (note : string)
    (d : number) (wav : Buffer) (soundID' o' : Z) (note' : string) (d' : number) :
  cache_store c soundID o note d wav = Ok c' ->
  cache_own c' soundID' o' note' d' =
    if decide (Z.to_nat soundID' = Z.to_nat soundID /\ Z.to_nat (o' - 1) = Z.to_nat (o - 1)
               /\ note' = note /\ d' = d)
    then Some wav
    else cache_own c soundID' o' note' d'.
Proof.
  unfold cache_store, cache_own.
  destruct (c !! Z.to_nat soundID) as [octaves|] eqn:Ec; [|discriminate].
  intros [= <-].
  pose proof (lookup_lt_Some _ _ _ Ec) as Hlt.
  destruct (decide (Z.to_nat soundID' = Z.to_nat soundID)) as [Hs|Hs].
  2:{ rewrite list_lookup_insert_ne by congruence.
      rewrite decide_False by tauto. reflexivity. }
  rewrite Hs, list_lookup_insert_eq by exact Hlt. rewrite Ec. cbn.
  set (i := Z.to_nat (o - 1)). set (i' := Z.to_nat (o' - 1)).
  set (noteList := default ∅ (octaves !! i)).
  set (entry := <[note := <[d := wav]> (default ∅ (noteList !! note))]> noteList).
  assert (Hnew : forall octaves' : list NoteList,
    octaves' !! i = Some entry ->
    (forall j, j <> i -> (octaves' !! j ≫= fun nl : NoteList => nl !! note' ≫= fun ds => ds !! d')
                       = (octaves !! j ≫= fun nl : NoteList => nl !! note' ≫= fun ds => ds !! d')) ->
    (octaves' !! i' ≫= fun nl : NoteList => nl !! note' ≫= fun ds => ds !! d')
    = if decide (Z.to_nat soundID = Z.to_nat soundID /\ i' = i /\ note' = note /\ d' = d)
      then Some wav
      else octaves !! i' ≫= fun nl : NoteList => nl !! note' ≫= fun ds => ds !! d').
  { intros octaves' Hi Hj.
    destruct (decide (i' = i)) as [Hi'|Hi'].
    2:{ rewrite decide_False by tauto. apply Hj, Hi'. }
    rewrite Hi', Hi. cbn. unfold entry.
    destruct (decide (note' = note)) as [->|Hn].
    2:{ rewrite lookup_insert_ne by congruence. rewrite decide_False by tauto.
        unfold noteList. destruct (octaves !! i); cbn; [reflexivity|].
        rewrite lookup_empty. reflexivity. }
    rewrite lookup_insert_eq. cbn.
    destruct (decide (d' = d)) as [->|Hd].
    - rewrite lookup_insert_eq, decide_True by tauto. reflexivity.
    - rewrite lookup_insert_ne by congruence. rewrite decide_False by tauto.
      unfold noteList. destruct (octaves !! i) as [nl|]; cbn.
      + destruct (nl !! note); cbn; [reflexivity|]. apply lookup_empty.
      + rewrite lookup_empty. cbn. apply lookup_empty. }
  destruct (decide (i < length octaves)%nat) as [Hi|Hi].
  - apply Hnew.
    + apply list_lookup_insert_eq, Hi.
    + intros j Hj. rewrite list_lookup_insert_ne by congruence. reflexivity.
  - apply Hnew.
    + rewrite lookup_app_r by lia. rewrite lookup_app_r by (rewrite length_replicate; lia).
      rewrite length_replicate. replace (i - length octaves - (i - length octaves))%nat with 0%nat by lia.
      reflexivity.
    + intros j Hj. destruct (decide (j < length octaves)%nat) as [Hjl|Hjl].
      * rewrite lookup_app_l by exact Hjl. reflexivity.
      * rewrite (lookup_ge_None_2 octaves j) by lia. cbn.
        rewrite lookup_app_r by lia.
        destruct (decide (j < i)%nat) as [Hji|Hji].
        -- rewrite lookup_app_l by (rewrite length_replicate; lia).
           rewrite lookup_replicate_2 by lia. cbn. rewrite lookup_empty. reflexivity.
        -- rewrite lookup_app_r by (rewrite length_replicate; lia).
           rewrite length_replicate.
           rewrite lookup_ge_None_2 by (cbn; lia). reflexivity.
Qed.

Lemma cache_store_length (c c' : FileCache) (soundID o : Z) (note : string)
    (d : number) (wav : Buffer) :
  cache_store c soundID o note d wav = Ok c' -> length c' = length c.
Proof.
  unfold cache_store. destruct (c !! Z.to_nat soundID); [|discriminate].
  intros [= <-]. apply length_insert.
Qed.

Lemma cache_store_ok (c : FileCache) (soundID o : Z) (note : string)
    (d : number) (wav : Buffer) :
  (Z.to_nat soundID < length c)%nat ->
  exists c', cache_store c soundID o note d wav = Ok c'.
Proof.
  intros Hlt. unfold cache_store.
  destruct (lookup_lt_is_Some_2 c _ Hlt) as [octaves ->]. eauto.
Qed.

(** ** The cache read through the built-ins *)

Lemma cache_lookup_note_object (b : Builtins) (c : FileCache) (soundID o : Z)
    (note : string) (d : number) :
  cache_lookup b c soundID o note d =
  match note_object c soundID o with
  | Some noteList =>
      match noteList !! note with
      | Some durations =>
          match durations !! d with
          | Some wav => Some wav
          | None => proto_extra b !! d
          end
      | None =>
          if bool_decide (note ∈ Object_prototype) then member_get b note d
          else None
      end
  | None => None
  end.
Proof.
  unfold cache_lookup, note_object.
  destruct (c !! _) as [octaves|]; cbn; [|reflexivity].
  destruct (octaves !! _); reflexivity.
Qed.

Lemma cache_own_note_object (c : FileCache) (soundID o : Z) (note : string)
    (d : number) :
  cache_own c soundID o note d =
  match note_object c soundID o with
  | Some noteList =>
      match noteList !! note with
      | Some durations => durations !! d
      | None => None
      end
  | None => None
  end.
Proof.
  unfold cache_own, note_object.
  destruct (c !! _) as [octaves|]; cbn; [|reflexivity].
  destruct (octaves !! _) as [noteList|]; cbn; [|reflexivity].
  destruct (noteList !! note); reflexivity.
Qed.

Lemma note_entry_note_object (c : FileCache) (soundID o : Z) (note : string) :
  note_entry c soundID o note
  = match note_object c soundID o with
    | Some noteList => noteList !! note
    | None => None
    end.
Proof.
  unfold note_entry, note_object.
  destruct (c !! _) as [octaves|]; cbn; [|reflexivity].
  destruct (octaves !! _); reflexivity.
Qed.

(** What the cache owns is what the read finds. *)
Lemma cache_lookup_own (b : Builtins) (c : FileCache) (soundID o : Z)
    (note : string) (d : number) (wav : Buffer) :
  cache_own c soundID o note d = Some wav ->
  cache_lookup b c soundID o note d = Some wav.
Proof.
  rewrite cache_lookup_note_object, cache_own_note_object.
  destruct (note_object _ _ _) as [noteList|]; [|discriminate].
  destruct (noteList !! note) as [durations|]; [|discriminate].
  intros ->. reflexivity.
Qed.

(** With nothing on [Object.prototype], a key whose note name it does not
    lend is read from the cache alone. *)
Lemma cache_lookup_unpolluted (b : Builtins) (c : FileCache) (soundID o : Z)
    (note : string) (d : number) :
  proto_extra b = ∅ -> note ∉ Object_prototype ->
  cache_lookup b c soundID o note d = cache_own c soundID o note d.
Proof.
  intros Hp Hn. rewrite cache_lookup_note_object, cache_own_note_object.
  destruct (note_object _ _ _) as [noteList|]; [|reflexivity].
  destruct (noteList !! note) as [durations|].
  - destruct (durations !! d); [reflexivity|]. rewrite Hp. apply lookup_empty.
  - rewrite bool_decide_eq_false_2 by exact Hn. reflexivity.
Qed.



Lemma full_rows_clear (a : AudioSynth) : full_rows (_fileCache (_clearCache a)).
Proof.
  unfold full_rows, _clearCache, _resizeCache. cbn [_fileCache set_fileCache app].
  apply Forall_replicate. reflexivity.
Qed.

Lemma full_rows_note_object (c : FileCache) (soundID o : Z) (octaves : list NoteList) :
  full_rows c -> 1 <= o <= 8 -> c !! Z.to_nat soundID = Some octaves ->
  (Z.to_nat (o - 1) < length octaves)%nat /\
  exists noteList, octaves !! Z.to_nat (o - 1) = Some noteList /\
                   note_object c soundID o = Some noteList.
Proof.
  intros Hf Ho Hc. unfold full_rows in Hf. rewrite Forall_forall in Hf.
  pose proof (Hf _ (list_elem_of_lookup_2 _ _ _ Hc)) as Hl.
  assert (Hlt : (Z.to_nat (o - 1) < length octaves)%nat) by lia.
  split; [exact Hlt|].
  destruct (lookup_lt_is_Some_2 _ _ Hlt) as [noteList Hn].
  exists noteList. split; [exact Hn|]. unfold note_object. rewrite Hc. exact Hn.
Qed.

(** The store into a note object that owns (or is to own) the note. *)
Lemma cache_store_full (c c' : FileCache) (soundID o : Z) (note : string)
    (d : number) (wav : Buffer) :
  full_rows c -> 1 <= o <= 8 ->
  cache_store c soundID o note d wav = Ok c' ->
  full_rows c' /\
  exists noteList,
    note_object c soundID o = Some noteList /\
    forall soundID' o',
      note_object c' soundID' o'
      = if decide (Z.to_nat soundID' = Z.to_nat soundID /\
                   Z.to_nat (o' - 1) = Z.to_nat (o - 1))
        then Some (<[note := <[d := wav]> (default ∅ (noteList !! note))]> noteList)
        else note_object c soundID' o'.
Proof.
  intros Hf Ho. unfold cache_store.
  destruct (c !! Z.to_nat soundID) as [octaves|] eqn:Hc; [|discriminate].
  destruct (full_rows_note_object c soundID o octaves Hf Ho Hc)
    as (Hlt & noteList & Hn & Hno).
  rewrite Hn. cbn [default]. rewrite decide_True by exact Hlt. intros [= <-].
  pose proof (lookup_lt_Some _ _ _ Hc) as Hs.
  split.
  - unfold full_rows in *. apply Forall_insert; [exact Hf|].
    rewrite length_insert. rewrite Forall_forall in Hf.
    apply Hf. eapply list_elem_of_lookup_2, Hc.
  - exists noteList. split; [exact Hno|]. intros soundID' o'. unfold note_object.
    destruct (decide (Z.to_nat soundID' = Z.to_nat soundID)) as [Es|Es].
    + rewrite Es, list_lookup_insert_eq by exact Hs. rewrite Hc. cbn.
      destruct (decide (Z.to_nat (o' - 1) = Z.to_nat (o - 1))) as [Eo|Eo].
      * rewrite decide_True by tauto. rewrite Eo.
        apply list_lookup_insert_eq. exact Hlt.
      * rewrite decide_False by tauto. apply list_lookup_insert_ne. congruence.
    + rewrite decide_False by tauto.
      rewrite list_lookup_insert_ne by congruence. reflexivity.
Qed.

(** The same statements when the note object inherits the note: the cache
    stays as it is. *)
Lemma cache_pass_full (c c' : FileCache) (soundID o : Z) :
  full_rows c -> 1 <= o <= 8 -> cache_pass c soundID o = Ok c' -> c' = c.
Proof.
  intros Hf Ho. unfold cache_pass.
  destruct (c !! Z.to_nat soundID) as [octaves|] eqn:Hc; [|discriminate].
  destruct (full_rows_note_object c soundID o octaves Hf Ho Hc) as (Hlt & _).
  rewrite decide_True by exact Hlt. intros [= <-].
  apply list_insert_id. exact Hc.
Qed.

Lemma member_get_set (b : Builtins) (note : string) (d : number) (wav : Buffer)
    (note' : string) (d' : number) :
  member_get b note d = None ->
  member_get (member_set note d wav b) note' d'
  = if decide (note' = note /\ d' = d) then Some wav
    else match member_get b note' d' with
         | Some w => Some w
         | None =>
             if decide (note = "__proto__" /\ d' = d) then Some wav else None
         end.
Proof.
  unfold member_get, member_set. intros Hmiss.
  destruct (String.eqb_spec note "__proto__") as [->|Hn].
  - cbn [proto_extra member_extra].
    destruct (String.eqb_spec note' "__proto__") as [->|Hn'].
    + destruct (decide (d' = d)) as [->|Hd].
      * rewrite decide_True by tauto. apply lookup_insert_eq.
      * rewrite decide_False by tauto. rewrite lookup_insert_ne by congruence.
        destruct (proto_extra b !! d'); [reflexivity|].
        rewrite decide_False by tauto. reflexivity.
    + rewrite decide_False by (intros [? _]; congruence).
      destruct (member_extra b !! note' ≫= _) as [w|]; [reflexivity|].
      destruct (decide (d' = d)) as [->|Hd].
      * rewrite lookup_insert_eq, Hmiss. rewrite decide_True by tauto. reflexivity.
      * rewrite lookup_insert_ne by congruence.
        destruct (proto_extra b !! d'); [reflexivity|].
        rewrite decide_False by tauto. reflexivity.
  - cbn [proto_extra member_extra].
    destruct (String.eqb_spec note' "__proto__") as [->|Hn'].
    + rewrite decide_False by (intros [? _]; congruence).
      destruct (proto_extra b !! d'); [reflexivity|].
      rewrite decide_False by tauto. reflexivity.
    + destruct (decide (note' = note)) as [->|Hnn].
      * rewrite lookup_insert_eq. cbn.
        destruct (decide (d' = d)) as [->|Hd].
        -- rewrite decide_True by tauto. rewrite lookup_insert_eq. reflexivity.
        -- rewrite decide_False by tauto. rewrite lookup_insert_ne by congruence.
           destruct (member_extra b !! note) as [ds|]; cbn.
           ++ destruct (ds !! d'); [reflexivity|].
              destruct (proto_extra b !! d'); [reflexivity|].
              rewrite decide_False by tauto. reflexivity.
           ++ rewrite lookup_empty.
              destruct (proto_extra b !! d'); [reflexivity|].
              rewrite decide_False by tauto. reflexivity.
      * rewrite decide_False by tauto. rewrite lookup_insert_ne by congruence.
        destruct (member_extra b !! note' ≫= _) as [w|]; [reflexivity|].
        destruct (proto_extra b !! d'); [reflexivity|].
        rewrite decide_False by tauto. reflexivity.
Qed.

(** ** Frames: what a call leaves alone *)


Lemma same_engine_refl (rt : Runtime) : same_engine rt rt.
Proof. split; reflexivity. Qed.

Lemma same_engine_trans (rt1 rt2 rt3 : Runtime) :
  same_engine rt1 rt2 -> same_engine rt2 rt3 -> same_engine rt1 rt3.
Proof. unfold same_engine. intros [? ?] [? ?]. split; congruence. Qed.

Lemma same_engine_set_temp (v : Vars) (rt : Runtime) :
  same_engine rt (on_synth (set_temp v) rt).
Proof. split; reflexivity. Qed.

Lemma same_engine_builtins (rt rt' : Runtime) :
  same_engine rt rt' -> builtins rt' = builtins rt.
Proof. intros [_ E]. exact E. Qed.

Lemma same_engine_fields (rt rt' : Runtime) :
  same_engine rt rt' ->
  _debug (synth rt') = _debug (synth rt) /\
  _sampleRate (synth rt') = _sampleRate (synth rt) /\
  _volume (synth rt') = _volume (synth rt) /\
  _sounds (synth rt') = _sounds (synth rt) /\
  _mod (synth rt') = _mod (synth rt) /\
  _fileCache (synth rt') = _fileCache (synth rt).
Proof.
  unfold same_engine. intros [E _]. revert E.
  destruct (synth rt), (synth rt'). cbn.
  intros [= -> -> -> -> -> ->]. auto 6.
Qed.

(** The invariant of a loop: [P k] holds after [k] iterations that returned,
    [Q] once an iteration has thrown. *)
Lemma for_loop_ind {S A} (P : nat -> S -> Prop) (Q : S -> Prop)
    (body : Z -> A -> M S A) :
  (forall k i acc s, P k s ->
     match body i acc s with
     | Return _ s' => P (Datatypes.S k) s'
     | Raise _ s' => Q s'
     | OutsideModel => True
     end) ->
  forall n k i acc s, P k s ->
    match for_loop n i body acc s with
    | Return _ s' => P (k + n)%nat s'
    | Raise _ s' => Q s'
    | OutsideModel => True
    end.
Proof.
  intros Hbody n. induction n as [|n IH]; intros k i acc s HP.
  - cbn. rewrite Nat.add_0_r. exact HP.
  - cbn [for_loop]. unfold mbind, M_bind.
    specialize (Hbody k i acc s HP).
    destruct (body i acc s) as [acc' s'| e s'|]; [|exact Hbody|exact I].
    specialize (IH (Datatypes.S k) (i + 1) acc' s' Hbody).
    replace (k + Datatypes.S n)%nat with (Datatypes.S k + n)%nat by lia.
    exact IH.
Qed.

Section Render.
Context `{Host}.

Lemma sample_step_final (waveFunc : WaveFunction) (sr f v : number)
    (val : Z -> number -> number) (i : Z) (data : list Z) (rt : Runtime) :
  match sample_step waveFunc sr f v val i data rt with
  | Return data' rt' =>
      same_engine rt rt' /\ wave_calls rt' = Datatypes.S (wave_calls rt) /\
      length data' = length data
  | Raise _ rt' => same_engine rt rt'
  | OutsideModel => True
  end.
Proof.
  unfold sample_step, mbind, M_bind, call_wave.
  destruct (waveFunc _ _ _ _ _ _) as [x ws|e ws|]; cbn;
    [|split; reflexivity|exact I].
  split; [split; reflexivity|]. split; [reflexivity|].
  unfold store_sample. apply length_insert.
Qed.

Lemma sample_loop_final (waveFunc : WaveFunction) (sr f v : number)
    (val : Z -> number -> number) (n : nat) (i : Z) (data : list Z) (rt : Runtime) :
  match for_loop n i (sample_step waveFunc sr f v val) data rt with
  | Return data' rt' =>
      same_engine rt rt' /\ wave_calls rt' = (wave_calls rt + n)%nat
  | Raise _ rt' => same_engine rt rt'
  | OutsideModel => True
  end.
Proof.
  pose proof (for_loop_ind
    (fun k s => same_engine rt s /\ wave_calls s = (wave_calls rt + k)%nat)
    (fun s => same_engine rt s)
    (sample_step waveFunc sr f v val)) as L.
  assert (Hbody : forall k i acc s,
    same_engine rt s /\ wave_calls s = (wave_calls rt + k)%nat ->
    match sample_step waveFunc sr f v val i acc s with
    | Return _ s' => same_engine rt s' /\ wave_calls s' = (wave_calls rt + Datatypes.S k)%nat
    | Raise _ s' => same_engine rt s'
    | OutsideModel => True
    end).
  { intros k j acc s [Hs Hk]. pose proof (sample_step_final waveFunc sr f v val j acc s) as F.
    destruct (sample_step _ _ _ _ _ _ _ _) as [? s'|? s'|]; [|eauto using same_engine_trans|exact I].
    destruct F as (F1 & F2 & _). split; [eauto using same_engine_trans|lia]. }
  specialize (L Hbody n 0%nat i data rt (conj (same_engine_refl rt) (eq_sym (Nat.add_0_r _)))).
  exact L.
Qed.

Lemma sample_loop_length (waveFunc : WaveFunction) (sr f v : number)
    (val : Z -> number -> number) (n : nat) (i : Z) (data : list Z) (rt : Runtime)
    (data' : list Z) (rt' : Runtime) :
  for_loop n i (sample_step waveFunc sr f v val) data rt = Return data' rt' ->
  length data' = length data.
Proof.
  revert i data rt. induction n as [|n IH]; intros i data rt.
  - cbn. intros [= <- _]. reflexivity.
  - cbn [for_loop]. unfold mbind at 1, M_bind at 1.
    pose proof (sample_step_final waveFunc sr f v val i data rt) as F.
    destruct (sample_step _ _ _ _ _ _ _ _) as [d1 s1|? ?|]; [|discriminate..].
    intros E. apply IH in E. destruct F as (_ & _ & F). congruence.
Qed.


(** What the store of a rendered buffer does to the state. *)
Lemma store_buffer_spec (soundID o : Z) (note : string) (d : number)
    (wav : Buffer) (rt : Runtime) :
  let c := _fileCache (synth rt) in
  store_buffer soundID o note d wav rt =
  if note_inherited c soundID o note then
    match cache_pass c soundID o with
    | Ok cache =>
        Return tt (on_builtins (member_set note d wav)
                     (on_synth (set_fileCache cache) rt))
    | Throw e => Raise e rt
    end
  else
    match cache_store c soundID o note d wav with
    | Ok cache => Return tt (on_synth (set_fileCache cache) rt)
    | Throw e => Raise e rt
    end.
Proof.
  unfold store_buffer, mbind, M_bind, get, modify. cbv zeta.
  destruct (note_inherited _ _ _ _).
  - destruct (cache_pass _ _ _); reflexivity.
  - destruct (cache_store _ _ _ _ _ _); reflexivity.
Qed.

Lemma render_final (this : AudioSynth) (thisSound : SoundProfile) (soundID o : Z)
    (note : string) (d frequency : number) (rt : Runtime) :
  match render this thisSound soundID o note d frequency rt with
  | Return wav rt' =>
      exists rt1,
        same_engine rt rt1 /\
        wave_calls rt1 = (wave_calls rt + render_calls this thisSound d frequency)%nat /\
        store_buffer soundID o note d wav rt1 = Return tt rt'
  | Raise _ rt' => same_engine rt rt'
  | OutsideModel => True
  end.
Proof.
  unfold render, render_calls. cbv zeta.
  set (sampleRate := of_Z (_sampleRate this)).
  set (volume := of_Z (_volume this)).
  set (att := attack thisSound sampleRate frequency volume).
  set (attackLen := ToInt32 (sampleRate * att)%js).
  set (decayLen := ToInt32 (sampleRate * d)%js).
  unfold mbind at 1, M_bind at 1.
  destruct (new_Int16Array _) as [data0|e]; cbn [lift_result];
    [|apply same_engine_refl].
  unfold mret at 1, M_ret at 1.
  unfold mbind at 1, M_bind at 1.
  pose proof (sample_loop_final (wave thisSound) sampleRate frequency volume
                (attack_val volume sampleRate att) (Z.to_nat attackLen) 0 data0 rt) as L1.
  destruct (for_loop _ _ _ _ _) as [data1 rt1|e rt1|]; [|exact L1|exact I].
  destruct L1 as [S1 C1].
  unfold mbind at 1, M_bind at 1.
  match goal with |- context [for_loop ?n ?i ?b data1 rt1] =>
    pose proof (sample_loop_final (wave thisSound) sampleRate frequency volume
                  (decay_val volume sampleRate att
                     (dampen thisSound sampleRate frequency volume) d attackLen)
                  n i data1 rt1) as L2;
    destruct (for_loop n i b data1 rt1) as [data2 rt2|e rt2|]
  end; [|eauto using same_engine_trans|exact I].
  destruct L2 as [S2 C2].
  assert (S12 : same_engine rt rt2) by eauto using same_engine_trans.
  unfold mbind at 1, M_bind at 1.
  destruct (_createWav this _) as [wav|e]; cbn [lift_result]; [|exact S12].
  unfold mret at 1, M_ret at 1. unfold mbind, M_bind.
  pose proof (store_buffer_spec soundID o note d wav rt2) as St. cbv zeta in St.
  destruct (store_buffer soundID o note d wav rt2) as [[] rt3|e rt3|] eqn:Es.
  - unfold mret, M_ret. exists rt2. split; [exact S12|]. split; [lia|exact Es].
  - destruct (note_inherited _ _ _ _).
    + destruct (cache_pass _ _ _); [discriminate St|].
      injection St as _ <-. exact S12.
    + destruct (cache_store _ _ _ _ _ _); [discriminate St|].
      injection St as _ <-. exact S12.
  - destruct (note_inherited _ _ _ _).
    + destruct (cache_pass _ _ _); discriminate St.
    + destruct (cache_store _ _ _ _ _ _); discriminate St.
Qed.

Lemma sample_loop_raise (waveFunc : WaveFunction) (sr f v : number)
    (val : Z -> number -> number) (n : nat) (i : Z) (data : list Z) (rt : Runtime) :
  match for_loop n i (sample_step waveFunc sr f v val) data rt with
  | Return _ rt' => (wave_calls rt <= wave_calls rt')%nat
  | Raise _ rt' => (wave_calls rt < wave_calls rt')%nat
  | OutsideModel => True
  end.
Proof.
  pose proof (for_loop_ind
    (fun k s => wave_calls s = (wave_calls rt + k)%nat)
    (fun s => (wave_calls rt < wave_calls s)%nat)
    (sample_step waveFunc sr f v val)) as L.
  assert (Hbody : forall k i acc s,
    wave_calls s = (wave_calls rt + k)%nat ->
    match sample_step waveFunc sr f v val i acc s with
    | Return _ s' => wave_calls s' = (wave_calls rt + Datatypes.S k)%nat
    | Raise _ s' => (wave_calls rt < wave_calls s')%nat
    | OutsideModel => True
    end).
  { intros k j acc s Hk. unfold sample_step, mbind, M_bind, call_wave.
    destruct (waveFunc _ _ _ _ _ _) as [x ws|e ws|]; cbn; [lia|lia|exact I]. }
  specialize (L Hbody n 0%nat i data rt (eq_sym (Nat.add_0_r _))).
  destruct (for_loop _ _ _ _ _) as [? s'|? s'|]; [lia|exact L|exact I].
Qed.

(** A render that throws before any call of the wave function has returned
    or thrown does so with a RangeError (the sample array or the WAV header)
    or a TypeError (the store). *)
Lemma render_raise (this : AudioSynth) (thisSound : SoundProfile) (soundID o : Z)
    (note : string) (d frequency : number) (rt : Runtime) :
  match render this thisSound soundID o note d frequency rt with
  | Raise e rt' =>
      e = RangeError \/ e = TypeError \/ (wave_calls rt < wave_calls rt')%nat
  | _ => True
  end.
Proof.
  unfold render. cbv zeta.
  unfold mbind at 1, M_bind at 1.
  destruct (new_Int16Array _) as [data0|e] eqn:Ea; cbn [lift_result].
  2:{ unfold new_Int16Array in Ea. destruct (Z.ltb _ 0); [|discriminate Ea].
      injection Ea as <-. left. reflexivity. }
  unfold mret at 1, M_ret at 1.
  unfold mbind at 1, M_bind at 1.
  match goal with
  | |- context [for_loop ?n ?i (sample_step ?w ?sr ?f ?v ?val) data0 rt] =>
    pose proof (sample_loop_raise w sr f v val n i data0 rt) as L1;
    destruct (for_loop n i (sample_step w sr f v val) data0 rt)
      as [data1 rt1|e rt1|]
  end; [|auto|exact I].
  unfold mbind at 1, M_bind at 1.
  match goal with
  | |- context [for_loop ?n ?i (sample_step ?w ?sr ?f ?v ?val) data1 rt1] =>
    pose proof (sample_loop_raise w sr f v val n i data1 rt1) as L2;
    destruct (for_loop n i (sample_step w sr f v val) data1 rt1)
      as [data2 rt2|e rt2|]
  end; [|right; right; lia|exact I].
  unfold mbind at 1, M_bind at 1.
  destruct (_createWav_cases this (Int16Array_bytes data2)) as [(wav & -> & _)| ->];
    cbn [lift_result]; [|left; reflexivity].
  unfold mret at 1, M_ret at 1. unfold mbind, M_bind.
  rewrite store_buffer_spec. cbv zeta.
  destruct (note_inherited _ _ _ _).
  - unfold cache_pass. destruct (_ !! Z.to_nat soundID); [exact I|].
    right. left. reflexivity.
  - unfold cache_store. destruct (_ !! Z.to_nat soundID); [exact I|].
    right. left. reflexivity.
Qed.

End Render.

Lemma _findSound_sounds (a a' : AudioSynth) (sound : SoundID) :
  _sounds a' = _sounds a -> _findSound a' sound = _findSound a sound.
Proof. unfold _findSound, sound_at. intros ->. reflexivity. Qed.

Lemma sound_at_sounds (a a' : AudioSynth) (i : Z) :
  _sounds a' = _sounds a -> sound_at a' i = sound_at a i.
Proof. unfold sound_at. intros ->. reflexivity. Qed.


Lemma set_fileCache_id (a : AudioSynth) : set_fileCache (_fileCache a) a = a.
Proof. destruct a; reflexivity. Qed.

Lemma member_get_keep (b : Builtins) (note : string) (d : number) (wav : Buffer)
    (note' : string) (d' : number) (w : Buffer) :
  member_get b note d = None ->
  member_get b note' d' = Some w ->
  member_get (member_set note d wav b) note' d' = Some w.
Proof.
  intros Hmiss Hw. rewrite member_get_set by exact Hmiss.
  destruct (decide _) as [[-> ->]|_]; [congruence|]. rewrite Hw. reflexivity.
Qed.

Lemma member_get_new (b : Builtins) (note : string) (d : number) (wav : Buffer)
    (note' : string) (d' : number) (w : Buffer) :
  member_get b note d = None ->
  member_get (member_set note d wav b) note' d' = Some w ->
  member_get b note' d' = Some w \/ w = wav.
Proof.
  intros Hmiss. rewrite member_get_set by exact Hmiss.
  destruct (decide _); [intros [= <-]; auto|].
  destruct (member_get b note' d'); [auto|].
  destruct (decide _); [intros [= <-]; auto|discriminate].
Qed.

(** What storing a freshly rendered buffer does, in a state whose cache rows
    are full and for a key that the cache read has just missed: the key now
    reads as the buffer, no key that read as a buffer reads otherwise, and
    nothing but the cache or one built-in has changed. *)
Lemma store_buffer_effect (soundID o : Z) (note : string) (d : number)
    (wav : Buffer) (rt rt' : Runtime) :
  full_rows (_fileCache (synth rt)) -> 1 <= o <= 8 ->
  cached rt soundID o note d = None ->
  store_buffer soundID o note d wav rt = Return tt rt' ->
  full_rows (_fileCache (synth rt')) /\
  set_fileCache (_fileCache (synth rt)) (synth rt') = synth rt /\
  length (_fileCache (synth rt')) = length (_fileCache (synth rt)) /\
  random_draws rt' = random_draws rt /\ wave_calls rt' = wave_calls rt /\
  cached rt' soundID o note d = Some wav /\
  (forall soundID' o' note' d' w,
     cached rt soundID' o' note' d' = Some w ->
     cached rt' soundID' o' note' d' = Some w) /\
  (forall soundID' o' note' d' w,
     cache_own (_fileCache (synth rt')) soundID' o' note' d' = Some w ->
     cache_own (_fileCache (synth rt)) soundID' o' note' d' = Some w \/
     (w = wav /\ Z.to_nat soundID' = Z.to_nat soundID /\
      Z.to_nat (o' - 1) = Z.to_nat (o - 1) /\ note' = note /\ d' = d)) /\
  (forall note' d' w,
     member_get (builtins rt') note' d' = Some w ->
     member_get (builtins rt) note' d' = Some w \/ w = wav) /\
  (note_inherited (_fileCache (synth rt)) soundID o note = false ->
   builtins rt' = builtins rt /\
   cache_own (_fileCache (synth rt')) soundID o note d = Some wav) /\
  (note_inherited (_fileCache (synth rt)) soundID o note = true ->
   _fileCache (synth rt') = _fileCache (synth rt) /\
   member_get (builtins rt') note d = Some wav) /\
  (note <> "__proto__" -> proto_extra (builtins rt') = proto_extra (builtins rt)).
Proof.
  intros Hf Ho Hmiss St. rewrite store_buffer_spec in St. cbv zeta in St.
  unfold cached in *. rewrite cache_lookup_note_object in Hmiss.
  destruct (note_inherited _ _ _ _) eqn:Hi.
  - destruct (cache_pass _ _ _) as [c'|] eqn:Ep; [|discriminate St].
    injection St as <-.
    assert (Hrow : exists octaves,
              _fileCache (synth rt) !! Z.to_nat soundID = Some octaves).
    { unfold cache_pass in Ep. destruct (_ !! Z.to_nat soundID); [eauto|discriminate]. }
    destruct Hrow as [octaves Hrow].
    destruct (full_rows_note_object _ _ _ _ Hf Ho Hrow) as (_ & noteList & _ & Hno).
    apply (cache_pass_full _ _ _ _ Hf Ho) in Ep as ->.
    cbn [synth on_builtins on_synth builtins random_draws wave_calls].
    rewrite set_fileCache_id.
    unfold note_inherited in Hi. rewrite note_entry_note_object, Hno in Hi.
    rewrite Hno in Hmiss.
    destruct (noteList !! note) as [ds|] eqn:Hnl; [discriminate Hi|].
    rewrite Hi in Hmiss.
    split; [exact Hf|]. split; [apply set_fileCache_id|]. split; [reflexivity|].
    split; [reflexivity|]. split; [reflexivity|].
    split.
    { rewrite cache_lookup_note_object, Hno, Hnl, Hi.
      rewrite member_get_set by exact Hmiss. rewrite decide_True by tauto.
      reflexivity. }
    split.
    { intros soundID' o' note' d' w. rewrite !cache_lookup_note_object.
      destruct (note_object _ soundID' o') as [nl'|]; [|discriminate].
      destruct (nl' !! note') as [ds'|].
      - destruct (ds' !! d'); [trivial|].
        change (proto_extra (builtins rt) !! d')
          with (member_get (builtins rt) "__proto__" d').
        change (proto_extra (member_set note d wav (builtins rt)) !! d')
          with (member_get (member_set note d wav (builtins rt)) "__proto__" d').
        apply member_get_keep, Hmiss.
      - destruct (bool_decide (note' ∈ Object_prototype)); [|discriminate].
        apply member_get_keep, Hmiss. }
    split; [auto|].
    split; [intros note' d' w; apply member_get_new, Hmiss|].
    split; [discriminate|].
    split.
    { intros _. split; [reflexivity|].
      rewrite member_get_set by exact Hmiss. rewrite decide_True by tauto.
      reflexivity. }
    intros Hn. unfold member_set. destruct (String.eqb_spec note "__proto__");
      [contradiction|reflexivity].
  - destruct (cache_store _ _ _ _ _ _) as [c'|] eqn:Es; [|discriminate St].
    injection St as <-.
    pose proof (cache_store_length _ _ _ _ _ _ _ Es) as Hlen.
    destruct (cache_store_full _ _ _ _ _ _ _ Hf Ho Es)
      as (Hf' & noteList & Hno & Hobj).
    cbn [synth on_synth builtins random_draws wave_calls].
    assert (Hc' : _fileCache (set_fileCache c' (synth rt)) = c') by reflexivity.
    rewrite Hc'.
    unfold note_inherited in Hi. rewrite note_entry_note_object, Hno in Hi.
    rewrite Hno in Hmiss.
    split; [exact Hf'|].
    split; [destruct (synth rt); reflexivity|]. split; [exact Hlen|].
    split; [reflexivity|]. split; [reflexivity|].
    split.
    { rewrite cache_lookup_note_object, Hobj, decide_True by tauto.
      rewrite !lookup_insert_eq. reflexivity. }
    split.
    { intros soundID' o' note' d' w. rewrite !cache_lookup_note_object, Hobj.
      destruct (decide _) as [[Es' Eo']|_]; [|trivial].
      assert (Hno' : note_object (_fileCache (synth rt)) soundID' o' = Some noteList).
      { unfold note_object in *. rewrite Es', Eo'. exact Hno. }
      rewrite Hno'.
      destruct (decide (note' = note)) as [->|Hn].
      - rewrite lookup_insert_eq.
        destruct (noteList !! note) as [ds|]; cbn [default].
        + destruct (decide (d' = d)) as [->|Hd].
          * rewrite Hmiss. destruct (ds !! d); [discriminate Hmiss|discriminate].
          * rewrite lookup_insert_ne by congruence. trivial.
        + rewrite Hi. discriminate.
      - rewrite lookup_insert_ne by congruence. trivial. }
    split.
    { intros soundID' o' note' d' w. rewrite !cache_own_note_object, Hobj.
      destruct (decide _) as [[Es' Eo']|_]; [|auto].
      assert (Hno' : note_object (_fileCache (synth rt)) soundID' o' = Some noteList).
      { unfold note_object in *. rewrite Es', Eo'. exact Hno. }
      rewrite Hno'.
      destruct (decide (note' = note)) as [->|Hn].
      - rewrite lookup_insert_eq.
        destruct (decide (d' = d)) as [->|Hd].
        + rewrite lookup_insert_eq. intros [= <-]. right. auto.
        + rewrite lookup_insert_ne by congruence.
          destruct (noteList !! note) as [ds|]; cbn [default]; [auto|].
          rewrite lookup_empty. discriminate.
      - rewrite lookup_insert_ne by congruence. auto. }
    split; [auto|].
    split.
    { intros _. split; [reflexivity|].
      rewrite cache_own_note_object, Hobj, decide_True by tauto.
      rewrite !lookup_insert_eq. reflexivity. }
    split; [discriminate|reflexivity].
Qed.

Section Generate.
Context `{Host}.

(** How a call of [generate] ends: with a buffer that the cache read found,
    or with one that it rendered and stored after a miss; or it throws, and
    then nothing but the scratch object has changed. *)
Lemma generate_outcome (sound : SoundID) (note : string) (octave duration : number)
    (rt : Runtime) :
  let soundID := _findSound (synth rt) sound in
  let o := clamp_octave octave in
  let d := duration_key duration in
  let rt0 := on_synth (set_temp empty_vars) rt in
  match generate sound note octave duration rt with
  | Return b rt' =>
      exists p,
        sound_at (synth rt) soundID = Some p /\
        js_get _notes note <> Undefined /\
        ((cached rt soundID o note d = Some b /\ rt' = rt0) \/
         (cached rt soundID o note d = None /\
          render (synth rt) p soundID o note d
            (note_base note * Math_pow (of_Z 2) (of_Z o - of_Z 4))%js rt0
          = Return b rt' /\
          exists rt1,
            same_engine rt rt1 /\
            wave_calls rt1
            = (wave_calls rt
               + render_calls (synth rt) p d
                   (note_base note * Math_pow (of_Z 2) (of_Z o - of_Z 4))%js)%nat /\
            store_buffer soundID o note d b rt1 = Return tt rt'))
  | Raise e rt' => same_engine rt rt'
  | OutsideModel => True
  end.
Proof.
  cbv zeta. rewrite generate_unfold. cbv zeta.
  destruct (sound_at _ _) as [p|] eqn:Hp.
  2:{ destruct (sound_inherited _ _); [exact I|apply same_engine_refl]. }
  assert (Hcase : forall r : outcome Runtime Buffer,
    r = match cache_lookup (builtins rt) (_fileCache (synth rt))
                (_findSound (synth rt) sound) (clamp_octave octave) note
                (duration_key duration) with
        | Some cached => Return cached (on_synth (set_temp empty_vars) rt)
        | None =>
            render (synth rt) p (_findSound (synth rt) sound) (clamp_octave octave)
              note (duration_key duration)
              (note_base note
               * Math_pow (of_Z 2) (of_Z (clamp_octave octave) - of_Z 4))%js
              (on_synth (set_temp empty_vars) rt)
        end ->
    js_get _notes note <> Undefined ->
    match r with
    | Return b rt' =>
        exists p0,
          Some p = Some p0 /\ js_get _notes note <> Undefined /\
          ((cached rt (_findSound (synth rt) sound) (clamp_octave octave) note
              (duration_key duration) = Some b /\
            rt' = on_synth (set_temp empty_vars) rt) \/
           (cached rt (_findSound (synth rt) sound) (clamp_octave octave) note
              (duration_key duration) = None /\
            render (synth rt) p0 (_findSound (synth rt) sound) (clamp_octave octave)
              note (duration_key duration)
              (note_base note
               * Math_pow (of_Z 2) (of_Z (clamp_octave octave) - of_Z 4))%js
              (on_synth (set_temp empty_vars) rt) = Return b rt' /\
            exists rt1,
              same_engine rt rt1 /\
              wave_calls rt1
              = (wave_calls rt
                 + render_calls (synth rt) p0 (duration_key duration)
                     (note_base note
                      * Math_pow (of_Z 2) (of_Z (clamp_octave octave) - of_Z 4))%js)%nat /\
              store_buffer (_findSound (synth rt) sound) (clamp_octave octave) note
                (duration_key duration) b rt1 = Return tt rt'))
    | Raise e rt' => same_engine rt rt'
    | OutsideModel => True
    end).
  { intros r -> Hg. unfold cached.
    destruct (cache_lookup _ _ _ _ _ _) as [w|] eqn:Hc.
    - exists p. split; [reflexivity|]. split; [exact Hg|]. left. auto.
    - match goal with |- context [render ?a ?p ?i ?o ?n ?d ?f ?r] =>
        pose proof (render_final a p i o n d f r) as F;
        destruct (render a p i o n d f r) as [wav r'|e r'|] eqn:Er
      end; [| |exact I].
      + exists p. split; [reflexivity|]. split; [exact Hg|]. right.
        split; [reflexivity|]. split; [exact Er|].
        destruct F as (rt1 & S1 & C1 & St). exists rt1.
        split; [eapply same_engine_trans; [apply same_engine_set_temp|exact S1]|].
        split; [exact C1|exact St].
      + eapply same_engine_trans; [apply same_engine_set_temp|exact F]. }
  destruct (js_get _notes note) as [base| |] eqn:Hj.
  - apply Hcase; [reflexivity|discriminate].
  - apply Hcase; [reflexivity|discriminate].
  - destruct (negb _ && _); [exact I|apply same_engine_set_temp].
Qed.

(** The cache read answers a call whose sound and note pass the guards. *)
Lemma generate_hit (sound : SoundID) (note : string) (octave duration : number)
    (rt : Runtime) (b : Buffer) :
  is_Some (sound_at (synth rt) (_findSound (synth rt) sound)) ->
  js_get _notes note <> Undefined ->
  cached rt (_findSound (synth rt) sound) (clamp_octave octave) note
    (duration_key duration) = Some b ->
  generate sound note octave duration rt
  = Return b (on_synth (set_temp empty_vars) rt).
Proof.
  intros [p Hp] Hn Hl. rewrite generate_unfold. cbv zeta.
  rewrite Hp. unfold cached in Hl. rewrite Hl.
  destruct (js_get _notes note); [reflexivity..|contradiction].
Qed.

(** A call of [generate], however it ends, leaves the settings, the sounds,
    the modulation registry and the shape of the cache alone, and no key
    that read as a buffer reads otherwise afterwards. *)
Lemma generate_final (sound : SoundID) (note : string) (octave duration : number)
    (rt rt' : Runtime) :
  full_rows (_fileCache (synth rt)) ->
  final_state (generate sound note octave duration rt) = Some rt' ->
  _debug (synth rt') = _debug (synth rt) /\
  _sampleRate (synth rt') = _sampleRate (synth rt) /\
  _volume (synth rt') = _volume (synth rt) /\
  _sounds (synth rt') = _sounds (synth rt) /\
  _mod (synth rt') = _mod (synth rt) /\
  length (_fileCache (synth rt')) = length (_fileCache (synth rt)) /\
  full_rows (_fileCache (synth rt')) /\
  forall soundID o n d b,
    cached rt soundID o n d = Some b -> cached rt' soundID o n d = Some b.
Proof.
  intros Hf Hfin.
  pose proof (generate_outcome sound note octave duration rt) as G. cbv zeta in G.
  assert (Hsame : forall r, same_engine rt r ->
            _debug (synth r) = _debug (synth rt) /\
            _sampleRate (synth r) = _sampleRate (synth rt) /\
            _volume (synth r) = _volume (synth rt) /\
            _sounds (synth r) = _sounds (synth rt) /\
            _mod (synth r) = _mod (synth rt) /\
            length (_fileCache (synth r)) = length (_fileCache (synth rt)) /\
            full_rows (_fileCache (synth r)) /\
            forall soundID o n d b,
              cached rt soundID o n d = Some b -> cached r soundID o n d = Some b).
  { intros r S. pose proof (same_engine_builtins _ _ S) as Hb.
    apply same_engine_fields in S as (F1 & F2 & F3 & F4 & F5 & F6).
    unfold cached. rewrite F6, Hb. auto 10. }
  destruct (generate _ _ _ _ rt) as [b r|e r|]; cbn [final_state] in Hfin;
    [| |discriminate]; injection Hfin as ->.
  2:{ apply Hsame, G. }
  destruct G as (p & Hp & Hn & [[Hc ->]|(Hc & _ & rt1 & S1 & _ & St)]).
  { apply Hsame, same_engine_set_temp. }
  destruct (Hsame rt1 S1) as (F1 & F2 & F3 & F4 & F5 & F6 & F7 & F8).
  pose proof (same_engine_builtins _ _ S1) as Hb.
  pose proof (same_engine_fields _ _ S1) as (_ & _ & _ & _ & _ & Hcache).
  assert (Hmiss : cached rt1 (_findSound (synth rt) sound) (clamp_octave octave)
                    note (duration_key duration) = None).
  { unfold cached in *. rewrite Hcache, Hb. exact Hc. }
  destruct (store_buffer_effect _ _ _ _ _ _ _ F7 (clamp_octave_range octave) Hmiss St)
    as (G1 & G2 & G3 & _ & _ & _ & G7 & _).
  assert (E : forall (T : Type) (f : AudioSynth -> T),
            (forall c a, f (set_fileCache c a) = f a) ->
            f (synth rt') = f (synth rt1)).
  { intros T f Hfx. rewrite <- G2. symmetry. apply Hfx. }
  rewrite (E _ _debug), (E _ _sampleRate), (E _ _volume), (E _ _sounds),
    (E _ _mod) by reflexivity.
  split; [exact F1|]. split; [exact F2|]. split; [exact F3|]. split; [exact F4|].
  split; [exact F5|]. split; [congruence|]. split; [exact G1|].
  intros soundID o n d w Hw. apply G7, F8, Hw.
Qed.

(** A call that returned is answered from the cache when repeated. *)
Lemma generate_memo (sound : SoundID) (note : string) (octave duration : number)
    (rt rt1 : Runtime) (b : Buffer) :
  full_rows (_fileCache (synth rt)) ->
  generate sound note octave duration rt = Return b rt1 ->
  cached rt1 (_findSound (synth rt1) sound) (clamp_octave octave) note
    (duration_key duration) = Some b /\
  generate sound note octave duration rt1
  = Return b (on_synth (set_temp empty_vars) rt1).
Proof.
  intros Hf G.
  assert (Hfin : final_state (generate sound note octave duration rt) = Some rt1)
    by (rewrite G; reflexivity).
  destruct (generate_final _ _ _ _ _ _ Hf Hfin) as (_ & _ & _ & Hs & _ & _ & _ & Hkeep).
  pose proof (generate_outcome sound note octave duration rt) as O. cbv zeta in O.
  rewrite G in O. destruct O as (p & Hp & Hn & Hcases).
  assert (Hl : cached rt1 (_findSound (synth rt1) sound) (clamp_octave octave) note
                 (duration_key duration) = Some b).
  { rewrite (_findSound_sounds _ _ _ Hs).
    destruct Hcases as [[Hc _]|(Hc & _ & rt2 & S2 & _ & St)].
    - apply Hkeep, Hc.
    - pose proof (same_engine_builtins _ _ S2) as Hb.
      pose proof (same_engine_fields _ _ S2) as (_ & _ & _ & _ & _ & Hcache).
      assert (Hf2 : full_rows (_fileCache (synth rt2))) by (rewrite Hcache; exact Hf).
      assert (Hmiss : cached rt2 (_findSound (synth rt) sound) (clamp_octave octave)
                        note (duration_key duration) = None).
      { unfold cached in *. rewrite Hcache, Hb. exact Hc. }
      destruct (store_buffer_effect _ _ _ _ _ _ _ Hf2 (clamp_octave_range octave)
                  Hmiss St) as (_ & _ & _ & _ & _ & G6 & _).
      exact G6. }
  split; [exact Hl|].
  apply generate_hit; [|exact Hn|exact Hl].
  rewrite (_findSound_sounds _ _ _ Hs), (sound_at_sounds _ _ _ Hs), Hp. eauto.
Qed.

(** A name that [_notes] neither owns nor inherits is rejected, after the
    scratch object has been reset and before anything else is touched.
    (A numeric string is followed only while [Object.prototype] holds no
    buffer.) *)
Lemma generate_unknown_note (sound : SoundID) (note : string)
    (octave duration : number) (rt : Runtime) (p : SoundProfile) :
  sound_at (synth rt) (_findSound (synth rt) sound) = Some p ->
  _notes !! note = None ->
  note ∉ Object_prototype ->
  proto_extra (builtins rt) = ∅ \/ numeric_like note = false ->
  generate sound note octave duration rt
  = Raise InvalidNote (on_synth (set_temp empty_vars) rt).
Proof.
  intros Hp Hn Hi Hout. rewrite generate_unfold. cbv zeta. rewrite Hp.
  unfold js_get. rewrite Hn, bool_decide_eq_false_2 by exact Hi.
  destruct Hout as [-> | ->].
  - rewrite bool_decide_eq_true_2 by reflexivity. reflexivity.
  - rewrite andb_false_r. reflexivity.
Qed.

(** A name that [_notes] inherits from [Object.prototype] passes the guard:
    the call is answered from the built-in member, or renders at the
    frequency NaN. *)
Lemma generate_inherited_note (sound : SoundID) (note : string)
    (octave duration : number) (rt : Runtime) (p : SoundProfile) :
  sound_at (synth rt) (_findSound (synth rt) sound) = Some p ->
  note ∈ Object_prototype ->
  generate sound note octave duration rt
  = match cached rt (_findSound (synth rt) sound) (clamp_octave octave) note
            (duration_key duration) with
    | Some b => Return b (on_synth (set_temp empty_vars) rt)
    | None =>
        render (synth rt) p (_findSound (synth rt) sound) (clamp_octave octave)
          note (duration_key duration)
          (NaN * Math_pow (of_Z 2) (of_Z (clamp_octave octave) - of_Z 4))%js
          (on_synth (set_temp empty_vars) rt)
    end.
Proof.
  intros Hp Hi. rewrite generate_unfold. cbv zeta. rewrite Hp.
  unfold js_get, note_base, cached.
  rewrite (_notes_not_inherited _ Hi), bool_decide_eq_true_2 by exact Hi.
  reflexivity.
Qed.

End Generate.

(** ** Signs of products and sample counts *)

Lemma binary_round_aux_sign (sx : bool) (mx ex : Z) (lx : location) :
  match binary_round_aux prec emax sx mx ex lx with
  | S754_zero s | S754_infinity s | S754_finite s _ _ => s = sx
  | S754_nan => True
  end.
Proof.
  unfold binary_round_aux.
  destruct (shr_fexp _ _ _ _ _) as [mrs' e'].
  destruct (shr_fexp _ _ _ _ _) as [mrs'' e''].
  destruct (shr_m mrs''); [reflexivity| |exact I].
  destruct (Z.leb _ _); reflexivity.
Qed.

Lemma magnitude_floor_nonneg (m : positive) (e : Z) : 0 <= magnitude_floor m e.
Proof.
  unfold magnitude_floor. destruct e.
  - apply Z.shiftl_nonneg. lia.
  - apply Z.shiftl_nonneg. lia.
  - apply Z.shiftr_nonneg. lia.
Qed.

(** The product of two positive numbers does not truncate below zero. *)
Lemma trunc_mul_nonneg (x y : number) :
  JS.gt x (of_Z 0) = true -> JS.gt y (of_Z 0) = true -> 0 <= trunc (x * y)%js.
Proof.
  intros Hx Hy.
  destruct x as [sx|[|]| |[|] mx ex]; try discriminate Hx;
  destruct y as [sy|[|]| |[|] my ey]; try discriminate Hy; cbn; try lia.
  unfold JS.mul, SFmul. cbn [xorb].
  pose proof (binary_round_aux_sign false (Z.pos (mx * my)) (ex + ey) loc_Exact) as S.
  destruct (binary_round_aux _ _ _ _ _ _) as [s|s| |s m e]; cbn; try lia.
  subst s. cbn. apply magnitude_floor_nonneg.
Qed.

Lemma ToInt32_trunc (x : number) :
  - 2 ^ 31 <= trunc x < 2 ^ 31 -> ToInt32 x = trunc x.
Proof. apply wrap32_id. Qed.

Lemma duration_key_positive (duration : number) :
  JS.gt duration (of_Z 0) = true -> duration_key duration = duration.
Proof.
  destruct duration as [s|s| |s m e]; try discriminate; reflexivity.
Qed.


Lemma range_ok_spec (c : number) (n : nat) (lo sr : Z) :
  range_ok c n lo = true -> lo <= sr < lo + Z.of_nat n -> attack_ok c sr = true.
Proof.
  revert lo. induction n as [|n IH]; intros lo Hr Hsr; [lia|].
  cbn [range_ok] in Hr. apply andb_true_iff in Hr as [H0 Hr].
  destruct (Z.eq_dec sr lo) as [->|Hne]; [exact H0|].
  apply (IH (lo + 1)); [exact Hr|lia].
Qed.

Lemma attack_len_default (c : number) (sr : Z) :
  c = dec 2 3 \/ c = dec 3 1 -> 4000 <= sr <= 44100 ->
  0 <= ToInt32 (of_Z sr * c)%js.
Proof.
  intros Hc Hsr.
  assert (Hok : attack_ok c sr = true).
  { destruct Hc as [-> | ->].
    - apply (range_ok_spec _ (Z.to_nat 40101) 4000); [vm_compute; reflexivity|lia].
    - apply (range_ok_spec _ (Z.to_nat 40101) 4000); [vm_compute; reflexivity|lia]. }
  unfold attack_ok in Hok. apply andb_true_iff in Hok as [H1 H2].
  apply Z.leb_le in H1. apply Z.ltb_lt in H2.
  rewrite ToInt32_trunc; lia.
Qed.

Lemma Int16Array_bytes_length (data : list Z) :
  length (Int16Array_bytes data) = (2 * length data)%nat.
Proof.
  unfold Int16Array_bytes. induction data as [|x data IH]; [reflexivity|].
  cbn [map concat]. rewrite length_app, IH. cbn. lia.
Qed.

Section Totality.
Context `{Host}.


Lemma piano_total : wave_total piano (fundamental :: default_modulations).
Proof. intros i s f v ws. eexists _, _. reflexivity. Qed.

Lemma organ_total : wave_total organ (fundamental :: default_modulations).
Proof. intros i s f v ws. eexists _, _. reflexivity. Qed.

Lemma edm_total : wave_total edm (fundamental :: default_modulations).
Proof. intros i s f v ws. eexists _, _. reflexivity. Qed.

Lemma acoustic_total (mods : list ModulationFunction) : wave_total acoustic mods.
Proof.
  intros i s f v ws. cbn [wave acoustic].
  unfold mbind, M_bind, get, put_vars. cbn beta iota.
  repeat match goal with
         | |- context [if ?c then _ else _] => destruct c
         end; eexists _, _; reflexivity.
Qed.

Lemma default_profiles_total (p : SoundProfile) :
  p ∈ [piano; organ; acoustic; edm] ->
  wave_total p (fundamental :: default_modulations).
Proof.
  intros Hp. repeat (apply elem_of_cons in Hp as [-> | Hp]);
    [apply piano_total|apply organ_total|apply acoustic_total|apply edm_total|].
  inversion Hp.
Qed.

Lemma default_profiles_attack (p : SoundProfile) (s f v : number) :
  p ∈ [piano; organ; acoustic; edm] ->
  attack p s f v = dec 2 3 \/ attack p s f v = dec 3 1.
Proof.
  intros Hp. repeat (apply elem_of_cons in Hp as [-> | Hp]); cbn; auto.
  inversion Hp.
Qed.

Lemma sample_loop_returns (p : SoundProfile) (sr f v : number)
    (val : Z -> number -> number) (n : nat) (i : Z) (data : list Z) (rt : Runtime) :
  wave_total p (_mod (synth rt)) ->
  exists data' rt', for_loop n i (sample_step (wave p) sr f v val) data rt
                    = Return data' rt'.
Proof.
  revert i data rt. induction n as [|n IH]; intros i data rt Ht.
  - eexists _, _. reflexivity.
  - cbn [for_loop]. unfold mbind at 1, M_bind at 1.
    unfold sample_step at 1. unfold mbind at 1, M_bind at 1, call_wave.
    destruct (Ht (of_Z i) sr f v {| vars := _temp (synth rt); random_calls := random_draws rt |})
      as (x & ws' & ->).
    cbn [mret M_ret]. apply IH. exact Ht.
Qed.

Lemma render_returns (this : AudioSynth) (p : SoundProfile) (soundID o : Z)
    (note : string) (d frequency : number) (rt : Runtime) :
  wave_total p (_mod (synth rt)) ->
  0 <= ToInt32 (of_Z (_sampleRate this) * d)%js <= 2 ^ 31 - 19 ->
  0 <= _sampleRate this < 2 ^ 31 ->
  (Z.to_nat soundID < length (_fileCache (synth rt)))%nat ->
  exists wav rt', render this p soundID o note d frequency rt = Return wav rt'.
Proof.
  intros Ht Hd Hsr Hid. unfold render. cbv zeta.
  set (sampleRate := of_Z (_sampleRate this)) in *.
  set (volume := of_Z (_volume this)).
  set (att := attack p sampleRate frequency volume).
  set (attackLen := ToInt32 (sampleRate * att)%js).
  set (decayLen := ToInt32 (sampleRate * d)%js) in *.
  unfold mbind at 1, M_bind at 1.
  assert (Ha : new_Int16Array (decayLen * _channels * (_bitsPerSample / 8))
               = Ok (replicate (Z.to_nat decayLen) 0)).
  { unfold new_Int16Array, _channels, _bitsPerSample.
    change (16 / 8) with 2. rewrite Z.mul_1_r.
    destruct (Z.ltb_spec (decayLen * 2) 0); [lia|].
    rewrite Z.div_mul by lia. reflexivity. }
  rewrite Ha. cbn [lift_result]. unfold mret at 1, M_ret at 1.
  unfold mbind at 1, M_bind at 1.
  match goal with |- context [for_loop ?n ?i ?b ?dt rt] =>
    destruct (sample_loop_returns p sampleRate frequency volume
                (attack_val volume sampleRate att) n i dt rt Ht)
      as (data1 & rt1 & E1);
    pose proof (sample_loop_final (wave p) sampleRate frequency volume
                  (attack_val volume sampleRate att) n i dt rt) as F1
  end.
  rewrite E1 in F1 |- *. destruct F1 as [S1 _].
  pose proof (sample_loop_length _ _ _ _ _ _ _ _ _ _ _ E1) as L1.
  destruct (same_engine_fields _ _ S1) as (_ & _ & _ & _ & M1 & C1).
  unfold mbind at 1, M_bind at 1.
  match goal with |- context [for_loop ?n ?i ?b data1 rt1] =>
    destruct (sample_loop_returns p sampleRate frequency volume
                (decay_val volume sampleRate att
                   (dampen p sampleRate frequency volume) d attackLen)
                n i data1 rt1 ltac:(rewrite M1; exact Ht))
      as (data2 & rt2 & E2);
    pose proof (sample_loop_final (wave p) sampleRate frequency volume
                  (decay_val volume sampleRate att
                     (dampen p sampleRate frequency volume) d attackLen)
                  n i data1 rt1) as F2
  end.
  rewrite E2 in F2 |- *. destruct F2 as [S2 _].
  pose proof (sample_loop_length _ _ _ _ _ _ _ _ _ _ _ E2) as L2.
  destruct (same_engine_fields _ _ S2) as (_ & _ & _ & _ & _ & C2).
  unfold mbind at 1, M_bind at 1.
  rewrite _createWav_ok.
  2:{ exact Hsr. }
  2:{ rewrite Int16Array_bytes_length, L2, L1, length_replicate. lia. }
  cbn [lift_result]. unfold mret at 1, M_ret at 1.
  unfold mbind, M_bind. rewrite store_buffer_spec. cbv zeta.
  assert (Hrow : (Z.to_nat soundID < length (_fileCache (synth rt2)))%nat)
    by (rewrite C2, C1; exact Hid).
  destruct (lookup_lt_is_Some_2 _ _ Hrow) as [octaves Ho].
  destruct (note_inherited _ _ _ _).
  - unfold cache_pass. rewrite Ho. eexists _, _. reflexivity.
  - unfold cache_store. rewrite Ho. eexists _, _. reflexivity.
Qed.

Lemma standard_sound_at (rt : Runtime) (i : Z) (p : SoundProfile) :
  standard rt -> sound_at (synth rt) i = Some p ->
  p ∈ [piano; organ; acoustic; edm] /\
  (Z.to_nat i < length (_fileCache (synth rt)))%nat.
Proof.
  intros (Hs & _ & Hc & _). unfold sound_at. rewrite Hs, Hc.
  destruct (Z.ltb_spec i 0); [discriminate|]. intros Hp.
  split; [eapply list_elem_of_lookup_2, Hp|].
  apply lookup_lt_Some in Hp. exact Hp.
Qed.

(** [generate] returns on every well-formed request whose sample count fits. *)
Lemma generate_returns (sound : SoundID) (note : string) (octave duration : number)
    (rt : Runtime) (p : SoundProfile) :
  standard rt ->
  sound_at (synth rt) (_findSound (synth rt) sound) = Some p ->
  is_Some (_notes !! note) ->
  0 <= ToInt32 (of_Z (_sampleRate (synth rt)) * duration_key duration)%js
    <= 2 ^ 31 - 19 ->
  exists wav rt', generate sound note octave duration rt = Return wav rt'.
Proof.
  intros Hstd Hp [base Hn] Hd. rewrite generate_unfold. cbv zeta. rewrite Hp.
  unfold js_get. rewrite Hn.
  destruct (cache_lookup _ _ _ _ _ _) as [cached|]; [eauto|].
  destruct (standard_sound_at _ _ _ Hstd Hp) as [Hin Hid].
  destruct Hstd as (_ & Hm & _ & Hsr & Hfull).
  apply render_returns.
  - cbn. rewrite Hm. apply default_profiles_total, Hin.
  - exact Hd.
  - lia.
  - cbn. exact Hid.
Qed.

Lemma standard_Synth (rt : Runtime) : synth rt = synth Synth -> standard rt.
Proof.
  intros E. unfold standard. rewrite E.
  change (_sampleRate (synth Synth)) with 44100.
  split; [reflexivity|]. split; [reflexivity|]. split; [reflexivity|].
  split; [lia|]. change (_fileCache (synth Synth)) with (replicate 4 octaveList).
  apply Forall_replicate. reflexivity.
Qed.

Lemma standard_after (c : Call) (rt rt' : Runtime) :
  standard rt -> after c rt = Some rt' -> standard rt'.
Proof.
  intros (Hs & Hm & Hc & Hsr & Hfull) Ha.
  destruct c as [sound note octave duration|r|v|]; cbn [after] in Ha.
  - apply (generate_final _ _ _ _ _ _ Hfull) in Ha
      as (_ & F2 & _ & F4 & F5 & F6 & F7 & _).
    unfold standard. rewrite F2, F4, F5, F6. auto.
  - injection Ha as <-. unfold standard.
    split; [exact Hs|]. split; [exact Hm|].
    split; [cbn; unfold _resizeCache; cbn; rewrite Hs; reflexivity|].
    split; [cbn; lia|]. exact (full_rows_clear _).
  - injection Ha as <-. unfold standard.
    split; [exact Hs|]. split; [exact Hm|].
    split; [cbn; unfold _resizeCache; cbn; rewrite Hs; reflexivity|].
    split; [exact Hsr|]. exact (full_rows_clear _).
  - injection Ha as <-. unfold standard. cbn. auto.
Qed.

Lemma reachable_standard (rt : Runtime) : reachable rt -> standard rt.
Proof.
  induction 1 as [rt E|rt rt' c _ IH Ha].
  - apply standard_Synth, E.
  - eapply standard_after; eassumption.
Qed.

End Totality.

Lemma of_Z_nonneg_trunc_mul (z : Z) (y : number) :
  0 <= z -> JS.gt y (of_Z 0) = true -> 0 <= trunc (of_Z z * y)%js.
Proof.
  intros Hz Hy.
  assert (Hs : match of_Z z with
               | S754_zero s | S754_infinity s | S754_finite s _ _ => s = false
               | S754_nan => True
               end).
  { unfold of_Z, binary_normalize. destruct z as [|q|q]; [reflexivity| |lia].
    unfold binary_round. destruct (shl_align _ _ _) as [mz ez].
    apply binary_round_aux_sign. }
  destruct (of_Z z) as [s|s| |s m e]; try subst s;
  destruct y as [sy|[|]| |[|] my ey]; try discriminate Hy; cbn; try lia.
  unfold JS.mul, SFmul. cbn [xorb].
  pose proof (binary_round_aux_sign false (Z.pos (m * my)) (e + ey) loc_Exact) as S.
  destruct (binary_round_aux _ _ _ _ _ _) as [s|s| |s m' e']; cbn; try lia.
  subst s. cbn. apply magnitude_floor_nonneg.
Qed.

Section Settings.
Context `{Host}.

Lemma setVolume_spec (x : number) (rt : Runtime) :
  exists v, setVolume x rt
            = Return v (on_synth _clearCache (on_synth (set_volume v) rt)).
Proof. eexists. reflexivity. Qed.

Lemma note_inherited_own (c : FileCache) (soundID o : Z) (note : string) :
  note ∉ Object_prototype -> note_inherited c soundID o note = false.
Proof.
  intros Hn. unfold note_inherited. destruct (note_entry _ _ _ _); [reflexivity|].
  apply bool_decide_eq_false_2, Hn.
Qed.


(** After a cache miss that returned, the key reads as the buffer and the
    wave function has been called once per sample of the two loops. *)
Lemma generate_miss (sound : SoundID) (note : string) (octave duration : number)
    (rt rt' : Runtime) (wav : Buffer) :
  full_rows (_fileCache (synth rt)) ->
  cached rt (_findSound (synth rt) sound) (clamp_octave octave) note
    (duration_key duration) = None ->
  generate sound note octave duration rt = Return wav rt' ->
  exists p,
    sound_at (synth rt) (_findSound (synth rt) sound) = Some p /\
    js_get _notes note <> Undefined /\
    wave_calls rt' =
      (wave_calls rt
       + render_calls (synth rt) p (duration_key duration)
           (note_base note
            * Math_pow (of_Z 2) (of_Z (clamp_octave octave) - of_Z 4))%js)%nat /\
    cached rt' (_findSound (synth rt) sound) (clamp_octave octave) note
      (duration_key duration) = Some wav /\
    (note_inherited (_fileCache (synth rt)) (_findSound (synth rt) sound)
       (clamp_octave octave) note = true ->
     _fileCache (synth rt') = _fileCache (synth rt) /\
     member_get (builtins rt') note (duration_key duration) = Some wav).
Proof.
  intros Hf Hmiss G.
  pose proof (generate_outcome sound note octave duration rt) as O. cbv zeta in O.
  rewrite G in O. destruct O as (p & Hp & Hn & [[Hc _]|(_ & _ & rt1 & S1 & C1 & St)]).
  { rewrite Hmiss in Hc. discriminate Hc. }
  exists p. split; [exact Hp|]. split; [exact Hn|].
  pose proof (same_engine_builtins _ _ S1) as Hb.
  pose proof (same_engine_fields _ _ S1) as (_ & _ & _ & _ & _ & Hcache).
  assert (Hf1 : full_rows (_fileCache (synth rt1))) by (rewrite Hcache; exact Hf).
  assert (Hmiss1 : cached rt1 (_findSound (synth rt) sound) (clamp_octave octave)
                     note (duration_key duration) = None).
  { unfold cached in *. rewrite Hcache, Hb. exact Hmiss. }
  destruct (store_buffer_effect _ _ _ _ _ _ _ Hf1 (clamp_octave_range octave)
              Hmiss1 St) as (_ & _ & _ & _ & W & G6 & _ & _ & _ & _ & G11 & _).
  split; [rewrite W; exact C1|]. split; [exact G6|].
  rewrite <- Hcache. exact G11.
Qed.


(** C6, on the note names the guard of [generate] lets through.  Take a
    name that is not one of the 12 keys of [_notes].  If it is not a member
    name of [Object.prototype] either (["H"], say), [generate] throws
    InvalidNote and leaves the cache as it was (for a numeric string this
    is stated while [Object.prototype] holds no buffer: a buffer stored
    there by a call with the name ["__proto__"] becomes a property of
    [_notes] too).  If it is a member name (["constructor"], ["toString"],
    ...), the read [this._notes[note]] finds the inherited member, which
    is truthy: the guard does not reject the name and no InvalidNote is
    thrown.  The call is answered from that member or renders at the
    frequency NaN, and a buffer it renders is stored on the member, not in
    the cache. *)
Theorem inherited_note_name_not_rejected (sound : SoundID) (note : string)
    (octave duration : number) (rt : Runtime) (p : SoundProfile) :
  sound_at (synth rt) (_findSound (synth rt) sound) = Some p ->
  _notes !! note = None ->
  (note ∉ Object_prototype ->
   proto_extra (builtins rt) = ∅ \/ numeric_like note = false ->
   generate sound note octave duration rt
     = Raise InvalidNote (on_synth (set_temp empty_vars) rt) /\
   _fileCache (synth (on_synth (set_temp empty_vars) rt)) = _fileCache (synth rt)) /\
  (note ∈ Object_prototype ->
   js_get _notes note = Inherited /\
   generate sound note octave duration rt
   = match cached rt (_findSound (synth rt) sound) (clamp_octave octave) note
             (duration_key duration) with
     | Some b => Return b (on_synth (set_temp empty_vars) rt)
     | None =>
         render (synth rt) p (_findSound (synth rt) sound) (clamp_octave octave)
           note (duration_key duration)
           (NaN * Math_pow (of_Z 2) (of_Z (clamp_octave octave) - of_Z 4))%js
           (on_synth (set_temp empty_vars) rt)
     end /\
   generate sound note octave duration rt
     <> Raise InvalidNote (on_synth (set_temp empty_vars) rt) /\
   forall wav rt',
     full_rows (_fileCache (synth rt)) ->
     note_entry (_fileCache (synth rt)) (_findSound (synth rt) sound)
       (clamp_octave octave) note = None ->
     member_get (builtins rt) note (duration_key duration) = None ->
     generate sound note octave duration rt = Return wav rt' ->
     _fileCache (synth rt') = _fileCache (synth rt) /\
     member_get (builtins rt') note (duration_key duration) = Some wav).
Proof.
  intros Hp Hn. split.
  - intros Hi Hout. split; [|reflexivity].
    exact (generate_unknown_note _ _ _ _ _ _ Hp Hn Hi Hout).
  - intros Hi.
    pose proof (generate_inherited_note _ _ octave duration _ _ Hp Hi) as G.
    split; [|split; [exact G|split]].
    + unfold js_get. rewrite Hn, bool_decide_eq_true_2 by exact Hi. reflexivity.
    + rewrite G. destruct (cached _ _ _ _ _); [discriminate|].
      match goal with |- render ?a ?q ?i ?o ?n ?d ?f ?r <> _ =>
        pose proof (render_raise a q i o n d f r) as R;
        destruct (render a q i o n d f r) as [? ?|e r'|]
      end; try discriminate.
      intros [= -> ->]. destruct R as [R|[R|R]]; [discriminate R..|].
      cbn in R. lia.
    + intros wav rt' Hf Hent Hmem Gr.
      assert (Hinh : note_inherited (_fileCache (synth rt))
                       (_findSound (synth rt) sound) (clamp_octave octave) note
                     = true).
      { unfold note_inherited. rewrite Hent. apply bool_decide_eq_true_2, Hi. }
      assert (Hmiss : cached rt (_findSound (synth rt) sound) (clamp_octave octave)
                        note (duration_key duration) = None).
      { unfold cached. rewrite cache_lookup_note_object.
        rewrite note_entry_note_object in Hent.
        destruct (note_object _ _ _) as [nl|]; [|reflexivity].
        rewrite Hent, bool_decide_eq_true_2 by exact Hi. exact Hmem. }
      destruct (generate_miss _ _ _ _ _ _ _ Hf Hmiss Gr) as (_ & _ & _ & _ & _ & Hst).
      exact (Hst Hinh).
Qed.

End Settings.

Lemma demo_full_rows : full_rows (_fileCache (synth demo_Synth)).
Proof.
  change (_fileCache (synth demo_Synth)) with (replicate 4 octaveList).
  apply Forall_replicate. reflexivity.
Qed.



(** The theorem on the engine as loaded: ["H"] is rejected and
    ["constructor"] is not; the call renders a buffer, leaves the cache as
    it was and keeps the buffer on the built-in member. *)
Lemma inherited_note_name_not_rejected_witness :
  generate (H := demo_host) (SoundName "piano") "H" (of_Z 4) (dec 1 3) demo_Synth
    = Raise InvalidNote (on_synth (set_temp empty_vars) demo_Synth) /\
  js_get _notes "constructor" = Inherited /\
  exists wav rt',
    generate (H := demo_host) (SoundName "piano") "constructor" (of_Z 4) (dec 1 3)
      demo_Synth = Return wav rt' /\
    _fileCache (synth rt') = _fileCache (synth demo_Synth) /\
    member_get (builtins rt') "constructor" (duration_key (dec 1 3)) = Some wav.
Proof.
  assert (HH : "H" ∉ Object_prototype).
  { unfold Object_prototype. intros Hin.
    repeat (apply elem_of_cons in Hin as [Hin|Hin]; [discriminate Hin|]).
    inversion Hin. }
  assert (HC : "constructor" ∈ Object_prototype)
    by (unfold Object_prototype; apply list_elem_of_here).
  split.
  - exact (proj1 (proj1 (inherited_note_name_not_rejected (H := demo_host)
             (SoundName "piano") "H" (of_Z 4) (dec 1 3) demo_Synth (@piano demo_host)
             eq_refl eq_refl) HH (or_introl eq_refl))).
  - destruct (proj2 (inherited_note_name_not_rejected (H := demo_host)
             (SoundName "piano") "constructor" (of_Z 4) (dec 1 3) demo_Synth
             (@piano demo_host) eq_refl eq_refl) HC) as (J & G & _ & K).
    split; [exact J|].
    assert (Hm : cached demo_Synth (_findSound (synth demo_Synth) (SoundName "piano"))
                   (clamp_octave (of_Z 4)) "constructor" (duration_key (dec 1 3))
                 = None) by (vm_compute; reflexivity).
    rewrite Hm in G.
    destruct (render_returns (H := demo_host) (synth demo_Synth) (@piano demo_host)
                (_findSound (synth demo_Synth) (SoundName "piano"))
                (clamp_octave (of_Z 4)) "constructor" (duration_key (dec 1 3))
                (NaN * Math_pow (Host := demo_host) (of_Z 2)
                         (of_Z (clamp_octave (of_Z 4)) - of_Z 4))%js
                (on_synth (set_temp empty_vars) demo_Synth))
      as (wav & rt' & R).
    + apply piano_total.
    + split; apply Z.leb_le; vm_compute; reflexivity.
    + vm_compute. split; [discriminate|reflexivity].
    + vm_compute. lia.
    + rewrite R in G. exists wav, rt'. split; [exact G|].
      apply (K wav rt' demo_full_rows); [vm_compute; reflexivity..|exact G].
Defined.

(** ** Stateless wave functions: rendering as a function of the settings *)


Section Stateless.
Context `{Host}.












End Stateless.

Section Memo.
Context `{Host}.



(** Only a call with the note name ["__proto__"] stores on
    [Object.prototype]: every other call of [generate] leaves it as it was,
    and so do [setSampleRate] and [setVolume]. *)
Lemma generate_keeps_prototype (sound : SoundID) (note : string)
    (octave duration : number) (rt rt' : Runtime) :
  full_rows (_fileCache (synth rt)) -> note <> "__proto__" ->
  final_state (generate sound note octave duration rt) = Some rt' ->
  proto_extra (builtins rt') = proto_extra (builtins rt).
Proof.
  intros Hfull Hn Hf.
  pose proof (generate_outcome sound note octave duration rt) as O. cbv zeta in O.
  destruct (generate _ _ _ _ rt) as [wav r|e r|]; cbn [final_state] in Hf;
    [| |discriminate]; injection Hf as ->.
  2:{ rewrite (same_engine_builtins _ _ O). reflexivity. }
  destruct O as (p0 & Hp0 & Hj & [[Hc ->]|(Hc & Er & rt1 & S1 & _ & St)]).
  { reflexivity. }
  pose proof (same_engine_builtins _ _ S1) as Hb.
  pose proof (same_engine_fields _ _ S1) as (_ & _ & _ & _ & _ & Hcache).
  assert (Hf1 : full_rows (_fileCache (synth rt1))) by (rewrite Hcache; exact Hfull).
  assert (Hmiss1 : cached rt1 (_findSound (synth rt) sound) (clamp_octave octave)
                     note (duration_key duration) = None).
  { unfold cached in *. rewrite Hcache, Hb. exact Hc. }
  destruct (store_buffer_effect _ _ _ _ _ _ _ Hf1 (clamp_octave_range octave)
              Hmiss1 St) as (_ & _ & _ & _ & _ & _ & _ & _ & _ & _ & _ & Hkeep).
  rewrite (Hkeep Hn), Hb. reflexivity.
Qed.

Lemma settings_keep_prototype (x : number) (rt rt' : Runtime) :
  after (CallSetSampleRate x) rt = Some rt' \/ after (CallSetVolume x) rt = Some rt' ->
  proto_extra (builtins rt') = proto_extra (builtins rt).
Proof. intros [Ha|Ha]; cbn in Ha; injection Ha as <-; reflexivity. Qed.


End Memo.




(** The determinism of C1 also needs a state in which [Object.prototype]
    holds no buffer: after [generate('piano', '__proto__', 4, 0.001)], which
    stores its buffer of zero samples as [Object.prototype['0.001']], and
    [generate('piano', 'C', 4, 0.002)], which gives the note its durations
    object, the call [generate('piano', 'C', 4, 0.001)] finds that buffer
    through the durations object and returns it without running the wave
    function, while the engine as loaded renders other bytes for the same
    key under the same settings. *)
Lemma proto_not_memoized :
  exists b1 rt1 w rt2 b2 rt3 b3 rt4,
    generate (H := demo_host) (SoundName "piano") "__proto__" (of_Z 4) (dec 1 3)
      demo_Synth = Return b1 rt1 /\
    generate (H := demo_host) (SoundName "piano") "C" (of_Z 4) (dec 2 3) rt1
      = Return w rt2 /\
    generate (H := demo_host) (SoundName "piano") "C" (of_Z 4) (dec 1 3) rt2
      = Return b2 rt3 /\
    b2 = b1 /\
    wave_calls rt3 = wave_calls rt2 /\
    generate (H := demo_host) (SoundName "piano") "C" (of_Z 4) (dec 1 3) demo_Synth
      = Return b3 rt4 /\
    b3 <> b2.
Proof.
  assert (E : match proto_runs with
              | Some (b1, b2, b3, (c2, c3)) =>
                  bool_decide (b2 = b1) && negb (bool_decide (b3 = b2))
                  && (c3 =? c2)%nat
              | None => false
              end = true) by (vm_compute; reflexivity).
  unfold proto_runs in E. cbv zeta in E.
  destruct (generate _ "__proto__" _ _ demo_Synth) as [b1 rt1| |] eqn:G1;
    [|discriminate..].
  destruct (generate _ "C" _ (dec 2 3) rt1) as [w rt2| |] eqn:G2; [|discriminate..].
  destruct (generate _ "C" _ (dec 1 3) rt2) as [b2 rt3| |] eqn:G3; [|discriminate..].
  destruct (generate _ "C" _ (dec 1 3) demo_Synth) as [b3 rt4| |] eqn:G4;
    [|discriminate..].
  apply andb_true_iff in E as [E Ec]. apply andb_true_iff in E as [Eb2 Eb3].
  exists b1, rt1, w, rt2, b2, rt3, b3, rt4.
  split; [first [exact G1 | reflexivity]|]. split; [first [exact G2 | reflexivity]|].
  split; [first [exact G3 | reflexivity]|].
  split; [apply bool_decide_eq_true in Eb2; exact Eb2|].
  split; [apply Nat.eqb_eq, Ec|]. split; [first [exact G4 | reflexivity]|].
  apply negb_true_iff, bool_decide_eq_false in Eb3. exact Eb3.
Qed.


(** ** The piano profile *)

Section Piano.
Context `{Host}.

(** C7 (amended).  At each sample index the piano's wave function computes
    the square of the fundamental (modulation slot 0, phase 0) plus 0.75
    times the fundamental at phase 0.25 plus 0.1 times the fundamental at
    phase 0.5, and passes that sum as the phase argument of modulation slot 1.
    Slot 1 is [Math.sin(2 * Math.PI * (i / s * f) + x)]: a sine with the same
    factor [2 * Math.PI] as the fundamental, so the frequency is not doubled
    (the sine with factor [4 * Math.PI] sits in slot 2, which the piano does
    not use). *)
Theorem piano_wave_formula (i sampleRate frequency volume : number) (ws : WaveState) :
  let base x :=
    Math_sin (of_Z 2 * Math_PI * (i / sampleRate) * frequency + x)%js in
  let sum :=
    (Math_pow (base (of_Z 0)) (of_Z 2) + dec 75 2 * base (dec 25 2)
     + dec 1 1 * base (dec 5 1))%js in
  _mod (synth Synth) !! 0%nat = Some fundamental /\
  _mod (synth Synth) !! 1%nat = Some (harmonic (of_Z 2)) /\
  _mod (synth Synth) !! 2%nat = Some (harmonic (of_Z 4)) /\
  wave piano (_mod (synth Synth)) i sampleRate frequency volume ws
  = Return (Math_sin (of_Z 2 * Math_PI * (i / sampleRate * frequency) + sum)%js) ws.
Proof.
  intros base sum. split; [reflexivity|]. split; [reflexivity|].
  split; [reflexivity|].
  cbn [wave piano]. unfold modulate_at, mbind, M_bind.
  change (_mod (synth Synth)) with (fundamental :: default_modulations).
  reflexivity.
Qed.

End Piano.

(** C7 as stated fails: the value the piano's wave function returns is not
    the sine at twice the fundamental's factor, [Math.sin(4 * Math.PI * (i /
    s * f) + sum)]; shown at sample 1 of a 1 Hz tone at 4 samples per second
    on the concrete host. *)
Lemma piano_outer_not_doubled :
  let i := of_Z 1 in
  let s := of_Z 4 in
  let f := of_Z 1 in
  let base x := @fundamental demo_host i s f x in
  let sum :=
    (demo_pow (base (of_Z 0)) (of_Z 2) + dec 75 2 * base (dec 25 2)
     + dec 1 1 * base (dec 5 1))%js in
  wave_value (@piano demo_host) (_mod (synth demo_Synth)) i s f (of_Z 32767)
    = @harmonic demo_host (of_Z 2) i s f sum /\
  wave_value (@piano demo_host) (_mod (synth demo_Synth)) i s f (of_Z 32767)
    <> @harmonic demo_host (of_Z 4) i s f sum.
Proof.
  cbv zeta. split; [vm_compute; reflexivity|].
  vm_compute. intros E. discriminate E.
Qed.

(** ** Rounding to binary64 *)

Lemma fexp_eq (e : Z) : fexp prec emax e = Z.max (e - 53) (-1074).
Proof. reflexivity. Qed.

Lemma digits2_pos_size (p : positive) : digits2_pos p = Pos.size p.
Proof. induction p as [p IH|p IH|]; cbn; congruence. Qed.

Lemma Zdigits2_log2 (z : Z) : 0 < z -> Zdigits2 z = Z.log2 z + 1.
Proof.
  destruct z as [|p|p]; try lia. intros _. cbn [Zdigits2].
  rewrite digits2_pos_size. destruct p; cbn [Pos.size Z.log2]; lia.
Qed.

Lemma iter_pos_iter {A} (f : A -> A) (n : positive) (x : A) :
  SpecFloat.iter_pos f n x = Pos.iter f x n.
Proof.
  revert x. induction n as [n IH|n IH|]; intros x; cbn [SpecFloat.iter_pos Pos.iter].
  - rewrite !IH, Pos.iter_swap, Pos.iter_swap. reflexivity.
  - rewrite !IH. reflexivity.
  - reflexivity.
Qed.

Lemma shr_1_m (mrs : shr_record) :
  0 <= shr_m mrs -> shr_m (shr_1 mrs) = Z.div2 (shr_m mrs).
Proof. destruct mrs as [[|[p|p|]|p] r s]; cbn; intros; solve [reflexivity | lia]. Qed.

Lemma iter_shr_1_m (n : positive) (mrs : shr_record) :
  0 <= shr_m mrs ->
  shr_m (SpecFloat.iter_pos shr_1 n mrs) = Z.shiftr (shr_m mrs) (Zpos n).
Proof.
  intros Hm. rewrite iter_pos_iter.
  change (Z.shiftr (shr_m mrs) (Z.pos n)) with (Pos.iter Z.div2 (shr_m mrs) n).
  cut (0 <= shr_m (Pos.iter shr_1 mrs n) /\
       shr_m (Pos.iter shr_1 mrs n) = Pos.iter Z.div2 (shr_m mrs) n); [tauto|].
  induction n as [|n IH] using Pos.peano_ind.
  - cbn [Pos.iter]. rewrite shr_1_m by exact Hm. split; [|reflexivity].
    rewrite Z.div2_nonneg. exact Hm.
  - rewrite !Pos.iter_succ. destruct IH as [IH0 IH]. rewrite shr_1_m by exact IH0.
    rewrite IH. split; [|reflexivity]. rewrite Z.div2_nonneg, <- IH. exact IH0.
Qed.

(** What [shr_fexp] does to the mantissa and the exponent. *)
Lemma shr_fexp_spec (m e : Z) (l : location) (mrs : shr_record) (e' : Z) :
  0 <= m ->
  shr_fexp prec emax m e l = (mrs, e') ->
  let n := Z.max 0 (fexp prec emax (Zdigits2 m + e) - e) in
  shr_m mrs = Z.shiftr m n /\ e' = e + n.
Proof.
  intros Hm. unfold shr_fexp, shr.
  assert (Hl : shr_m (shr_record_of_loc m l) = m) by (destruct l as [|[]]; reflexivity).
  destruct (fexp prec emax (Zdigits2 m + e) - e) as [|p|p] eqn:En;
    intros [= <- <-]; cbn zeta.
  - rewrite Hl, Z.shiftr_0_r. lia.
  - rewrite iter_shr_1_m by lia. rewrite Hl. replace (Z.max 0 (Z.pos p)) with (Z.pos p) by lia.
    split; reflexivity.
  - rewrite Hl. replace (Z.max 0 (Z.neg p)) with 0 by lia. rewrite Z.shiftr_0_r. lia.
Qed.

Lemma round_nearest_even_range (m : Z) (l : location) :
  m <= round_nearest_even m l <= m + 1.
Proof.
  unfold round_nearest_even. destruct l as [|[]]; try lia. destruct (Z.even m); lia.
Qed.

(** Rounding a positive mantissa that does not need lengthening yields a
    binary64 number: its mantissa is canonical. *)
Lemma binary_round_aux_valid (sx : bool) (mx ex : Z) (lx : location) :
  0 < mx -> ex <= fexp prec emax (Zdigits2 mx + ex) ->
  valid_binary prec emax (binary_round_aux prec emax sx mx ex lx) = true.
Proof.
  intros Hmx Hex. unfold binary_round_aux.
  destruct (shr_fexp prec emax mx ex lx) as [mrs1 e1] eqn:E1.
  apply shr_fexp_spec in E1 as [M1 X1]; [|lia]. cbv zeta in M1, X1.
  pose proof (round_nearest_even_range (shr_m mrs1) (loc_of_shr_record mrs1)) as Hr.
  set (r := round_nearest_even (shr_m mrs1) (loc_of_shr_record mrs1)) in *.
  assert (H1 : 0 <= shr_m mrs1) by (rewrite M1; apply Z.shiftr_nonneg; lia).
  destruct (shr_fexp prec emax r e1 loc_Exact) as [mrs2 e2] eqn:E2.
  apply shr_fexp_spec in E2 as [M2 X2]; [|lia]. cbv zeta in M2, X2.
  destruct (shr_m mrs2) as [|m2|m2] eqn:Em2; [reflexivity| |reflexivity].
  destruct (Z.leb_spec e2 (emax - prec)) as [Hle|]; [|reflexivity].
  cbn [valid_binary]. unfold bounded, canonical_mantissa.
  apply andb_true_intro. split; [apply Z.eqb_eq|apply Z.leb_le; exact Hle].
  assert (Hr0 : 0 < r).
  { destruct (Z.eq_dec r 0) as [R0|]; [|lia]. rewrite R0, Z.shiftr_0_l in M2. discriminate M2. }
  rewrite (Zdigits2_log2 r Hr0) in M2, X2.
  rewrite (Zdigits2_log2 mx Hmx) in M1, X1, Hex.
  change (Z.pos (digits2_pos m2)) with (Zdigits2 (Z.pos m2)).
  rewrite Zdigits2_log2 by lia. rewrite M2.
  set (n2 := Z.max 0 (fexp prec emax (Z.log2 r + 1 + e1) - e1)) in *.
  assert (Hn2 : n2 <= Z.log2 r).
  { destruct (Z.lt_ge_cases (Z.log2 r) n2) as [L|]; [|lia].
    rewrite (Z.shiftr_eq_0 r n2) in M2 by lia. discriminate M2. }
  rewrite Z.log2_shiftr by exact Hr0.
  rewrite fexp_eq in *.
  assert (Hlog : e1 = -1074 \/ 52 <= Z.log2 r).
  { destruct (Z.eq_dec e1 (-1074)) as [|Ne]; [left; assumption|right].
    assert (Hs : 0 < shr_m mrs1).
    { destruct (Z.eq_dec (shr_m mrs1) 0) as [S0|]; [|lia].
      symmetry in M1. rewrite S0 in M1. apply Z.shiftr_eq_0_iff in M1. lia. }
    assert (L1 : Z.log2 (shr_m mrs1) = 52).
    { rewrite M1, Z.log2_shiftr by exact Hmx. lia. }
    rewrite <- L1. apply Z.log2_le_mono. lia. }
  subst n2. rewrite !fexp_eq in *. lia.
Qed.

Lemma Pos_iter_xO (m d : positive) : Z.pos (Pos.iter xO m d) = Z.pos m * 2 ^ Z.pos d.
Proof.
  induction d as [|d IH] using Pos.peano_ind.
  - cbn [Pos.iter]. lia.
  - rewrite Pos.iter_succ, Pos2Z.inj_xO, IH, Pos2Z.inj_succ, Z.pow_succ_r by lia. lia.
Qed.

Lemma shl_align_spec (m : positive) (e e' : Z) :
  snd (shl_align m e e') = Z.min e e' /\
  Z.pos (fst (shl_align m e e')) = Z.pos m * 2 ^ (e - Z.min e e').
Proof.
  unfold shl_align. destruct (e' - e) as [|d|d] eqn:Ed; cbn [fst snd].
  - replace (e - Z.min e e') with 0 by lia. lia.
  - replace (e - Z.min e e') with 0 by lia. lia.
  - rewrite Pos_iter_xO. replace (e - Z.min e e') with (Z.pos d) by lia. lia.
Qed.

Lemma binary_round_valid (sx : bool) (m : positive) (e : Z) :
  valid_binary prec emax (binary_round prec emax sx m e) = true.
Proof.
  unfold binary_round.
  pose proof (shl_align_spec m e (fexp prec emax (Z.pos (digits2_pos m) + e))) as [Se Sm].
  destruct (shl_align _ _ _) as [mz ez]. cbn [fst snd] in Se, Sm.
  change (Z.pos (digits2_pos m)) with (Zdigits2 (Z.pos m)) in Se, Sm.
  rewrite Zdigits2_log2, fexp_eq in Se, Sm by lia.
  apply binary_round_aux_valid; [lia|].
  rewrite Zdigits2_log2, fexp_eq by lia. rewrite Sm, Z.log2_mul_pow2 by lia. lia.
Qed.

Lemma binary_normalize_valid (z e : Z) (s : bool) :
  valid_binary prec emax (binary_normalize prec emax z e s) = true.
Proof. destruct z; [reflexivity|apply binary_round_valid..]. Qed.

Lemma of_Z_valid (z : Z) : valid_binary prec emax (of_Z z) = true.
Proof. apply binary_normalize_valid. Qed.

Lemma valid_finite_inv (s : bool) (m : positive) (e : Z) :
  valid_binary prec emax (S754_finite s m e) = true ->
  Z.max (Z.log2 (Z.pos m) + 1 + e - 53) (-1074) = e /\ e <= 971.
Proof.
  cbn [valid_binary]. unfold bounded, canonical_mantissa.
  intros [C B]%andb_true_iff. apply Z.eqb_eq in C. apply Z.leb_le in B.
  change (Z.pos (digits2_pos m)) with (Zdigits2 (Z.pos m)) in C.
  rewrite Zdigits2_log2, fexp_eq in C by lia. split; [exact C|exact B].
Qed.

Lemma sub_valid (x y : number) :
  valid_binary prec emax x = true -> valid_binary prec emax y = true ->
  valid_binary prec emax (x - y)%js = true.
Proof.
  intros Hx Hy. destruct x as [sx|sx| |sx mx ex], y as [sy|sy| |sy my ey];
    try (destruct sx, sy; reflexivity); try reflexivity; try assumption.
  apply binary_normalize_valid.
Qed.

Lemma add_valid (x y : number) :
  valid_binary prec emax x = true -> valid_binary prec emax y = true ->
  valid_binary prec emax (x + y)%js = true.
Proof.
  intros Hx Hy. destruct x as [sx|sx| |sx mx ex], y as [sy|sy| |sy my ey];
    try (destruct sx, sy; reflexivity); try reflexivity; try assumption.
  apply binary_normalize_valid.
Qed.

Lemma mul_valid (x y : number) :
  valid_binary prec emax x = true -> valid_binary prec emax y = true ->
  valid_binary prec emax (x * y)%js = true.
Proof.
  intros Hx Hy. destruct x as [sx|sx| |sx mx ex], y as [sy|sy| |sy my ey];
    try reflexivity.
  apply valid_finite_inv in Hx as [Hx _]. apply valid_finite_inv in Hy as [Hy _].
  unfold JS.mul, SFmul. apply binary_round_aux_valid; [lia|].
  rewrite Zdigits2_log2, fexp_eq by lia. rewrite Pos2Z.inj_mul.
  pose proof (Z.log2_mul_below (Z.pos mx) (Z.pos my)).
  pose proof (Z.log2_nonneg (Z.pos mx)). pose proof (Z.log2_nonneg (Z.pos my)). lia.
Qed.

(** Rounding a positive mantissa at an exponent in range does not reach
    zero. *)
Lemma binary_round_aux_pos (sx : bool) (mx ex : Z) (lx : location) :
  0 < mx -> -1074 <= ex ->
  binary_round_aux prec emax sx mx ex lx = S754_infinity sx \/
  exists m e, binary_round_aux prec emax sx mx ex lx = S754_finite sx m e.
Proof.
  intros Hmx Hex. unfold binary_round_aux.
  destruct (shr_fexp prec emax mx ex lx) as [mrs1 e1] eqn:E1.
  apply shr_fexp_spec in E1 as [M1 X1]; [|lia]. cbv zeta in M1, X1.
  pose proof (round_nearest_even_range (shr_m mrs1) (loc_of_shr_record mrs1)) as Hr.
  set (r := round_nearest_even (shr_m mrs1) (loc_of_shr_record mrs1)) in *.
  rewrite (Zdigits2_log2 mx Hmx), fexp_eq in M1, X1.
  pose proof (Z.log2_nonneg mx) as Hl.
  assert (H1 : 0 < shr_m mrs1).
  { assert (0 <= shr_m mrs1) by (rewrite M1; apply Z.shiftr_nonneg; lia).
    destruct (Z.eq_dec (shr_m mrs1) 0) as [S0|]; [|lia].
    symmetry in M1. rewrite S0 in M1. apply Z.shiftr_eq_0_iff in M1. lia. }
  destruct (shr_fexp prec emax r e1 loc_Exact) as [mrs2 e2] eqn:E2.
  apply shr_fexp_spec in E2 as [M2 X2]; [|lia]. cbv zeta in M2, X2.
  rewrite Zdigits2_log2, fexp_eq in M2, X2 by lia.
  pose proof (Z.log2_nonneg r) as Hlr.
  assert (H2 : 0 < shr_m mrs2).
  { assert (0 <= shr_m mrs2) by (rewrite M2; apply Z.shiftr_nonneg; lia).
    destruct (Z.eq_dec (shr_m mrs2) 0) as [S0|]; [|lia].
    symmetry in M2. rewrite S0 in M2. apply Z.shiftr_eq_0_iff in M2. lia. }
  destruct (shr_m mrs2) as [|m2|m2]; try lia.
  destruct (Z.leb _ _); eauto.
Qed.

Lemma binary_round_pos (sx : bool) (m : positive) (e : Z) :
  -1074 <= e ->
  binary_round prec emax sx m e = S754_infinity sx \/
  exists m' e', binary_round prec emax sx m e = S754_finite sx m' e'.
Proof.
  intros He. unfold binary_round.
  pose proof (shl_align_spec m e (fexp prec emax (Z.pos (digits2_pos m) + e))) as [Se Sm].
  destruct (shl_align _ _ _) as [mz ez]. cbn [fst snd] in Se, Sm.
  apply binary_round_aux_pos; [lia|]. rewrite fexp_eq in Se. lia.
Qed.

(** The sign of a rounded integer is the sign of the integer. *)
Lemma binary_normalize_gt_iff (z e : Z) :
  -1074 <= e ->
  JS.gt (binary_normalize prec emax z e false) (of_Z 0) = (0 <? z).
Proof.
  intros He. destruct z as [|p|p]; cbn [binary_normalize].
  - reflexivity.
  - destruct (binary_round_pos false p e He) as [->|(m' & e' & ->)]; reflexivity.
  - destruct (binary_round_pos true p e He) as [->|(m' & e' & ->)]; reflexivity.
Qed.

Lemma valid_mantissa_bound (s : bool) (m : positive) (e : Z) :
  valid_binary prec emax (S754_finite s m e) = true ->
  -1074 <= e /\ Z.pos m < 2 ^ 53 /\ (-1074 < e -> 2 ^ 52 <= Z.pos m).
Proof.
  intros [C _]%valid_finite_inv.
  pose proof (Z.log2_nonneg (Z.pos m)).
  split; [lia|]. split.
  - apply Z.log2_lt_pow2; lia.
  - intros He. apply Z.log2_le_pow2; lia.
Qed.

(** A difference is positive exactly when the minuend is the larger
    number. *)
Lemma sub_gt (a b : number) :
  valid_binary prec emax a = true -> valid_binary prec emax b = true ->
  a <> S754_nan -> b <> S754_nan ->
  JS.gt (a - b)%js (of_Z 0) = JS.gt a b.
Proof.
  intros Va Vb Na Nb.
  destruct a as [sa|sa| |sa ma ea], b as [sb|sb| |sb mb eb]; try congruence;
    try (destruct sa, sb; reflexivity).
  destruct (valid_mantissa_bound _ _ _ Va) as (Ea & Ua & La).
  destruct (valid_mantissa_bound _ _ _ Vb) as (Eb & Ub & Lb).
  unfold JS.sub, SFsub. rewrite binary_normalize_gt_iff by lia.
  destruct (shl_align_spec ma ea (Z.min ea eb)) as [_ ->].
  destruct (shl_align_spec mb eb (Z.min ea eb)) as [_ ->].
  replace (Z.min ea (Z.min ea eb)) with (Z.min ea eb) by lia.
  replace (Z.min eb (Z.min ea eb)) with (Z.min ea eb) by lia.
  unfold JS.gt, SFltb, SFcompare.
  change (Pos.compare_cont Eq mb ma) with (Pos.compare mb ma).
  assert (Hlt : forall m m' e e', Z.pos m' < 2 ^ 53 -> 2 ^ 52 <= Z.pos m -> e' < e ->
                  Z.pos m' * 2 ^ (e' - e') < Z.pos m * 2 ^ (e - e')).
  { intros m m' e e' U L He. rewrite Z.sub_diag, Z.pow_0_r, Z.mul_1_r.
    assert (2 ^ 1 <= 2 ^ (e - e')) by (apply Z.pow_le_mono_r; lia).
    change (2 ^ 1) with 2 in *. change (2 ^ 53) with 9007199254740992 in *.
    change (2 ^ 52) with 4503599627370496 in *. nia. }
  destruct (Z.compare_spec eb ea) as [->|Hc|Hc].
  - rewrite Z.min_id, Z.sub_diag, Z.pow_0_r, !Z.mul_1_r.
    destruct (Pos.compare_spec mb ma) as [->|Hm|Hm], sa, sb; cbn [cond_Zopp CompOpp];
      first [apply Z.ltb_lt; lia | apply Z.ltb_ge; lia].
  - replace (Z.min ea eb) with eb by lia.
    pose proof (Hlt ma mb ea eb Ub (La ltac:(lia)) Hc).
    destruct sa, sb; cbn [cond_Zopp];
      first [apply Z.ltb_lt; lia | apply Z.ltb_ge; lia].
  - replace (Z.min ea eb) with ea by lia.
    pose proof (Hlt mb ma eb ea Ua (Lb ltac:(lia)) Hc).
    destruct sa, sb; cbn [cond_Zopp];
      first [apply Z.ltb_lt; lia | apply Z.ltb_ge; lia].
Qed.

(** ** Exact operations *)

Lemma iter_shr_1_exact (n p : positive) :
  SpecFloat.iter_pos shr_1 n
    {| shr_m := Z.pos (Pos.iter xO p n); shr_r := false; shr_s := false |}
  = {| shr_m := Z.pos p; shr_r := false; shr_s := false |}.
Proof.
  rewrite iter_pos_iter. induction n as [|n IH] using Pos.peano_ind.
  - reflexivity.
  - rewrite Pos.iter_succ, <- Pos.iter_swap, Pos.iter_succ. exact IH.
Qed.

(** A canonical mantissa is left as it is. *)
Lemma binary_round_aux_canonical (sx : bool) (m : positive) (e : Z) :
  Z.log2 (Z.pos m) = 52 -> -1074 <= e <= 971 ->
  binary_round_aux prec emax sx (Z.pos m) e loc_Exact = S754_finite sx m e.
Proof.
  intros Hm He. unfold binary_round_aux, shr_fexp.
  rewrite Zdigits2_log2, fexp_eq by lia. rewrite Hm.
  replace (Z.max (52 + 1 + e - 53) (-1074) - e) with 0 by lia.
  cbn [shr shr_record_of_loc shr_m loc_of_shr_record round_nearest_even].
  rewrite Zdigits2_log2, fexp_eq by lia. rewrite Hm.
  replace (Z.max (52 + 1 + e - 53) (-1074) - e) with 0 by lia.
  cbn [shr shr_record_of_loc shr_m].
  destruct (Z.leb_spec e (emax - prec)) as [|Hgt]; [reflexivity|].
  change (emax - prec) with 971 in Hgt. lia.
Qed.

(** Doubling a normal number is exact. *)
Lemma mul_two (s : bool) (m : positive) (e : Z) :
  Z.log2 (Z.pos m) = 52 -> -1074 <= e ->
  (S754_finite s m e * of_Z 2)%js
  = if e + 1 <=? 971 then S754_finite s m (e + 1) else S754_infinity s.
Proof.
  intros Hm He. unfold JS.mul, SFmul.
  change (of_Z 2) with (S754_finite false 4503599627370496 (-51)). cbv iota beta.
  rewrite xorb_false_r.
  replace (m * 4503599627370496)%positive with (Pos.iter xO m 52)
    by (rewrite Pos.mul_comm; reflexivity).
  unfold binary_round_aux, shr_fexp.
  rewrite Zdigits2_log2, fexp_eq by lia.
  rewrite Pos_iter_xO, Z.log2_mul_pow2, Hm by lia.
  replace (Z.max (52 + 52 + 1 + (e + -51) - 53) (-1074) - (e + -51)) with 52 by lia.
  cbn [shr shr_record_of_loc]. rewrite <- Pos_iter_xO, iter_shr_1_exact.
  cbn [shr_m loc_of_shr_record round_nearest_even].
  rewrite Zdigits2_log2, fexp_eq by lia. rewrite Hm.
  replace (Z.max (52 + 1 + (e + -51 + 52) - 53) (-1074) - (e + -51 + 52)) with 0 by lia.
  cbn [shr shr_record_of_loc shr_m].
  replace (e + -51 + 52) with (e + 1) by lia. reflexivity.
Qed.

(** Integers below 2^53 are numbers. *)
Lemma of_Z_exact (p : positive) :
  Z.pos p < 2 ^ 53 ->
  exists mz ez,
    of_Z (Z.pos p) = S754_finite false mz ez /\
    Z.log2 (Z.pos mz) = 52 /\ -52 <= ez <= 0 /\ Z.pos mz = Z.pos p * 2 ^ (- ez).
Proof.
  intros Hp. unfold of_Z. cbn [binary_normalize]. unfold binary_round.
  pose proof (shl_align_spec p 0 (fexp prec emax (Z.pos (digits2_pos p) + 0))) as [Se Sm].
  destruct (shl_align _ _ _) as [mz ez]. cbn [fst snd] in Se, Sm.
  change (Z.pos (digits2_pos p)) with (Zdigits2 (Z.pos p)) in Se, Sm.
  rewrite Zdigits2_log2, fexp_eq in Se, Sm by lia.
  pose proof (Z.log2_nonneg (Z.pos p)) as H0.
  assert (H1 : Z.log2 (Z.pos p) < 53) by (apply Z.log2_lt_pow2; lia).
  assert (Hez : ez = Z.log2 (Z.pos p) - 52) by lia.
  replace (0 - Z.min 0 (Z.max (Z.log2 (Z.pos p) + 1 + 0 - 53) (-1074))) with (- ez)
    in Sm by lia.
  assert (Hl : Z.log2 (Z.pos mz) = 52) by (rewrite Sm, Z.log2_mul_pow2; lia).
  exists mz, ez. rewrite binary_round_aux_canonical by lia.
  repeat split; try lia.
Qed.

Lemma magnitude_floor_exact (mz p : positive) (k e : Z) :
  Z.pos mz = Z.pos p * 2 ^ k -> 0 <= k -> 0 <= k + e ->
  magnitude_floor mz e = Z.pos p * 2 ^ (k + e).
Proof.
  intros Hm Hk Hke. unfold magnitude_floor. destruct e as [|q|q].
  - rewrite Z.shiftl_0_r, Z.add_0_r. exact Hm.
  - rewrite Z.shiftl_mul_pow2, Hm, Z.pow_add_r by lia. lia.
  - rewrite Z.shiftr_div_pow2, Hm by lia.
    replace k with ((k + Z.neg q) + Z.pos q) at 1 by lia.
    rewrite Z.pow_add_r, Z.mul_assoc, Z.div_mul by lia. reflexivity.
Qed.

(** The byte count [samples * 2] of [generateSilence] is twice the sample
    count whenever [Buffer.alloc] accepts it. *)
Lemma floor_double (y : number) :
  valid_binary prec emax y = true ->
  JS.le (of_Z 0) y = true ->
  JS.le (Math_floor y * of_Z 2)%js (of_Z kMaxLength) = true ->
  JS.le (of_Z 0) (Math_floor y * of_Z 2)%js = true /\
  0 <= trunc (Math_floor y) /\
  trunc (Math_floor y * of_Z 2)%js = 2 * trunc (Math_floor y).
Proof.
  intros Vy Py.
  destruct y as [s|s| |s m e]; try discriminate Py.
  - intros _. destruct s; cbn; repeat split; reflexivity || lia.
  - destruct s; [discriminate Py|]. intros B. discriminate B.
  - destruct s; [discriminate Py|].
    destruct (valid_mantissa_bound _ _ _ Vy) as (He & Um & Lm).
    assert (Big : 0 <= e ->
              JS.le (S754_finite false m e * of_Z 2)%js (of_Z kMaxLength) = false).
    { intros He'. rewrite mul_two; [|apply Z.log2_unique; [lia|]|lia].
      - destruct (Z.leb_spec (e + 1) 971); [|reflexivity].
        unfold JS.le, SFleb. change (of_Z kMaxLength) with (S754_finite false 9007199254740991 0).
        cbn [SFcompare]. destruct (Z.compare_spec (e + 1) 0); try lia; reflexivity.
      - change (Z.succ 52) with 53. split; [apply Lm|]; lia. }
    destruct e as [|q|q]; cbn [Math_floor].
    + intros B. rewrite Big in B by lia. discriminate B.
    + intros B. rewrite Big in B by lia. discriminate B.
    + cbn [floorZ cond_Zopp].
      assert (Hz : 0 <= Z.pos m / 2 ^ Z.pos q < 2 ^ 53).
      { split; [apply Z.div_pos; lia|].
        apply Z.le_lt_trans with (Z.pos m); [|exact Um].
        apply Z.div_le_upper_bound; [lia|]. 
        assert (1 <= 2 ^ Z.pos q) by lia. nia. }
      destruct (Z.pos m / 2 ^ Z.pos q) as [|p|p]; try lia.
      * intros _. cbn. repeat split; reflexivity || lia.
      * intros _. destruct (of_Z_exact p) as (mz & ez & -> & Hl & Hez & Hmz); [lia|].
        rewrite mul_two by lia.
        destruct (Z.leb_spec (ez + 1) 971); [|lia].
        cbn [trunc cond_Zopp].
        rewrite (magnitude_floor_exact mz p (- ez) ez Hmz) by lia.
        rewrite (magnitude_floor_exact mz p (- ez) (ez + 1) Hmz) by lia.
        replace (- ez + ez) with 0 by lia. replace (- ez + (ez + 1)) with 1 by lia.
        split; [reflexivity|]. lia.
Qed.

(** ** The sign of a difference *)

Lemma gt_zero_sign (x : number) :
  JS.gt x (of_Z 0) = true ->
  x = S754_infinity false \/ exists m e, x = S754_finite false m e.
Proof.
  destruct x as [s|[|]| |[|] m e]; try discriminate; eauto.
Qed.

Lemma binary_round_sign (sx : bool) (m : positive) (e : Z) :
  match binary_round prec emax sx m e with
  | S754_zero s | S754_infinity s | S754_finite s _ _ => s = sx
  | S754_nan => True
  end.
Proof.
  unfold binary_round. destruct (shl_align _ _ _) as [mz ez].
  apply binary_round_aux_sign.
Qed.

Lemma binary_normalize_gt (z e : Z) :
  JS.gt (binary_normalize prec emax z e false) (of_Z 0) = true -> 0 < z.
Proof.
  destruct z as [|p|p]; cbn [binary_normalize]; [discriminate|lia|].
  pose proof (binary_round_sign true p e) as S.
  destruct (binary_round _ _ _ _ _) as [s|s| |s m' e']; try discriminate;
    subst s; discriminate.
Qed.

(** [a - b > 0] and [b - a > 0] never hold together. *)
Lemma sub_gt_asym (a b : number) :
  JS.gt (a - b)%js (of_Z 0) = true -> JS.gt (b - a)%js (of_Z 0) = false.
Proof.
  destruct a as [sa|sa| |sa ma ea], b as [sb|sb| |sb mb eb].
  16: { unfold JS.sub, SFsub. intros G. apply binary_normalize_gt in G.
        destruct (JS.gt _ _) eqn:G'; [|reflexivity].
        apply binary_normalize_gt in G'. rewrite (Z.min_comm eb ea) in G'. lia. }
  all: try (destruct sa); try (destruct sb);
    solve [intros _; reflexivity | intros G; discriminate G].
Qed.

Lemma SFeqb_inv (a b : number) :
  SFeqb a b = true ->
  a = b /\ a <> S754_nan \/ exists s s', a = S754_zero s /\ b = S754_zero s'.
Proof.
  unfold SFeqb.
  destruct a as [sa|sa| |sa ma ea], b as [sb|sb| |sb mb eb]; cbn;
    try discriminate; eauto;
    try (destruct sa, sb; try discriminate; intros _; left; split; congruence);
    try (destruct sa; discriminate); try (destruct sb; discriminate).
  destruct sa, sb; try discriminate;
    destruct (Z.compare_spec ea eb); try discriminate;
    change (Pos.compare_cont Eq ma mb) with (Pos.compare ma mb);
    destruct (Pos.compare_spec ma mb); try discriminate;
    intros _; left; split; congruence.
Qed.

Lemma sub_self_gt (a : number) : JS.gt (a - a)%js (of_Z 0) = false.
Proof.
  destruct (JS.gt _ _) eqn:G; [|reflexivity].
  rewrite (sub_gt_asym _ _ G) in G. discriminate G.
Qed.

(** Numbers that are [==] do not exceed each other. *)
Lemma sub_eq_gt (a b : number) :
  SFeqb a b = true -> JS.gt (a - b)%js (of_Z 0) = false.
Proof.
  intros E. apply SFeqb_inv in E as [[<- _]|(s & s' & -> & ->)].
  - apply sub_self_gt.
  - destruct s, s'; reflexivity.
Qed.

Lemma SFeqb_trans_sym (a b t : number) :
  SFeqb a t = true -> SFeqb b t = true -> SFeqb a b = true.
Proof.
  intros Ea Eb.
  apply SFeqb_inv in Ea as [[-> Na]|(s & s' & -> & ->)];
    apply SFeqb_inv in Eb as [[-> Nb]|(s1 & s1' & E1 & E2)].
  - destruct t as [s|s| |s m e]; cbn; try congruence; try (destruct s; reflexivity).
    unfold SFeqb. cbn. destruct s; rewrite Z.compare_refl;
      change (Pos.compare_cont Eq m m) with (Pos.compare m m);
      rewrite Pos.compare_refl; reflexivity.
  - subst. reflexivity.
  - reflexivity.
  - subst. reflexivity.
Qed.

(** ** The size of a rendered note *)

Section Sizes.
Context `{Host}.

(** What a render returns has the size of its sample count. *)
Lemma render_sized (this : AudioSynth) (thisSound : SoundProfile) (soundID o : Z)
    (note : string) (d frequency : number) (rt rt' : Runtime) (wav : Buffer) :
  render this thisSound soundID o note d frequency rt = Return wav rt' ->
  sized this d wav.
Proof.
  unfold render, sized. cbv zeta.
  set (sampleRate := of_Z (_sampleRate this)).
  set (volume := of_Z (_volume this)).
  set (att := attack thisSound sampleRate frequency volume).
  set (attackLen := ToInt32 (sampleRate * att)%js).
  set (decayLen := ToInt32 (sampleRate * d)%js).
  unfold mbind at 1, M_bind at 1.
  unfold new_Int16Array, _channels, _bitsPerSample. change (16 / 8) with 2.
  rewrite Z.mul_1_r.
  destruct (Z.ltb_spec (decayLen * 2) 0) as [|Hd]; cbn [lift_result];
    [discriminate|].
  rewrite Z.div_mul by lia.
  unfold mret at 1, M_ret at 1. unfold mbind at 1, M_bind at 1.
  destruct (for_loop _ _ _ _ rt) as [data1 rt1|e rt1|] eqn:L1; [|discriminate..].
  apply sample_loop_length in L1.
  unfold mbind at 1, M_bind at 1.
  destruct (for_loop _ _ _ _ rt1) as [data2 rt2|e rt2|] eqn:L2; [|discriminate..].
  apply sample_loop_length in L2.
  unfold mbind at 1, M_bind at 1.
  destruct (_createWav_cases this (Int16Array_bytes data2))
    as [(wav0 & W & Hsr & Hlen)|W]; rewrite W; cbn [lift_result]; [|discriminate].
  unfold mret at 1, M_ret at 1. unfold mbind at 1, M_bind at 1.
  destruct (store_buffer _ _ _ _ _ rt2) as [[] rt3|e rt3|]; [|discriminate..].
  unfold mret, M_ret. intros [= <- _].
  rewrite _createWav_ok in W by assumption. injection W as <-.
  rewrite Int16Array_bytes_length, L2, L1, length_replicate in Hlen.
  split; [lia|].
  cbn [length]. rewrite Int16Array_bytes_length, L2, L1, length_replicate.
  fold decayLen. lia.
Qed.

(** A render whose sample count is above [2^31 - 19] runs both loops and
    then fails on the header. *)
Lemma render_too_long (this : AudioSynth) (p : SoundProfile) (soundID o : Z)
    (note : string) (d frequency : number) (rt : Runtime) :
  wave_total p (_mod (synth rt)) ->
  2 ^ 31 - 19 < ToInt32 (of_Z (_sampleRate this) * d)%js ->
  exists rt', render this p soundID o note d frequency rt = Raise RangeError rt'.
Proof.
  intros Ht Hd. unfold render. cbv zeta.
  set (sampleRate := of_Z (_sampleRate this)) in *.
  set (volume := of_Z (_volume this)).
  set (att := attack p sampleRate frequency volume).
  set (attackLen := ToInt32 (sampleRate * att)%js).
  set (decayLen := ToInt32 (sampleRate * d)%js) in *.
  unfold mbind at 1, M_bind at 1.
  assert (Ha : new_Int16Array (decayLen * _channels * (_bitsPerSample / 8))
               = Ok (replicate (Z.to_nat decayLen) 0)).
  { unfold new_Int16Array, _channels, _bitsPerSample.
    change (16 / 8) with 2. rewrite Z.mul_1_r.
    destruct (Z.ltb_spec (decayLen * 2) 0); [lia|].
    rewrite Z.div_mul by lia. reflexivity. }
  rewrite Ha. cbn [lift_result]. unfold mret at 1, M_ret at 1.
  unfold mbind at 1, M_bind at 1.
  match goal with |- context [for_loop ?n ?i ?b ?dt rt] =>
    destruct (sample_loop_returns p sampleRate frequency volume
                (attack_val volume sampleRate att) n i dt rt Ht)
      as (data1 & rt1 & E1);
    pose proof (sample_loop_final (wave p) sampleRate frequency volume
                  (attack_val volume sampleRate att) n i dt rt) as F1
  end.
  rewrite E1 in F1 |- *. destruct F1 as [S1 _].
  pose proof (sample_loop_length _ _ _ _ _ _ _ _ _ _ _ E1) as L1.
  destruct (same_engine_fields _ _ S1) as (_ & _ & _ & _ & M1 & C1).
  unfold mbind at 1, M_bind at 1.
  match goal with |- context [for_loop ?n ?i ?b data1 rt1] =>
    destruct (sample_loop_returns p sampleRate frequency volume
                (decay_val volume sampleRate att
                   (dampen p sampleRate frequency volume) d attackLen)
                n i data1 rt1 ltac:(rewrite M1; exact Ht))
      as (data2 & rt2 & E2)
  end.
  rewrite E2.
  pose proof (sample_loop_length _ _ _ _ _ _ _ _ _ _ _ E2) as L2.
  unfold mbind at 1, M_bind at 1.
  destruct (_createWav_cases this (Int16Array_bytes data2))
    as [(wav0 & W & Hsr & Hlen)|W]; rewrite W; cbn [lift_result].
  - rewrite Int16Array_bytes_length, L2, L1, length_replicate in Hlen. lia.
  - eexists. reflexivity.
Qed.

Lemma sized_settings (a a' : AudioSynth) (d : number) (wav : Buffer) :
  _sampleRate a' = _sampleRate a -> sized a d wav -> sized a' d wav.
Proof. unfold sized. intros ->. trivial. Qed.

Lemma cache_sized_generate (sound : SoundID) (note : string) (octave duration : number)
    (rt rt' : Runtime) :
  full_rows (_fileCache (synth rt)) ->
  cache_sized rt ->
  final_state (generate sound note octave duration rt) = Some rt' ->
  cache_sized rt'.
Proof.
  intros Hfull Hinv Hf.
  pose proof (generate_final _ _ _ _ _ _ Hfull Hf) as (_ & F2 & _).
  assert (Hsame : _fileCache (synth rt') = _fileCache (synth rt) -> cache_sized rt').
  { intros Hc soundID o n d b Hl. rewrite Hc in Hl.
    apply (sized_settings (synth rt)); [exact F2|]. eapply Hinv, Hl. }
  pose proof (generate_outcome sound note octave duration rt) as O. cbv zeta in O.
  destruct (generate _ _ _ _ rt) as [wav r|e r|]; cbn [final_state] in Hf;
    [| |discriminate]; injection Hf as ->.
  2:{ apply Hsame. apply same_engine_fields in O as (_ & _ & _ & _ & _ & F6).
      exact F6. }
  destruct O as (p0 & Hp0 & Hj & [[Hc ->]|(Hc & Er & rt1 & S1 & _ & St)]).
  { apply Hsame. reflexivity. }
  pose proof (same_engine_builtins _ _ S1) as Hb.
  pose proof (same_engine_fields _ _ S1) as (_ & _ & _ & _ & _ & Hcache).
  assert (Hf1 : full_rows (_fileCache (synth rt1))) by (rewrite Hcache; exact Hfull).
  assert (Hmiss1 : cached rt1 (_findSound (synth rt) sound) (clamp_octave octave)
                     note (duration_key duration) = None).
  { unfold cached in *. rewrite Hcache, Hb. exact Hc. }
  destruct (store_buffer_effect _ _ _ _ _ _ _ Hf1 (clamp_octave_range octave)
              Hmiss1 St) as (_ & _ & _ & _ & _ & _ & _ & Hown & _).
  intros soundID o n d b Hl.
  apply (sized_settings (synth rt)); [exact F2|].
  destruct (Hown _ _ _ _ _ Hl) as [Hold|(-> & E1 & E2 & -> & ->)].
  - rewrite Hcache in Hold. eapply Hinv, Hold.
  - eapply render_sized, Er.
Qed.

Lemma reachable_cache_sized (rt : Runtime) : reachable rt -> cache_sized rt.
Proof.
  induction 1 as [rt E _|rt rt' c Hr IH Ha].
  - intros soundID o note d b Hl. rewrite E in Hl.
    exfalso. revert Hl.
    change (_fileCache (synth Synth)) with (replicate 4 octaveList).
    unfold cache_own.
    destruct (replicate 4 octaveList !! Z.to_nat soundID) as [octaves|] eqn:E1;
      [|discriminate].
    apply lookup_replicate in E1 as [-> _]. cbn [mbind option_bind].
    destruct (octaveList !! Z.to_nat (o - 1)) as [noteList|] eqn:E2; [|discriminate].
    apply lookup_replicate in E2 as [-> _]. cbn [mbind option_bind].
    rewrite lookup_empty. discriminate.
  - assert (Hclear : forall a, synth rt' = _clearCache a -> cache_sized rt').
    { intros a E soundID o n d b Hl. rewrite E, cache_own_clear in Hl.
      discriminate Hl. }
    destruct c as [sound note octave duration|r|v|]; cbn [after] in Ha.
    + apply reachable_standard in Hr as (_ & _ & _ & _ & Hfull).
      eapply cache_sized_generate; eassumption.
    + injection Ha as <-. eapply Hclear. reflexivity.
    + injection Ha as <-. eapply Hclear. reflexivity.
    + injection Ha as <-. exact IH.
Qed.

(** In a reachable state in which [Object.prototype] holds no buffer, what
    [generate] returns for a note name of [_notes], from the cache or
    freshly rendered, has the size of the request at the present sample
    rate. *)
Lemma generate_sized (sound : SoundID) (note : string) (octave duration : number)
    (rt rt' : Runtime) (wav : Buffer) :
  reachable rt -> unpolluted rt -> is_Some (_notes !! note) ->
  generate sound note octave duration rt = Return wav rt' ->
  sized (synth rt) (duration_key duration) wav.
Proof.
  intros Hr Hu Hn G.
  pose proof (reachable_cache_sized rt Hr) as Hinv.
  pose proof (generate_outcome sound note octave duration rt) as O. cbv zeta in O.
  rewrite G in O.
  destruct O as (p0 & Hp0 & Hj & [[Hc ->]|(Hc & Er & _)]).
  - unfold cached in Hc. rewrite cache_lookup_unpolluted in Hc.
    + eapply Hinv, Hc.
    + exact Hu.
    + intros Hi. apply _notes_not_inherited in Hi. destruct Hn as [base Hn].
      congruence.
  - eapply render_sized, Er.
Qed.

Lemma render_alloc_fails (this : AudioSynth) (p : SoundProfile) (soundID o : Z)
    (note : string) (d frequency : number) (rt : Runtime) :
  ToInt32 (of_Z (_sampleRate this) * d)%js < 0 ->
  render this p soundID o note d frequency rt = Raise RangeError rt.
Proof.
  intros Hd. unfold render. cbv zeta. unfold mbind at 1, M_bind at 1.
  unfold new_Int16Array, _channels, _bitsPerSample. change (16 / 8) with 2.
  destruct (Z.ltb_spec (ToInt32 (of_Z (_sampleRate this) * d)%js * 1 * 2) 0); [|lia].
  reflexivity.
Qed.

(** In a reachable state in which [Object.prototype] holds no buffer, a
    request for a note name of [_notes] whose sample count is negative or
    above [2^31 - 19] ends in a RangeError. *)
Lemma generate_range_error (sound : SoundID) (note : string)
    (octave duration : number) (rt : Runtime) (p : SoundProfile) :
  reachable rt -> unpolluted rt ->
  sound_at (synth rt) (_findSound (synth rt) sound) = Some p ->
  is_Some (_notes !! note) ->
  ToInt32 (of_Z (_sampleRate (synth rt)) * duration_key duration)%js < 0 \/
  2 ^ 31 - 19 < ToInt32 (of_Z (_sampleRate (synth rt)) * duration_key duration)%js ->
  exists rt', generate sound note octave duration rt = Raise RangeError rt'.
Proof.
  intros Hr Hu Hp Hn Hbad.
  pose proof (reachable_standard rt Hr) as Hstd.
  destruct (standard_sound_at _ _ _ Hstd Hp) as [Hin _].
  destruct Hstd as (_ & Hm & _).
  pose proof (reachable_cache_sized rt Hr) as Hinv.
  assert (Hown : note ∉ Object_prototype).
  { intros Hi. apply _notes_not_inherited in Hi. destruct Hn as [base Hn].
    congruence. }
  rewrite generate_unfold. cbv zeta. rewrite Hp.
  destruct Hn as [base Hn]. unfold js_get. rewrite Hn.
  destruct (cache_lookup _ _ _ _ _ _) as [b|] eqn:Hc.
  - exfalso. rewrite cache_lookup_unpolluted in Hc by assumption.
    destruct (Hinv _ _ _ _ _ Hc) as [Hs _]. cbv zeta in Hs. lia.
  - destruct Hbad as [Hneg|Hbig].
    + eexists. apply render_alloc_fails. exact Hneg.
    + apply render_too_long; [|exact Hbig].
      cbn. rewrite Hm. apply default_profiles_total, Hin.
Qed.

(** C9 (amended).  In every state the engine can reach, for each of its
    sounds, each of the twelve note names and every positive duration, the
    attack sample count [(sampleRate * attack) | 0] is non-negative, and
    with [samples = (sampleRate * duration) | 0] for the decay sample
    count:
    - when [floor(sampleRate * duration)] is at most [2^31 - 19], [samples]
      is that number, it is non-negative, whether or not the duration
      exceeds the attack time, and [generate] returns a buffer;
    - whenever [0 <= samples <= 2^31 - 19], [generate] returns a buffer;
    and where no buffer has been stored on [Object.prototype],
    - what [generate] returns has [samples] in that range and is 44 bytes
      and two more for each of the [samples] samples long;
    - when [samples] is negative or above [2^31 - 19], [generate] throws a
      RangeError.
    So [generate] returns exactly when the wrapped count is in
    [[0, 2^31 - 19]], which for [sampleRate * duration >= 2^31] may or may
    not be the case. *)
Theorem short_note_completes (rt : Runtime) (sound : SoundID) (note : string)
    (octave duration : number) (p : SoundProfile) :
  reachable rt ->
  sound_at (synth rt) (_findSound (synth rt) sound) = Some p ->
  is_Some (_notes !! note) ->
  JS.gt duration (of_Z 0) = true ->
  let sampleRate := of_Z (_sampleRate (synth rt)) in
  let samples := ToInt32 (sampleRate * duration)%js in
  (forall frequency volume,
     0 <= ToInt32 (sampleRate * attack p sampleRate frequency volume)%js) /\
  (trunc (sampleRate * duration)%js <= 2 ^ 31 - 19 ->
   samples = trunc (sampleRate * duration)%js /\ 0 <= samples /\
   exists wav rt', generate sound note octave duration rt = Return wav rt') /\
  (0 <= samples <= 2 ^ 31 - 19 ->
   exists wav rt', generate sound note octave duration rt = Return wav rt') /\
  (unpolluted rt ->
   forall wav rt',
     generate sound note octave duration rt = Return wav rt' ->
     0 <= samples <= 2 ^ 31 - 19 /\
     Z.of_nat (length wav) = 44 + 2 * samples) /\
  (unpolluted rt ->
   samples < 0 \/ 2 ^ 31 - 19 < samples ->
   exists rt', generate sound note octave duration rt = Raise RangeError rt').
Proof.
  intros Hr Hp Hn Hpos sampleRate samples. subst sampleRate samples.
  pose proof (reachable_standard rt Hr) as Hstd.
  destruct (standard_sound_at _ _ _ Hstd Hp) as [Hin _].
  pose proof Hstd as (_ & _ & _ & Hsr & Hfull).
  pose proof (duration_key_positive _ Hpos) as Hk.
  split; [|split; [|split; [|split]]].
  - intros frequency volume. apply attack_len_default; [|exact Hsr].
    apply default_profiles_attack, Hin.
  - intros Hfit.
    pose proof (of_Z_nonneg_trunc_mul (_sampleRate (synth rt)) duration
                  ltac:(lia) Hpos) as Hge.
    rewrite ToInt32_trunc by lia.
    split; [reflexivity|]. split; [exact Hge|].
    apply (generate_returns sound note octave duration rt p Hstd Hp Hn).
    rewrite Hk, ToInt32_trunc by lia. lia.
  - intros Hfit.
    apply (generate_returns sound note octave duration rt p Hstd Hp Hn).
    rewrite Hk. exact Hfit.
  - intros Hu wav rt' G.
    pose proof (generate_sized sound note octave duration rt rt' wav Hr Hu Hn G) as S.
    unfold sized in S. rewrite Hk in S. exact S.
  - intros Hu Hbad.
    apply (generate_range_error sound note octave duration rt p Hr Hu Hp Hn).
    rewrite Hk. exact Hbad.
Qed.

End Sizes.

(** The theorem on the boundary case of the specification: a 0.1 s note on
    the organ, whose attack lasts 0.3 s, in the engine as loaded. *)
Lemma short_note_completes_witness :
  (forall frequency volume,
     0 <= ToInt32 (of_Z 44100 * attack organ (of_Z 44100) frequency volume)%js) /\
  ToInt32 (of_Z 44100 * dec 1 1)%js = 4410 /\
  exists wav rt',
    generate (H := demo_host) (SoundName "organ") "C" (of_Z 4) (dec 1 1) demo_Synth
    = Return wav rt' /\
    Z.of_nat (length wav) = 44 + 2 * 4410.
Proof.
  pose proof (short_note_completes (H := demo_host) demo_Synth (SoundName "organ") "C"
                (of_Z 4) (dec 1 1) organ
                (reachable_start _ eq_refl eq_refl) eq_refl
                (ex_intro _ (dec 26163 2) eq_refl) eq_refl) as W.
  cbv zeta in W. destruct W as (W1 & W2 & _ & W4 & _).
  split; [exact W1|]. split; [vm_compute; reflexivity|].
  destruct W2 as (_ & _ & wav & rt' & G); [apply Z.leb_le; vm_compute; reflexivity|].
  exists wav, rt'. split; [exact G|].
  destruct (W4 eq_refl wav rt' G) as [_ L]. exact L.
Defined.

(** C9 as stated fails for a positive duration of 50000 s: the decay sample
    count [(44100 * 50000) | 0] wraps to a negative number and [generate]
    throws when it allocates the samples. *)
Lemma long_note_fails :
  JS.gt (of_Z 50000) (of_Z 0) = true /\
  ToInt32 (of_Z 44100 * duration_key (of_Z 50000))%js = -2089967296 /\
  generate (H := demo_host) (SoundName "piano") "C" (of_Z 4) (of_Z 50000) demo_Synth
  = Raise RangeError (on_synth (set_temp empty_vars) demo_Synth).
Proof.
  split; [vm_compute; reflexivity|]. split; [vm_compute; reflexivity|].
  rewrite generate_unfold. cbv zeta.
  change (sound_at (synth demo_Synth) (_findSound (synth demo_Synth) (SoundName "piano")))
    with (Some (@piano demo_host)).
  assert (js_get _notes "C" = Own (dec 26163 2)) as -> by (vm_compute; reflexivity).
  assert (cache_lookup (builtins demo_Synth) (_fileCache (synth demo_Synth))
            (_findSound (synth demo_Synth) (SoundName "piano"))
            (clamp_octave (of_Z 4)) "C" (duration_key (of_Z 50000)) = None) as ->
    by (vm_compute; reflexivity).
  apply render_alloc_fails. vm_compute. reflexivity.
Qed.

(** A longer note need not fail: at 100000 s the count [(44100 * 100000) | 0]
    wraps to 115032704, and [generate] returns a buffer of that many
    samples, some 2608 s of sound. *)
Lemma wrapped_note_returns :
  ToInt32 (of_Z 44100 * duration_key (of_Z 100000))%js = 115032704 /\
  exists wav rt',
    generate (H := demo_host) (SoundName "piano") "C" (of_Z 4) (of_Z 100000) demo_Synth
    = Return wav rt' /\
    Z.of_nat (length wav) = 44 + 2 * 115032704.
Proof.
  assert (E : ToInt32 (of_Z 44100 * duration_key (of_Z 100000))%js = 115032704)
    by (vm_compute; reflexivity).
  split; [exact E|].
  destruct (generate_returns (H := demo_host) (SoundName "piano") "C" (of_Z 4)
              (of_Z 100000) demo_Synth (@piano demo_host))
    as (wav & rt' & G).
  - apply standard_Synth. reflexivity.
  - reflexivity.
  - eexists. vm_compute. reflexivity.
  - change (_sampleRate (synth demo_Synth)) with 44100. rewrite E. lia.
  - exists wav, rt'. split; [exact G|].
    destruct (generate_sized (H := demo_host) (SoundName "piano") "C" (of_Z 4)
                (of_Z 100000) demo_Synth rt' wav
                (reachable_start _ eq_refl eq_refl) eq_refl
                (ex_intro _ (dec 26163 2) eq_refl) G) as [_ L].
    cbv zeta in L. change (_sampleRate (synth demo_Synth)) with 44100 in L.
    rewrite E in L. exact L.
Qed.

(** ** The order of the numbers *)

Lemma SFltb_key (x y : number) :
  x <> S754_nan -> y <> S754_nan ->
  (SFltb x y = true <-> key_lt (order_key x) (order_key y)).
Proof.
  intros Nx Ny. unfold SFltb, key_lt.
  destruct x as [sx|sx| |sx mx ex], y as [sy|sy| |sy my ey]; try congruence.
  9:{ destruct sx, sy; cbn [SFcompare order_key fst snd];
        change (Pos.compare_cont Eq mx my) with (Pos.compare mx my);
        try solve [split; [discriminate|lia] | split; [intros _; lia|reflexivity]];
        destruct (Z.compare_spec ex ey); cbn [CompOpp];
        try solve [split; [discriminate|lia] | split; [intros _; lia|reflexivity]];
        destruct (Pos.compare_spec mx my); cbn [CompOpp];
        try solve [split; [discriminate|lia] | split; [intros _; lia|reflexivity]]. }
  all: try (destruct sx); try (destruct sy); cbn [SFcompare order_key fst snd];
    try solve [split; [discriminate|lia] | split; [intros _; lia|reflexivity]].
Qed.

Lemma key_lt_irrefl (k : Z * Z * Z) : ~ key_lt k k.
Proof. unfold key_lt. lia. Qed.

Lemma key_lt_trans (i j k : Z * Z * Z) : key_lt i j -> key_lt j k -> key_lt i k.
Proof. unfold key_lt. lia. Qed.

Lemma key_eq_trans (i j k : Z * Z * Z) :
  ~ key_lt i j -> ~ key_lt j i -> ~ key_lt j k -> ~ key_lt k j ->
  ~ key_lt i k /\ ~ key_lt k i.
Proof. unfold key_lt. lia. Qed.

(** ** The sign of a difference, continued *)

Lemma binary_normalize_lt_iff (z e : Z) :
  -1074 <= e ->
  JS.lt (binary_normalize prec emax z e false) (of_Z 0) = (z <? 0).
Proof.
  intros He. destruct z as [|p|p]; cbn [binary_normalize].
  - reflexivity.
  - destruct (binary_round_pos false p e He) as [->|(m' & e' & ->)]; reflexivity.
  - destruct (binary_round_pos true p e He) as [->|(m' & e' & ->)]; reflexivity.
Qed.

Lemma binary_normalize_not_nan (z e : Z) :
  -1074 <= e -> binary_normalize prec emax z e false <> S754_nan.
Proof.
  intros He. destruct z as [|p|p]; cbn [binary_normalize].
  - discriminate.
  - destruct (binary_round_pos false p e He) as [->|(m' & e' & ->)]; discriminate.
  - destruct (binary_round_pos true p e He) as [->|(m' & e' & ->)]; discriminate.
Qed.

(** A difference of finite numbers is a number, not NaN. *)
Lemma sub_not_nan (a b : number) :
  binary64 a -> binary64 b -> isFinite a = true -> isFinite b = true ->
  (a - b)%js <> S754_nan.
Proof.
  intros Va Vb Fa Fb.
  destruct a as [sa|sa| |sa ma ea], b as [sb|sb| |sb mb eb]; try discriminate;
    try (destruct sa, sb; discriminate); try (destruct sb; discriminate).
  destruct (valid_mantissa_bound _ _ _ Va) as (Ea & _).
  destruct (valid_mantissa_bound _ _ _ Vb) as (Eb & _).
  unfold JS.sub, SFsub. apply binary_normalize_not_nan. lia.
Qed.

(** [a - b < 0] exactly when [b - a > 0]. *)
Lemma sub_lt_gt (a b : number) :
  binary64 a -> binary64 b ->
  JS.lt (a - b)%js (of_Z 0) = JS.gt (b - a)%js (of_Z 0).
Proof.
  intros Va Vb.
  destruct a as [sa|sa| |sa ma ea], b as [sb|sb| |sb mb eb];
    try reflexivity; try (destruct sa, sb; reflexivity);
    try (destruct sa; reflexivity); try (destruct sb; reflexivity).
  destruct (valid_mantissa_bound _ _ _ Va) as (Ea & _).
  destruct (valid_mantissa_bound _ _ _ Vb) as (Eb & _).
  unfold JS.sub, SFsub.
  rewrite binary_normalize_lt_iff, binary_normalize_gt_iff by lia.
  rewrite (Z.min_comm eb ea).
  destruct (Z.ltb_spec (cond_Zopp sa (Z.pos (fst (shl_align ma ea (Z.min ea eb))))
                        - cond_Zopp sb (Z.pos (fst (shl_align mb eb (Z.min ea eb))))) 0);
    symmetry; [apply Z.ltb_lt|apply Z.ltb_ge]; lia.
Qed.

(** A difference is negative exactly when the minuend is the smaller
    number. *)
Lemma sub_lt (a b : number) :
  binary64 a -> binary64 b -> a <> S754_nan -> b <> S754_nan ->
  JS.lt (a - b)%js (of_Z 0) = JS.lt a b.
Proof.
  intros Va Vb Na Nb. rewrite (sub_lt_gt a b Va Vb).
  rewrite (sub_gt b a Vb Va Nb Na). reflexivity.
Qed.

Lemma eq_zero_sign (z : number) :
  z <> S754_nan ->
  SFeqb z (of_Z 0) = negb (JS.lt z (of_Z 0)) && negb (JS.gt z (of_Z 0)).
Proof. destruct z as [s|s| |s m e]; try congruence; destruct s; reflexivity. Qed.

Lemma isFinite_not_nan (x : number) : isFinite x = true -> x <> S754_nan.
Proof. destruct x; discriminate. Qed.

Section ByTime.

Lemma by_time_gt (a b : SynthNote) :
  finite_time a -> finite_time b ->
  (cf_gt by_time a b = true
   <-> key_lt (order_key (startTime b)) (order_key (startTime a))).
Proof.
  intros [Va Fa] [Vb Fb]. unfold cf_gt, by_time. fold (startTime a) (startTime b).
  pose proof (isFinite_not_nan _ Fa). pose proof (isFinite_not_nan _ Fb).
  rewrite sub_gt by assumption. unfold JS.gt. apply SFltb_key; assumption.
Qed.

Lemma by_time_lt (a b : SynthNote) :
  finite_time a -> finite_time b ->
  (cf_lt by_time a b = true
   <-> key_lt (order_key (startTime a)) (order_key (startTime b))).
Proof.
  intros [Va Fa] [Vb Fb]. unfold cf_lt, by_time. fold (startTime a) (startTime b).
  pose proof (isFinite_not_nan _ Fa). pose proof (isFinite_not_nan _ Fb).
  rewrite sub_lt by assumption. unfold JS.lt. apply SFltb_key; assumption.
Qed.

Lemma by_time_eq (a b : SynthNote) :
  finite_time a -> finite_time b ->
  (cf_eq by_time a b = true
   <-> ~ key_lt (order_key (startTime a)) (order_key (startTime b)) /\
       ~ key_lt (order_key (startTime b)) (order_key (startTime a))).
Proof.
  intros Ha Hb. pose proof (by_time_gt a b Ha Hb) as G.
  pose proof (by_time_lt a b Ha Hb) as L.
  destruct Ha as [Va Fa], Hb as [Vb Fb].
  unfold cf_eq, cf_gt, cf_lt in *. rewrite eq_zero_sign.
  - destruct (JS.lt _ _), (JS.gt _ _); cbn [negb andb]; intuition congruence.
  - unfold by_time. fold (startTime a) (startTime b).
    apply sub_not_nan; assumption.
Qed.

(** On notes whose start times are finite the comparator of the assembler
    is consistent. *)
Lemma by_time_consistent (notes : list SynthNote) :
  Forall finite_time notes -> consistent by_time notes = true.
Proof.
  intros HF. rewrite Forall_forall in HF. unfold consistent.
  apply forallb_forall. intros a Ha%list_elem_of_In%HF.
  apply andb_true_iff. split.
  { apply by_time_eq; [assumption..|]. split; apply key_lt_irrefl. }
  apply forallb_forall. intros b Hb%list_elem_of_In%HF.
  rewrite !andb_true_iff. split; [split|].
  { apply negb_true_iff. destruct (by_time a b) eqn:E; try reflexivity.
    exfalso. revert E. unfold by_time. fold (startTime a) (startTime b).
    apply sub_not_nan; [apply Ha|apply Hb|apply Ha|apply Hb]. }
  { apply implb_true_iff. rewrite !by_time_eq by assumption. tauto. }
  apply forallb_forall. intros c Hc%list_elem_of_In%HF.
  rewrite !andb_true_iff, !implb_true_iff, !andb_true_iff.
  rewrite !by_time_eq, !by_time_lt, !by_time_gt by assumption.
  split; [split|].
  - intros [[A1 A2] [B1 B2]]. exact (key_eq_trans _ _ _ A1 A2 B1 B2).
  - intros [A B]. exact (key_lt_trans _ _ _ A B).
  - intros [A B]. exact (key_lt_trans _ _ _ B A).
Qed.

End ByTime.

(** ** Sorting *)

Section SortFacts.
Context {A : Type} (comparefn : A -> A -> number).

Local Abbreviation follows a b := (JS.gt (comparefn a b) (of_Z 0)).

Lemma sort_insert_perm (x : A) (l : list A) : sort_insert comparefn x l ≡ₚ x :: l.
Proof.
  induction l as [|y l IH]; cbn [sort_insert]; [reflexivity|].
  destruct (follows x y); [|reflexivity].
  rewrite IH. apply Permutation_swap.
Qed.

Lemma stable_sort_perm (l : list A) : stable_sort comparefn l ≡ₚ l.
Proof.
  unfold stable_sort. induction l as [|x l IH]; cbn [foldr]; [reflexivity|].
  rewrite sort_insert_perm, IH. reflexivity.
Qed.

Lemma sort_insert_filter (P : A -> Prop) `{!forall a, Decision (P a)} (x : A) (l : list A) :
  (forall a b, P a -> P b -> follows a b = false) ->
  filter P (sort_insert comparefn x l) = filter P (x :: l).
Proof.
  intros HP. induction l as [|y l IH]; cbn [sort_insert]; [reflexivity|].
  destruct (follows x y) eqn:F; [|reflexivity].
  rewrite filter_cons, IH, !filter_cons.
  destruct (decide (P y)) as [Py|]; [|reflexivity].
  destruct (decide (P x)) as [Px|]; [|reflexivity].
  rewrite (HP _ _ Px Py) in F. discriminate F.
Qed.

Lemma stable_sort_filter (P : A -> Prop) `{!forall a, Decision (P a)} (l : list A) :
  (forall a b, P a -> P b -> follows a b = false) ->
  filter P (stable_sort comparefn l) = filter P l.
Proof.
  intros HP. unfold stable_sort. induction l as [|x l IH]; cbn [foldr]; [reflexivity|].
  rewrite sort_insert_filter by exact HP. rewrite !filter_cons, IH. reflexivity.
Qed.

Lemma sort_insert_HdRel (R : A -> A -> Prop) (w x : A) (l : list A) :
  R w x -> HdRel R w l -> HdRel R w (sort_insert comparefn x l).
Proof.
  intros Hwx Hl. destruct l as [|y l]; cbn [sort_insert]; [constructor; exact Hwx|].
  destruct (follows x y); constructor; [|exact Hwx].
  inversion Hl; assumption.
Qed.

Lemma sort_insert_Sorted (x : A) (l : list A) :
  (forall a b, follows a b = true -> follows b a = false) ->
  Sorted (fun a b => follows a b = false) l ->
  Sorted (fun a b => follows a b = false) (sort_insert comparefn x l).
Proof.
  intros Hasym. induction 1 as [|y l Hl IH Hy]; cbn [sort_insert].
  - repeat constructor.
  - destruct (follows x y) eqn:F.
    + constructor; [exact IH|].
      apply sort_insert_HdRel; [apply Hasym, F|exact Hy].
    + constructor; [constructor; assumption|]. constructor. exact F.
Qed.

Lemma stable_sort_Sorted (l : list A) :
  (forall a b, follows a b = true -> follows b a = false) ->
  Sorted (fun a b => follows a b = false) (stable_sort comparefn l).
Proof.
  intros Hasym. unfold stable_sort. induction l as [|x l IH]; cbn [foldr].
  - constructor.
  - apply sort_insert_Sorted; assumption.
Qed.

(** The sort gives a result exactly for a consistent comparator, and then
    the stable one. *)
Lemma Array_sort_Some (l sorted : list A) :
  Array_sort comparefn l = Some sorted <->
  consistent comparefn l = true /\ sorted = stable_sort comparefn l.
Proof.
  unfold Array_sort. destruct (consistent comparefn l); split.
  - intros [= <-]. auto.
  - intros [_ ->]. reflexivity.
  - discriminate.
  - intros [[=] _].
Qed.

End SortFacts.

(** ** Comparisons *)

Lemma le_of_not_gt (a b : number) :
  a <> S754_nan -> b <> S754_nan -> JS.gt a b = false -> JS.le a b = true.
Proof.
  unfold JS.gt, JS.le, SFltb, SFleb.
  destruct a as [sa|sa| |sa ma ea], b as [sb|sb| |sb mb eb]; try congruence;
    try (destruct sa, sb; cbn; congruence);
    try (destruct sa; cbn; congruence); try (destruct sb; cbn; congruence).
  intros _ _. cbn [SFcompare].
  change (Pos.compare_cont Eq mb ma) with (Pos.compare mb ma).
  change (Pos.compare_cont Eq ma mb) with (Pos.compare ma mb).
  rewrite (Z.compare_antisym ea eb), (Pos.compare_antisym ma mb).
  destruct sa, sb, (Z.compare ea eb), (Pos.compare ma mb); cbn; congruence.
Qed.

Lemma mul_pos_nonneg (x y : number) :
  JS.gt x (of_Z 0) = true -> JS.gt y (of_Z 0) = true ->
  JS.le (of_Z 0) (x * y)%js = true.
Proof.
  intros [->|(mx & ex & ->)]%gt_zero_sign [->|(my & ey & ->)]%gt_zero_sign;
    try reflexivity.
  unfold JS.mul, SFmul. cbn [xorb].
  pose proof (binary_round_aux_sign false (Z.pos (mx * my)) (ex + ey) loc_Exact) as S.
  unfold binary_round_aux in *.
  destruct (shr_fexp prec emax (Z.pos (mx * my)) (ex + ey) loc_Exact) as [mrs1 e1] eqn:E1.
  apply shr_fexp_spec in E1 as [M1 _]; [|lia]. cbv zeta in M1.
  pose proof (round_nearest_even_range (shr_m mrs1) (loc_of_shr_record mrs1)) as Hr.
  assert (H1 : 0 <= shr_m mrs1) by (rewrite M1; apply Z.shiftr_nonneg; lia).
  destruct (shr_fexp prec emax _ e1 loc_Exact) as [mrs2 e2] eqn:E2.
  apply shr_fexp_spec in E2 as [M2 _]; [|lia]. cbv zeta in M2.
  assert (H2 : 0 <= shr_m mrs2) by (rewrite M2; apply Z.shiftr_nonneg; lia).
  destruct (shr_m mrs2) as [|m2|m2]; [reflexivity| |lia].
  destruct (Z.leb _ _); reflexivity.
Qed.

Lemma Int16Array_bytes_zeros (n : nat) :
  Int16Array_bytes (replicate n 0) = replicate (2 * n) 0.
Proof.
  unfold Int16Array_bytes. induction n as [|n IH]; [reflexivity|].
  cbn [replicate map concat]. rewrite IH.
  replace (2 * S n)%nat with (S (S (2 * n))) by lia. reflexivity.
Qed.

(** [generateSilence(seconds)] for a positive number of seconds whose byte
    count [Buffer.alloc] accepts: [floor(seconds * 44100)] zero samples. *)
Lemma generateSilence_spec (seconds : number) :
  valid_binary prec emax seconds = true ->
  JS.gt seconds (of_Z 0) = true ->
  JS.le (Math_floor (seconds * of_Z 44100) * of_Z 2)%js (of_Z kMaxLength) = true ->
  generateSilence seconds
  = Ok (Int16Array_bytes
          (replicate (Z.to_nat (trunc (Math_floor (seconds * of_Z 44100)%js))) 0)).
Proof.
  intros V P B. unfold generateSilence. cbv zeta.
  destruct (floor_double (seconds * of_Z 44100)%js) as (B0 & T0 & T2).
  - apply mul_valid; [exact V|apply of_Z_valid].
  - apply mul_pos_nonneg; [exact P|reflexivity].
  - exact B.
  - unfold Buffer_alloc. rewrite B0, B. cbn [andb]. rewrite T2, Int16Array_bytes_zeros.
    rewrite Z2Nat.inj_mul by lia. reflexivity.
Qed.


Lemma Sorted_Forall_impl {A} (P : A -> Prop) (R R' : A -> A -> Prop) (l : list A) :
  (forall a b, P a -> P b -> R a b -> R' a b) ->
  Forall P l -> Sorted R l -> Sorted R' l.
Proof.
  intros HR HP HS. induction HS as [|x l HS IH Hd]; [constructor|].
  apply Forall_cons in HP as [Px Pl]. constructor; [exact (IH Pl)|].
  destruct Hd as [|y l' Rxy]; constructor.
  apply Forall_cons in Pl as [Py _]. exact (HR _ _ Px Py Rxy).
Qed.

(** ** The timeline *)

Lemma by_time_sorted (notes : list SynthNote) :
  Forall (fun n => binary64 (startTime n) /\ startTime n <> S754_nan) notes ->
  Sorted (fun a b => JS.le (startTime a) (startTime b) = true)
    (stable_sort by_time notes).
Proof.
  intros HP.
  apply (Sorted_Forall_impl
           (fun n => binary64 (startTime n) /\ startTime n <> S754_nan)
           (fun a b => JS.gt (by_time a b) (of_Z 0) = false)).
  - intros a b [Va Na] [Vb Nb] R. apply le_of_not_gt; [exact Na|exact Nb|].
    rewrite <- (sub_gt _ _ Va Vb Na Nb). exact R.
  - rewrite stable_sort_perm. exact HP.
  - apply stable_sort_Sorted. intros a b. apply sub_gt_asym.
Qed.

Lemma by_time_stable (notes : list SynthNote) (t : number) :
  filter (fun n => SFeqb (startTime n) t = true) (stable_sort by_time notes)
  = filter (fun n => SFeqb (startTime n) t = true) notes.
Proof.
  apply stable_sort_filter. intros a b Ea Eb. apply sub_eq_gt.
  exact (SFeqb_trans_sym _ _ _ Ea Eb).
Qed.

Section TimelineFacts.
Context `{Host}.

Lemma timeline_step (instrument : AudioSynthInstrument) (n : SynthNote)
    (rest : list SynthNote) (buffers : list Buffer) (currentTime : number)
    (wav : Buffer) (rt rt' : Runtime) :
  instrument_generate instrument (note n) (octave n) (duration n) rt = Return wav rt' ->
  timeline instrument (n :: rest) buffers currentTime rt
  = if JS.gt (default currentTime (time n) - currentTime)%js (of_Z 0)
    then match generateSilence (default currentTime (time n) - currentTime)%js with
         | Ok silence =>
             timeline instrument rest (buffers ++ [silence; extractPCM wav])
               (default currentTime (time n) + duration n)%js rt'
         | Throw e => Raise e rt
         end
    else timeline instrument rest (buffers ++ [extractPCM wav])
           (default currentTime (time n) + duration n)%js rt'.
Proof.
  intros G. cbn [timeline]. cbv zeta.
  unfold mbind, M_bind. destruct (JS.gt _ (of_Z 0)).
  - destruct (generateSilence _) as [silence|e]; cbn.
    + rewrite G. rewrite <- app_assoc. reflexivity.
    + reflexivity.
  - cbn. rewrite G. reflexivity.
Qed.

(** The assembler, once the sort has given its result: the loop runs over
    the sorted notes and the header is put in front of what it collected. *)
Lemma synthNotesToWavBuffer_sorted (notes sorted : list SynthNote)
    (instrumentName : string) (rt0 : Runtime) :
  Array_sort by_time notes = Some sorted ->
  synthNotesToWavBuffer notes instrumentName rt0
  = (instrument ← createInstrument (SoundName instrumentName);
     buffers ← timeline instrument sorted [] (of_Z 0);
     header ← lift_result
                (createWavHeader_default (Z.of_nat (length (Buffer_concat buffers))));
     mret (header ++ Buffer_concat buffers)) rt0.
Proof.
  intros S. unfold synthNotesToWavBuffer. rewrite S. cbv zeta.
  unfold mbind, M_bind.
  destruct (createInstrument _ rt0) as [instrument rt1|e rt1|]; [|reflexivity..].
  destruct (timeline _ _ _ _ rt1) as [buffers rt2|e rt2|]; [|reflexivity..].
  destruct (createWavHeader_default _) as [header|e]; cbn [lift_result];
    [|reflexivity].
  unfold mret, M_ret, Buffer_concat. cbn [concat]. rewrite app_nil_r. reflexivity.
Qed.

Lemma synthNotesToWavBuffer_unfold (notes sorted : list SynthNote)
    (instrumentName : string)
    (instrument : AudioSynthInstrument) (buffers : list Buffer) (rt0 rt1 rt2 : Runtime) :
  Array_sort by_time notes = Some sorted ->
  createInstrument (SoundName instrumentName) rt0 = Return instrument rt1 ->
  timeline instrument sorted [] (of_Z 0) rt1 = Return buffers rt2 ->
  synthNotesToWavBuffer notes instrumentName rt0
  = match createWavHeader_default (Z.of_nat (length (Buffer_concat buffers))) with
    | Ok header => Return (header ++ Buffer_concat buffers) rt2
    | Throw e => Raise e rt2
    end.
Proof.
  intros S C T. rewrite (synthNotesToWavBuffer_sorted _ _ _ _ S).
  unfold mbind, M_bind. rewrite C, T.
  destruct (createWavHeader_default _) as [header|e]; reflexivity.
Qed.

Lemma timeline_silence_throws (instrument : AudioSynthInstrument) (n : SynthNote)
    (rest : list SynthNote) (buffers : list Buffer) (currentTime : number)
    (e : Error) (rt : Runtime) :
  JS.gt (default currentTime (time n) - currentTime)%js (of_Z 0) = true ->
  generateSilence (default currentTime (time n) - currentTime)%js = Throw e ->
  timeline instrument (n :: rest) buffers currentTime rt = Raise e rt.
Proof.
  intros P S. cbn [timeline]. cbv zeta. unfold mbind, M_bind. rewrite P, S.
  reflexivity.
Qed.

Lemma synthNotesToWavBuffer_throws (notes sorted : list SynthNote)
    (instrumentName : string)
    (instrument : AudioSynthInstrument) (e : Error) (rt0 rt1 rt2 : Runtime) :
  Array_sort by_time notes = Some sorted ->
  createInstrument (SoundName instrumentName) rt0 = Return instrument rt1 ->
  timeline instrument sorted [] (of_Z 0) rt1 = Raise e rt2 ->
  synthNotesToWavBuffer notes instrumentName rt0 = Raise e rt2.
Proof.
  intros S C T. rewrite (synthNotesToWavBuffer_sorted _ _ _ _ S).
  unfold mbind, M_bind. rewrite C, T. reflexivity.
Qed.

End TimelineFacts.

(** The sort of notes whose start times are finite. *)
Lemma by_time_sort (notes : list SynthNote) :
  Forall finite_time notes ->
  Array_sort by_time notes = Some (stable_sort by_time notes).
Proof.
  intros HF. apply Array_sort_Some. split; [apply by_time_consistent, HF|reflexivity].
Qed.

Ltac eval_gt :=
  match goal with
  | |- context [JS.gt ?x ?y] =>
      let v := eval vm_compute in (JS.gt x y) in
      replace (JS.gt x y) with v by (vm_compute; reflexivity)
  end.

Lemma createWavHeader_default_big (L : Z) :
  2 ^ 32 - 37 < L -> createWavHeader_default L = Throw RangeError.
Proof.
  intros HL. unfold createWavHeader_default, createWavHeader. cbv zeta.
  unfold writeUInt32LE.
  destruct (writeUIntLE_cases 4 (inject_Z (36 + L)) 4
              (Buffer_write "RIFF" 0 (replicate 44 0)))
    as [(b' & _ & _ & Hhi)|E].
  - rewrite Qle_bool_inject_Z in Hhi. apply Z.leb_le in Hhi.
    change (2 ^ (8 * Z.of_nat 4)) with (2 ^ 32) in Hhi. lia.
  - rewrite E. reflexivity.
Qed.

Ltac finite_times :=
  repeat constructor; unfold binary64, startTime;
  repeat match goal with E : time _ = Some _ |- _ => rewrite E end;
  reflexivity.

Section TimelineProperties.
Context `{Host}.

(** C3 (amended).  One turn of the loop of the timeline assembler: with
    [gap = time - currentTime], where [time] is the note's [time] or else
    the cursor [currentTime], and for a note whose render returns [wav],
    - if [gap > 0] and [Buffer.alloc] accepts the byte count
      [floor(gap * 44100) * 2], exactly [floor(gap * 44100)] zero-valued
      16-bit samples and then the note's PCM, [wav] without its 44-byte
      header, are appended;
    - if [gap > 0] and the byte count is above the largest [Buffer] length,
      a RangeError is thrown before the note is rendered;
    - otherwise ([gap <= 0], or NaN) only the note's PCM is appended;
    and the cursor moves to [time + duration].  The rate 44100 is the
    constant of [generateSilence], whatever the engine's sample rate.
    In particular two notes at 0 s and 3 s, each lasting 1 s, are assembled
    into the first note's PCM, [2 * 44100] zero samples and the second
    note's PCM, behind one WAV header. *)
Theorem silence_fills_gap :
  (forall (instrument : AudioSynthInstrument) (n : SynthNote) (rest : list SynthNote)
          (buffers : list Buffer) (currentTime : number) (rt : Runtime),
     let time := default currentTime (time n) in
     let gap := (time - currentTime)%js in
     let samples := Math_floor (gap * of_Z 44100)%js in
     (forall (wav : Buffer) (rt' : Runtime),
        instrument_generate instrument (note n) (octave n) (duration n) rt
          = Return wav rt' ->
        (binary64 time -> binary64 currentTime ->
         JS.gt gap (of_Z 0) = true ->
         JS.le (samples * of_Z 2)%js (of_Z kMaxLength) = true ->
         timeline instrument (n :: rest) buffers currentTime rt
         = timeline instrument rest
             (buffers ++ [Int16Array_bytes (replicate (Z.to_nat (trunc samples)) 0);
                          extractPCM wav])
             (time + duration n)%js rt') /\
        (JS.gt gap (of_Z 0) = false ->
         timeline instrument (n :: rest) buffers currentTime rt
         = timeline instrument rest (buffers ++ [extractPCM wav])
             (time + duration n)%js rt')) /\
     (JS.gt gap (of_Z 0) = true ->
      JS.le (samples * of_Z 2)%js (of_Z kMaxLength) = false ->
      timeline instrument (n :: rest) buffers currentTime rt = Raise RangeError rt)) /\
  (forall (a b : SynthNote) (instrumentName : string)
          (instrument : AudioSynthInstrument) (rt0 rt1 rt2 rt3 : Runtime)
          (wav1 wav2 : Buffer),
     time a = Some (of_Z 0) -> duration a = of_Z 1 ->
     time b = Some (of_Z 3) -> duration b = of_Z 1 ->
     createInstrument (SoundName instrumentName) rt0 = Return instrument rt1 ->
     instrument_generate instrument (note a) (octave a) (duration a) rt1
       = Return wav1 rt2 ->
     instrument_generate instrument (note b) (octave b) (duration b) rt2
       = Return wav2 rt3 ->
     let silence := Int16Array_bytes (replicate (Z.to_nat (2 * 44100)) 0) in
     let pcm := extractPCM wav1 ++ silence ++ extractPCM wav2 in
     Array_sort by_time [a; b] = Some [a; b] /\
     timeline instrument [a; b] [] (of_Z 0) rt1
       = Return [extractPCM wav1; silence; extractPCM wav2] rt3 /\
     synthNotesToWavBuffer [a; b] instrumentName rt0
     = match createWavHeader_default (Z.of_nat (length pcm)) with
       | Ok header => Return (header ++ pcm) rt3
       | Throw e => Raise e rt3
       end).
Proof.
  split.
  - intros instrument n rest buffers currentTime rt time0 gap samples. split.
    + intros wav rt' G.
      rewrite (timeline_step _ _ _ _ _ _ _ _ G). fold time0. fold gap. split.
      * intros Vt Vc P B. rewrite P.
        rewrite generateSilence_spec; [reflexivity| |exact P|exact B].
        apply sub_valid; assumption.
      * intros ->. reflexivity.
    + intros P B. apply timeline_silence_throws; [exact P|].
      fold time0. fold gap. unfold generateSilence, Buffer_alloc. cbv zeta.
      fold samples. rewrite B, andb_false_r. reflexivity.
  - intros a b instrumentName instrument rt0 rt1 rt2 rt3 wav1 wav2
      Ta Da Tb Db C G1 G2 silence pcm.
    assert (S : Array_sort by_time [a; b] = Some [a; b]).
    { rewrite by_time_sort by finite_times. f_equal.
      unfold stable_sort. cbn [foldr sort_insert]. unfold by_time. rewrite Ta, Tb.
      cbn [default]. eval_gt. reflexivity. }
    assert (T : timeline instrument [a; b] [] (of_Z 0) rt1
                = Return [extractPCM wav1; silence; extractPCM wav2] rt3).
    { rewrite (timeline_step _ _ _ _ _ _ _ _ G1). rewrite Ta, Da. cbn [default].
      eval_gt. cbv iota.
      rewrite (timeline_step _ _ _ _ _ _ _ _ G2). rewrite Tb, Db. cbn [default].
      eval_gt. cbv iota.
      rewrite generateSilence_spec;
        [|vm_compute; reflexivity|vm_compute; reflexivity|vm_compute; reflexivity].
      replace (trunc (Math_floor ((of_Z 3 - (of_Z 0 + of_Z 1)) * of_Z 44100)%js))
        with (2 * 44100) by (vm_compute; reflexivity).
      reflexivity. }
    split; [exact S|]. split; [exact T|].
    rewrite (synthNotesToWavBuffer_unfold _ _ _ _ _ _ _ _ S C T).
    unfold Buffer_concat. cbn [concat]. rewrite app_nil_r. reflexivity.
Qed.

End TimelineProperties.

Section Ordering.
Context `{Host}.

(** C4 (amended).  For notes whose start times ([time], or 0 where a note
    has none) are finite numbers, the comparator of the assembler is
    consistent, so the sort has a result [sorted] that the language fixes:
    a permutation of the notes, in which the notes whose start times are
    [==] to a given number keep their relative order and the start times
    ascend; and the assembler is the loop over [sorted], from the first
    note to the last, followed by the header.
    In particular, for notes given with start times 2, 0 and 1 and
    durations 1, the notes are rendered in the order 0, 1, 2 and the
    assembled PCM is the three note bodies, each the rendered buffer from
    byte 44 on, in that order with no silence in between; when their length
    fits the header, the result is the header for that length followed by
    the PCM, and otherwise a RangeError. *)
Theorem notes_sorted_by_time :
  (forall notes : list SynthNote,
     Forall finite_time notes ->
     exists sorted : list SynthNote,
       Array_sort by_time notes = Some sorted /\
       sorted ≡ₚ notes /\
       (forall t : number,
          filter (fun n => SFeqb (startTime n) t = true) sorted
          = filter (fun n => SFeqb (startTime n) t = true) notes) /\
       Sorted (fun a b => JS.le (startTime a) (startTime b) = true) sorted /\
       (forall (instrumentName : string) (rt0 : Runtime),
          synthNotesToWavBuffer notes instrumentName rt0
          = (instrument ← createInstrument (SoundName instrumentName);
             buffers ← timeline instrument sorted [] (of_Z 0);
             header ← lift_result
                        (createWavHeader_default
                           (Z.of_nat (length (Buffer_concat buffers))));
             mret (header ++ Buffer_concat buffers)) rt0)) /\
  (forall (a b c : SynthNote) (instrumentName : string)
          (instrument : AudioSynthInstrument) (rt0 rt1 rt2 rt3 rt4 : Runtime)
          (wa wb wc : Buffer),
     time a = Some (of_Z 2) -> time b = Some (of_Z 0) -> time c = Some (of_Z 1) ->
     duration a = of_Z 1 -> duration b = of_Z 1 -> duration c = of_Z 1 ->
     createInstrument (SoundName instrumentName) rt0 = Return instrument rt1 ->
     instrument_generate instrument (note b) (octave b) (duration b) rt1
       = Return wb rt2 ->
     instrument_generate instrument (note c) (octave c) (duration c) rt2
       = Return wc rt3 ->
     instrument_generate instrument (note a) (octave a) (duration a) rt3
       = Return wa rt4 ->
     let pcm := drop 44 wb ++ drop 44 wc ++ drop 44 wa in
     Array_sort by_time [a; b; c] = Some [b; c; a] /\
     timeline instrument [b; c; a] [] (of_Z 0) rt1
       = Return [drop 44 wb; drop 44 wc; drop 44 wa] rt4 /\
     (Z.of_nat (length pcm) <= 2 ^ 32 - 37 ->
      exists header,
        createWavHeader_default (Z.of_nat (length pcm)) = Ok header /\
        length header = 44%nat /\
        readUInt32LE 40 header = Z.of_nat (length pcm) /\
        synthNotesToWavBuffer [a; b; c] instrumentName rt0
        = Return (header ++ pcm) rt4) /\
     (2 ^ 32 - 37 < Z.of_nat (length pcm) ->
      synthNotesToWavBuffer [a; b; c] instrumentName rt0 = Raise RangeError rt4)).
Proof.
  split.
  - intros notes HF. exists (stable_sort by_time notes).
    pose proof (by_time_sort notes HF) as S.
    split; [exact S|]. split; [apply stable_sort_perm|].
    split; [intros t; apply by_time_stable|].
    split.
    + apply by_time_sorted. eapply Forall_impl; [exact HF|].
      intros n [V F]. split; [exact V|apply isFinite_not_nan, F].
    + intros instrumentName rt0. apply synthNotesToWavBuffer_sorted, S.
  - intros a b c instrumentName instrument rt0 rt1 rt2 rt3 rt4 wa wb wc
      Ta Tb Tc Da Db Dc C Gb Gc Ga pcm.
    assert (S : Array_sort by_time [a; b; c] = Some [b; c; a]).
    { rewrite by_time_sort by finite_times. f_equal.
      unfold stable_sort. cbn [foldr]. unfold by_time.
      repeat (cbn [sort_insert]; rewrite ?Ta, ?Tb, ?Tc; cbn [default];
              eval_gt; cbv iota).
      reflexivity. }
    assert (T : timeline instrument [b; c; a] [] (of_Z 0) rt1
                = Return [drop 44 wb; drop 44 wc; drop 44 wa] rt4).
    { rewrite (timeline_step _ _ _ _ _ _ _ _ Gb). rewrite Tb, Db. cbn [default].
      eval_gt. cbv iota.
      rewrite (timeline_step _ _ _ _ _ _ _ _ Gc). rewrite Tc, Dc. cbn [default].
      eval_gt. cbv iota.
      rewrite (timeline_step _ _ _ _ _ _ _ _ Ga). rewrite Ta, Da. cbn [default].
      eval_gt. cbv iota. reflexivity. }
    split; [exact S|]. split; [exact T|].
    pose proof (synthNotesToWavBuffer_unfold _ _ instrumentName _ _ _ _ _ S C T) as U.
    unfold Buffer_concat in U. cbn [concat] in U. rewrite app_nil_r in U.
    fold pcm in U. split.
    + intros Hfit. eexists. rewrite U.
      rewrite createWavHeader_default_ok by lia.
      split; [reflexivity|]. split; [reflexivity|]. split; [|reflexivity].
      unfold readUInt32LE.
      match goal with
      | |- le_value ?t = _ => change t with (le_bytes 4 (Z.of_nat (length pcm)))
      end.
      apply le_value_le_bytes_4. lia.
    + intros Hbig. rewrite U.
      rewrite createWavHeader_default_big by lia. reflexivity.
Qed.

End Ordering.

Lemma createInstrument_piano :
  createInstrument (SoundName "piano") demo_Synth
  = Return {| instrument_name := "piano"; _soundID := 0 |} demo_Synth.
Proof. reflexivity. Qed.

Lemma demo_note_returns :
  exists wav rt,
    generate (H := demo_host) (SoundIndex 0) "C" (of_Z 4) (of_Z 1) demo_Synth
    = Return wav rt /\
    Z.of_nat (length wav) = 44 + 88200.
Proof.
  destruct (generate_returns (H := demo_host) (SoundIndex 0) "C" (of_Z 4) (of_Z 1)
              demo_Synth (@piano demo_host)) as (wav & rt & G).
  - apply standard_Synth. reflexivity.
  - reflexivity.
  - eexists. vm_compute. reflexivity.
  - split; apply Z.leb_le; vm_compute; reflexivity.
  - exists wav, rt. split; [exact G|].
    destruct (generate_sized (H := demo_host) (SoundIndex 0) "C" (of_Z 4) (of_Z 1)
                demo_Synth rt wav (reachable_start _ eq_refl eq_refl) eq_refl
                (ex_intro _ (dec 26163 2) eq_refl) G) as [_ L].
    rewrite L. vm_compute. reflexivity.
Qed.

Lemma silence_fills_gap_witness :
  exists wav rt2 rt3,
    let instrument := {| instrument_name := "piano"; _soundID := 0 |} in
    let a := {| note := "C"; octave := of_Z 4; duration := of_Z 1;
                time := Some (of_Z 0) |} in
    let b := {| note := "C"; octave := of_Z 4; duration := of_Z 1;
                time := Some (of_Z 3) |} in
    let silence := Int16Array_bytes (replicate (Z.to_nat (2 * 44100)) 0) in
    let pcm := extractPCM wav ++ silence ++ extractPCM wav in
    generate (H := demo_host) (SoundIndex 0) "C" (of_Z 4) (of_Z 1) demo_Synth
      = Return wav rt2 /\
    timeline (H := demo_host) instrument [b] [extractPCM wav] (of_Z 0 + of_Z 1)%js rt2
      = Return [extractPCM wav; silence; extractPCM wav] rt3 /\
    synthNotesToWavBuffer (H := demo_host) [a; b] "piano" demo_Synth
    = match createWavHeader_default (Z.of_nat (length pcm)) with
      | Ok header => Return (header ++ pcm) rt3
      | Throw e => Raise e rt3
      end.
Proof.
  destruct demo_note_returns as (wav & rt2 & G1 & _).
  destruct (generate_memo _ _ _ _ _ _ _ demo_full_rows G1) as [_ G2].
  exists wav, rt2, (on_synth (set_temp empty_vars) rt2). cbv zeta.
  split; [exact G1|]. split.
  - rewrite (proj1 (proj1 (proj1 (silence_fills_gap (H := demo_host))
               {| instrument_name := "piano"; _soundID := 0 |}
               {| note := "C"; octave := of_Z 4; duration := of_Z 1;
                  time := Some (of_Z 3) |}
               [] [extractPCM wav] (of_Z 0 + of_Z 1)%js rt2)
               wav (on_synth (set_temp empty_vars) rt2) G2)).
    + cbn [time default].
      replace (trunc (Math_floor ((of_Z 3 - (of_Z 0 + of_Z 1)) * of_Z 44100)%js))
        with (2 * 44100) by (vm_compute; reflexivity).
      reflexivity.
    + reflexivity.
    + reflexivity.
    + vm_compute. reflexivity.
    + vm_compute. reflexivity.
  - exact (proj2 (proj2 (proj2 (silence_fills_gap (H := demo_host))
           {| note := "C"; octave := of_Z 4; duration := of_Z 1; time := Some (of_Z 0) |}
           {| note := "C"; octave := of_Z 4; duration := of_Z 1; time := Some (of_Z 3) |}
           "piano" _ _ _ _ _ _ _ eq_refl eq_refl eq_refl eq_refl
           createInstrument_piano G1 G2))).
Defined.

(** C3 as stated fails for a gap of about 2^40 s: the byte count
    [2 * floor(gap * 44100)] is above the largest length of a [Buffer], so
    [generateSilence] throws a RangeError, no sample is appended and the
    assembler returns nothing. *)
Lemma huge_gap_throws :
  exists wav rt2,
    let a := {| note := "C"; octave := of_Z 4; duration := of_Z 1;
                time := Some (of_Z 0) |} in
    let b := {| note := "C"; octave := of_Z 4; duration := of_Z 1;
                time := Some (of_Z (2 ^ 40)) |} in
    let gap := (of_Z (2 ^ 40) - (of_Z 0 + of_Z 1))%js in
    generate (H := demo_host) (SoundIndex 0) "C" (of_Z 4) (of_Z 1) demo_Synth
      = Return wav rt2 /\
    JS.gt gap (of_Z 0) = true /\
    JS.le (Math_floor (gap * of_Z 44100) * of_Z 2)%js (of_Z kMaxLength) = false /\
    generateSilence gap = Throw RangeError /\
    synthNotesToWavBuffer (H := demo_host) [a; b] "piano" demo_Synth
      = Raise RangeError rt2.
Proof.
  destruct demo_note_returns as (wav & rt2 & G1 & _).
  exists wav, rt2. cbv zeta.
  split; [exact G1|]. split; [vm_compute; reflexivity|].
  split; [vm_compute; reflexivity|]. split; [vm_compute; reflexivity|].
  assert (S : Array_sort by_time
                [ {| note := "C"; octave := of_Z 4; duration := of_Z 1;
                     time := Some (of_Z 0) |};
                  {| note := "C"; octave := of_Z 4; duration := of_Z 1;
                     time := Some (of_Z (2 ^ 40)) |} ]
              = Some
                [ {| note := "C"; octave := of_Z 4; duration := of_Z 1;
                     time := Some (of_Z 0) |};
                  {| note := "C"; octave := of_Z 4; duration := of_Z 1;
                     time := Some (of_Z (2 ^ 40)) |} ])
    by (vm_compute; reflexivity).
  apply (synthNotesToWavBuffer_throws (H := demo_host) _ _ _ _ _ _ _ _ S
           createInstrument_piano).
  pose proof (timeline_step (H := demo_host)
             {| instrument_name := "piano"; _soundID := 0 |}
             {| note := "C"; octave := of_Z 4; duration := of_Z 1; time := Some (of_Z 0) |}
             [{| note := "C"; octave := of_Z 4; duration := of_Z 1;
                     time := Some (of_Z (2 ^ 40)) |}] [] (of_Z 0) wav demo_Synth rt2) as T1.
  specialize (T1 G1).
  rewrite T1.
  cbn [time duration default]. eval_gt. cbv iota.
  apply timeline_silence_throws; vm_compute; reflexivity.
Qed.

(** The theorem on three notes of the engine as loaded, given at 2 s, 0 s
    and 1 s: the sort puts them in the order 0, 1, 2, and the assembler
    returns the header for [3 * 88200] bytes followed by the three bodies. *)
Lemma notes_sorted_by_time_witness :
  exists wav rt2 rt4 header,
    generate (H := demo_host) (SoundIndex 0) "C" (of_Z 4) (of_Z 1) demo_Synth
      = Return wav rt2 /\
    Array_sort by_time
      [ {| note := "C"; octave := of_Z 4; duration := of_Z 1; time := Some (of_Z 2) |};
        {| note := "C"; octave := of_Z 4; duration := of_Z 1; time := Some (of_Z 0) |};
        {| note := "C"; octave := of_Z 4; duration := of_Z 1; time := Some (of_Z 1) |} ]
    = Some
      [ {| note := "C"; octave := of_Z 4; duration := of_Z 1; time := Some (of_Z 0) |};
        {| note := "C"; octave := of_Z 4; duration := of_Z 1; time := Some (of_Z 1) |};
        {| note := "C"; octave := of_Z 4; duration := of_Z 1; time := Some (of_Z 2) |} ] /\
    Z.of_nat (length (drop 44 wav ++ drop 44 wav ++ drop 44 wav)) = 3 * 88200 /\
    readUInt32LE 40 header = 3 * 88200 /\
    synthNotesToWavBuffer (H := demo_host)
      [ {| note := "C"; octave := of_Z 4; duration := of_Z 1; time := Some (of_Z 2) |};
        {| note := "C"; octave := of_Z 4; duration := of_Z 1; time := Some (of_Z 0) |};
        {| note := "C"; octave := of_Z 4; duration := of_Z 1; time := Some (of_Z 1) |} ]
      "piano" demo_Synth
    = Return (header ++ drop 44 wav ++ drop 44 wav ++ drop 44 wav) rt4.
Proof.
  destruct demo_note_returns as (wav & rt2 & G1 & L).
  destruct (generate_memo _ _ _ _ _ _ _ demo_full_rows G1) as [_ G2].
  assert (F2 : full_rows (_fileCache (synth rt2))).
  { apply (generate_final (H := demo_host) (SoundIndex 0) "C" (of_Z 4) (of_Z 1)
             demo_Synth rt2 demo_full_rows).
    rewrite G1. reflexivity. }
  destruct (generate_memo _ _ _ _ _ _ _ F2 G2) as [_ G3].
  pose proof (proj2 (notes_sorted_by_time (H := demo_host))
           {| note := "C"; octave := of_Z 4; duration := of_Z 1; time := Some (of_Z 2) |}
           {| note := "C"; octave := of_Z 4; duration := of_Z 1; time := Some (of_Z 0) |}
           {| note := "C"; octave := of_Z 4; duration := of_Z 1; time := Some (of_Z 1) |}
           "piano" _ _ _ _ _ _ _ _ _ eq_refl eq_refl eq_refl eq_refl eq_refl eq_refl
           createInstrument_piano G1 G2 G3) as W.
  cbv zeta in W. destruct W as (S & _ & W & _).
  assert (Len : Z.of_nat (length (drop 44 wav ++ drop 44 wav ++ drop 44 wav))
                = 3 * 88200).
  { rewrite !length_app, !length_drop. lia. }
  destruct (W ltac:(rewrite Len; lia)) as (header & _ & _ & R & A).
  exists wav, rt2, (on_synth (set_temp empty_vars) (on_synth (set_temp empty_vars) rt2)),
    header.
  split; [exact G1|]. split; [exact S|]. split; [exact Len|].
  split; [rewrite R; exact Len|exact A].
Defined.

(** C4 as stated fails for a note whose start time is NaN: the comparator
    then returns NaN, the language leaves the order of the sort to the
    implementation, and in no order of the two notes do the start times
    ascend. *)
Lemma unordered_start_times :
  consistent by_time
    [ {| note := "C"; octave := of_Z 4; duration := of_Z 1; time := Some NaN |};
      {| note := "C"; octave := of_Z 4; duration := of_Z 1; time := Some (of_Z 0) |} ]
  = false /\
  Array_sort by_time
    [ {| note := "C"; octave := of_Z 4; duration := of_Z 1; time := Some NaN |};
      {| note := "C"; octave := of_Z 4; duration := of_Z 1; time := Some (of_Z 0) |} ]
  = None /\
  forall l : list SynthNote,
    l ≡ₚ [ {| note := "C"; octave := of_Z 4; duration := of_Z 1; time := Some NaN |};
           {| note := "C"; octave := of_Z 4; duration := of_Z 1;
              time := Some (of_Z 0) |} ] ->
    ~ Sorted (fun a b => JS.le (startTime a) (startTime b) = true) l.
Proof.
  split; [vm_compute; reflexivity|]. split; [vm_compute; reflexivity|].
  intros l Hl HS. symmetry in Hl.
  apply Permutation_length_2_inv in Hl as [-> | ->];
    inversion HS as [|x l' _ Hd]; subst; inversion Hd as [|y l'' Hle]; subst;
    discriminate Hle.
Qed.
